(** * Geometry lab: the non-Euclidean geometry kernel

    A shallow embedding of [spaceEngine.ts] (the kernel) and of the
    measuring helpers and the line-operation callback of the main
    [App] component.

    JavaScript [number]s are modelled by the real numbers of the
    Standard Library: arithmetic is exact, there is no rounding, no
    signed zero and no [NaN] (a division by zero or the square root of
    a negative number has the value the Standard Library gives it);
    [Infinity] is a separate constructor where the code returns it.
    The module [Doubles] is the exception: it follows the hyperbolic
    advance on numbers that can be infinite or [NaN], where the
    overflow of [Math.exp] for a large distance changes what the code
    stores.
    Loop counters and sample counts are [nat].  Arrays are lists;
    objects are records and an object spread [{ ...s, f: v }] is a
    setter that rebuilds the record.  A [while] loop is a function with
    fuel, and the fuel it is given is proved to be enough. *)

From Stdlib Require Import Reals Lra Lia List String Bool Arith ZArith.
Import ListNotations.

Open Scope R_scope.

(** ** The [Math] object and the comparisons of the language *)

Module JsMath.

Definition ltb (a b : R) : bool := if Rlt_dec a b then true else false.
Definition leb (a b : R) : bool := if Rle_dec a b then true else false.
Definition eqb (a b : R) : bool := if Req_dec_T a b then true else false.

(** [x || d] on numbers: [d] replaces a zero. *)
Definition orElse (v d : R) : R := if eqb v 0 then d else v.

Definition max (a b : R) : R := Rmax a b.
Definition min (a b : R) : R := Rmin a b.
Definition abs (a : R) : R := Rabs a.
Definition hypot (a b : R) : R := sqrt (a * a + b * b).
Definition hypot3 (a b c : R) : R := sqrt (a * a + b * b + c * c).

Definition sign (a : R) : R :=
  if ltb 0 a then 1 else if ltb a 0 then -1 else 0.

(** [Math.atan2(y, x)], the angle of the point [(x, y)] in (-PI, PI]. *)
Definition atan2 (y x : R) : R :=
  if ltb 0 x then atan (y / x)
  else if ltb x 0 then
         (if leb 0 y then atan (y / x) + PI else atan (y / x) - PI)
  else if ltb 0 y then PI / 2
  else if ltb y 0 then - (PI / 2)
  else 0.

(** [Math.acosh], by its closed form [ln (x + sqrt (x^2 - 1))]. *)
Definition acosh (v : R) : R := ln (v + sqrt (v * v - 1)).

End JsMath.

Notation "a <? b" := (JsMath.ltb a b) : R_scope.
Notation "a <=? b" := (JsMath.leb a b) : R_scope.
Notation "a =? b" := (JsMath.eqb a b) : R_scope.

(** A number that may be [Infinity]. *)
Inductive JsNumber : Type :=
| Num (r : R)
| Infinity.

(** ** Vectors *)

Record Vec2 : Type := mkVec2 { vx : R; vy : R }.
Record Vec3 : Type := mkVec3 { wx : R; wy : R; wz : R }.

Inductive SpaceId : Type := SpaceE | SpaceH | SpaceS.

(** Assignment [a[k] = v] on an index of the array. *)
Fixpoint set_nth {A : Type} (k : nat) (v : A) (l : list A) : list A :=
  match l, k with
  | [], _ => []
  | _ :: tl, O => v :: tl
  | hd :: tl, S k' => hd :: set_nth k' v tl
  end.

(** The samples [f 0, f 1, ..., f n] pushed by a loop
    [for (let i = 0; i <= n; i++)]. *)
Definition for_upto {A : Type} (n : nat) (f : nat -> A) : list A :=
  map f (seq 0 (S n)).

(** ** The kernel, [spaceEngine.ts] *)

Module SpaceEngine.

Record Polyline : Type := mkPolyline {
  pts : list Vec2;
  color : string;
  width : R
}.

Inductive Shape : Type :=
| ShapePolyline (p : Polyline)
| ShapeMarker (p : Vec2) (c : string).

Definition InProgress : Type := option Polyline.

Inductive LogEntry : Type :=
| LogAdvance (t dist : R)
| LogTurn (t deg : R)
| LogTraceLine (t length : R)
| LogTraceCircle (t radius : R)
| LogTriangleCreated (t : R) (labels : list string) (points : list Vec2)
| LogMeasureAngle (t valueDeg : R) (A B C : Vec2)
| LogCopyToSpace (t : R) (from to : SpaceId) (what : string)
| LogObs (t : R) (title : string) (data : list (string * string)).

Record Rotate : Type := mkRotate {
  rot_from : R;
  rot_to : R;
  rot_elapsed : R;
  rot_duration : R
}.

Record Anim : Type := mkAnim {
  active : bool;
  path : list Vec2;
  anim_i : nat;
  anim_t : R;
  speed : R;
  addToTrace : bool;
  rotate : option Rotate
}.

Record EngineState : Type := mkState {
  space : SpaceId;
  e_pos : Vec2;
  e_theta : R;
  h_pos : Vec2;
  h_theta : R;
  s_p : Vec3;
  s_t : Vec3;
  shapes : list Shape;
  inProgress : InProgress;
  log : list LogEntry;
  anim : Anim
}.

(** Object spreads [{ ...state, field: v }]. *)
Definition set_e_pos (st : EngineState) (v : Vec2) : EngineState :=
  mkState (space st) v (e_theta st) (h_pos st) (h_theta st) (s_p st) (s_t st)
          (shapes st) (inProgress st) (log st) (anim st).
Definition set_e_theta (st : EngineState) (v : R) : EngineState :=
  mkState (space st) (e_pos st) v (h_pos st) (h_theta st) (s_p st) (s_t st)
          (shapes st) (inProgress st) (log st) (anim st).
Definition set_h_pos (st : EngineState) (v : Vec2) : EngineState :=
  mkState (space st) (e_pos st) (e_theta st) v (h_theta st) (s_p st) (s_t st)
          (shapes st) (inProgress st) (log st) (anim st).
Definition set_h_theta (st : EngineState) (v : R) : EngineState :=
  mkState (space st) (e_pos st) (e_theta st) (h_pos st) v (s_p st) (s_t st)
          (shapes st) (inProgress st) (log st) (anim st).
Definition set_s_p (st : EngineState) (v : Vec3) : EngineState :=
  mkState (space st) (e_pos st) (e_theta st) (h_pos st) (h_theta st) v (s_t st)
          (shapes st) (inProgress st) (log st) (anim st).
Definition set_s_t (st : EngineState) (v : Vec3) : EngineState :=
  mkState (space st) (e_pos st) (e_theta st) (h_pos st) (h_theta st) (s_p st) v
          (shapes st) (inProgress st) (log st) (anim st).
Definition set_shapes (st : EngineState) (v : list Shape) : EngineState :=
  mkState (space st) (e_pos st) (e_theta st) (h_pos st) (h_theta st) (s_p st)
          (s_t st) v (inProgress st) (log st) (anim st).
Definition set_inProgress (st : EngineState) (v : InProgress) : EngineState :=
  mkState (space st) (e_pos st) (e_theta st) (h_pos st) (h_theta st) (s_p st)
          (s_t st) (shapes st) v (log st) (anim st).
Definition set_log (st : EngineState) (v : list LogEntry) : EngineState :=
  mkState (space st) (e_pos st) (e_theta st) (h_pos st) (h_theta st) (s_p st)
          (s_t st) (shapes st) (inProgress st) v (anim st).
Definition set_anim (st : EngineState) (v : Anim) : EngineState :=
  mkState (space st) (e_pos st) (e_theta st) (h_pos st) (h_theta st) (s_p st)
          (s_t st) (shapes st) (inProgress st) (log st) v.

(** *** Vector helpers *)

Definition clamp (v a b : R) : R := JsMath.max a (JsMath.min b v).
Definition hypot2 (v : Vec2) : R := JsMath.hypot (vx v) (vy v).
Definition add2 (a b : Vec2) : Vec2 := mkVec2 (vx a + vx b) (vy a + vy b).
Definition sub2 (a b : Vec2) : Vec2 := mkVec2 (vx a - vx b) (vy a - vy b).
Definition mul2 (a : Vec2) (k : R) : Vec2 := mkVec2 (vx a * k) (vy a * k).
Definition dot2 (a b : Vec2) : R := vx a * vx b + vy a * vy b.
Definition norm2 (a : Vec2) : Vec2 :=
  let n := hypot2 a in
  if 0 <? n then mul2 a (1 / n) else mkVec2 1 0.

Definition dot3 (a b : Vec3) : R := wx a * wx b + wy a * wy b + wz a * wz b.
Definition hypot3 (v : Vec3) : R := JsMath.hypot3 (wx v) (wy v) (wz v).
Definition mul3 (v : Vec3) (k : R) : Vec3 :=
  mkVec3 (wx v * k) (wy v * k) (wz v * k).
Definition add3 (a b : Vec3) : Vec3 :=
  mkVec3 (wx a + wx b) (wy a + wy b) (wz a + wz b).
Definition norm3 (v : Vec3) : Vec3 :=
  let n := hypot3 v in
  if 0 <? n then mul3 v (1 / n) else mkVec3 1 0 0.
Definition cross3 (a b : Vec3) : Vec3 :=
  mkVec3 (wy a * wz b - wz a * wy b)
         (wz a * wx b - wx a * wz b)
         (wx a * wy b - wy a * wx b).

(** *** Initial state *)

Definition idleAnim (sp : R) : Anim := mkAnim false [] 0 0 sp false None.

Definition createInitialState (sp : SpaceId) : EngineState :=
  let s_p := norm3 (mkVec3 0 0 1) in
  let s_t := norm3 (mkVec3 1 0 0) in
  mkState sp (mkVec2 0 0) 0 (mkVec2 0 0) 0 s_p s_t [] None []
          (idleAnim (6 / 10)).

Definition reset (st : EngineState) (sp : SpaceId) : EngineState :=
  createInitialState sp.

Definition clearShapes (st : EngineState) : EngineState :=
  set_inProgress (set_shapes st []) None.

Definition sphereToWorld2 (p : Vec3) : Vec2 := mkVec2 (wx p) (wy p).

Definition frogWorldPos (st : EngineState) : Vec2 :=
  match space st with
  | SpaceE => e_pos st
  | SpaceH => h_pos st
  | SpaceS => sphereToWorld2 (s_p st)
  end.

Definition frogHeadingWorldDir (st : EngineState) : Vec2 :=
  match space st with
  | SpaceE => mkVec2 (cos (e_theta st)) (sin (e_theta st))
  | SpaceH => mkVec2 (cos (h_theta st)) (sin (h_theta st))
  | SpaceS => norm2 (sphereToWorld2 (s_t st))
  end.

(** *** Hyperbolic (Poincare disk) helpers *)

Definition mobiusAdd (a b : Vec2) : Vec2 :=
  let a2 := dot2 a a in
  let b2 := dot2 b b in
  let ab := dot2 a b in
  let denom := 1 + 2 * ab + a2 * b2 in
  mkVec2 (((1 + 2 * ab + b2) * vx a + (1 - a2) * vx b) / denom)
         (((1 + 2 * ab + b2) * vy a + (1 - a2) * vy b) / denom).

(** On real numbers the quotient is defined for every [v] and lies
    strictly between -1 and 1.  On doubles [Math.exp] overflows when
    [2 v] is above 709.78 and the quotient is [NaN]: [Doubles.tanh]. *)
Definition tanh (v : R) : R :=
  let e2x := exp (2 * v) in
  (e2x - 1) / (e2x + 1).

Definition hyperbolicDirectionAtOrigin (p dir : Vec2) : Vec2 :=
  let eps := 1e-4 in
  let safeDir := norm2 dir in
  let q := add2 p (mul2 safeDir eps) in
  let q2 := dot2 q q in
  let q := if 0.9999 <=? q2 then mul2 (norm2 q) 0.999 else q in
  let Tp := fun v : Vec2 => mobiusAdd (mkVec2 (- vx p) (- vy p)) v in
  let p0 := Tp p in
  let q0 := Tp q in
  norm2 (sub2 q0 p0).

(** The loops [while (d > b) d -= 2 * Math.PI] and
    [while (d < b) d += 2 * Math.PI] (and its [<=] variant).  Every
    turn moves [d] by more than 1, so [angle_fuel d] turns are enough
    whenever [-PI <= b <= PI]. *)
Fixpoint while_gt_sub (fuel : nat) (b d : R) : R :=
  match fuel with
  | O => d
  | S fuel' => if b <? d then while_gt_sub fuel' b (d - 2 * PI) else d
  end.

Fixpoint while_lt_add (fuel : nat) (b d : R) : R :=
  match fuel with
  | O => d
  | S fuel' => if d <? b then while_lt_add fuel' b (d + 2 * PI) else d
  end.

Fixpoint while_le_add (fuel : nat) (b d : R) : R :=
  match fuel with
  | O => d
  | S fuel' => if d <=? b then while_le_add fuel' b (d + 2 * PI) else d
  end.

Definition angle_fuel (d : R) : nat := Z.to_nat (up (Rabs d)).

(** The guard [r2 < 0.999 ? p : mul2(norm2(p), 0.999)] applied to every
    sample of a hyperbolic path. *)
Definition keepInDisk (p : Vec2) : Vec2 :=
  let r2 := dot2 p p in
  if r2 <? 0.999 then p else mul2 (norm2 p) 0.999.

Definition hyperbolicGeodesicPoints (a b : Vec2) (n : nat) : list Vec2 :=
  let cross := vx a * vy b - vy a * vx b in
  if JsMath.abs cross <? 1e-6 then
    for_upto n (fun i =>
      let t := INR i / INR n in
      let p := add2 (mul2 a (1 - t)) (mul2 b t) in
      keepInDisk p)
  else
    let A1 := vx a in let A2 := vy a in
    let B1 := vx b in let B2 := vy b in
    let rhsA := (dot2 a a + 1) / 2 in
    let rhsB := (dot2 b b + 1) / 2 in
    let det := A1 * B2 - A2 * B1 in
    let cx := (rhsA * B2 - A2 * rhsB) / det in
    let cy := (A1 * rhsB - rhsA * B1) / det in
    let r := JsMath.hypot (vx a - cx) (vy a - cy) in
    let angA := JsMath.atan2 (vy a - cy) (vx a - cx) in
    let angB := JsMath.atan2 (vy b - cy) (vx b - cx) in
    let d := angB - angA in
    let d := while_gt_sub (angle_fuel d) PI d in
    let d := while_lt_add (angle_fuel d) (- PI) d in
    for_upto n (fun i =>
      let t := INR i / INR n in
      let ang := angA + d * t in
      let p := mkVec2 (cx + r * cos ang) (cy + r * sin ang) in
      keepInDisk p).

(** *** Sphere helpers *)

Definition sphereAdvance (p t : Vec3) (arc : R) : Vec3 * Vec3 :=
  let cp := cos arc in
  let sp := sin arc in
  let p2 := add3 (mul3 p cp) (mul3 t sp) in
  let t2 := add3 (mul3 t cp) (mul3 p (- sp)) in
  (norm3 p2, norm3 t2).

Definition sphereTurn (p t : Vec3) (ang : R) : Vec3 :=
  let axis := p in
  let cp := cos ang in
  let sp := sin ang in
  let axt := cross3 axis t in
  norm3 (add3 (add3 (mul3 t cp) (mul3 axt sp))
              (mul3 axis (dot3 axis t * (1 - cp)))).

Definition greatCirclePath (p t : Vec3) (arcLen : R) (n : nat) : list Vec2 :=
  for_upto n (fun i =>
    let s := (arcLen * INR i) / INR n in
    let pi := fst (sphereAdvance p t s) in
    sphereToWorld2 pi).

Definition sphereCirclePoints (center : Vec3) (radiusArc : R) (n : nat)
  : list Vec2 :=
  let u := cross3 center (mkVec3 0 0 1) in
  let u := if hypot3 u <? 1e-6 then cross3 center (mkVec3 0 1 0) else u in
  let u := norm3 u in
  let v := norm3 (cross3 center u) in
  let cr := cos radiusArc in
  let sr := sin radiusArc in
  for_upto n (fun i =>
    let a := (2 * PI * INR i) / INR n in
    let dir := add3 (mul3 u (cos a)) (mul3 v (sin a)) in
    let p := add3 (mul3 center cr) (mul3 dir sr) in
    sphereToWorld2 (norm3 p)).

(** *** Paths built for the actions *)

Record Built : Type := mkBuilt {
  built_path : list Vec2;
  built_next : EngineState
}.

Definition buildAdvancePath (st : EngineState) (dist : R) : Built :=
  match space st with
  | SpaceE =>
      let A := e_pos st in
      let dir := mkVec2 (cos (e_theta st)) (sin (e_theta st)) in
      let B := add2 A (mul2 dir dist) in
      mkBuilt [A; B] (set_e_pos st B)
  | SpaceH =>
      let p := h_pos st in
      let dirLocal := mkVec2 (cos (h_theta st)) (sin (h_theta st)) in
      let d0 := hyperbolicDirectionAtOrigin p dirLocal in
      let t := tanh (dist / 2) in
      let step0 := mul2 d0 t in
      let p2 := mobiusAdd p step0 in
      let r2 := dot2 p2 p2 in
      let p2 := if 0.9999 <=? r2 then mul2 (norm2 p2) 0.999 else p2 in
      mkBuilt (hyperbolicGeodesicPoints p p2 180) (set_h_pos st p2)
  | SpaceS =>
      let path := greatCirclePath (s_p st) (s_t st) dist 260 in
      let '(p2, t2) := sphereAdvance (s_p st) (s_t st) dist in
      mkBuilt path (set_s_t (set_s_p st p2) t2)
  end.

Definition turnAnim (a : Anim) (r : Rotate) : Anim :=
  mkAnim true [] 0 0 (speed a) false (Some r).

Definition buildTurnAnim (st : EngineState) (deg duration : R) : EngineState :=
  let ang := (deg * PI) / 180 in
  match space st with
  | SpaceE =>
      let from := e_theta st in
      let to := from + ang in
      set_anim st (turnAnim (anim st) (mkRotate from to 0 duration))
  | SpaceH =>
      let from := h_theta st in
      let to := from + ang in
      set_anim st (turnAnim (anim st) (mkRotate from to 0 duration))
  | SpaceS =>
      set_anim st (turnAnim (anim st) (mkRotate 0 ang 0 duration))
  end.

Record Traced : Type := mkTraced {
  traced_path : list Vec2;
  traced_next : EngineState;
  traceColor : string
}.

Definition buildGeodesicTrace (st : EngineState) (len : R) : Traced :=
  let b := buildAdvancePath st len in
  mkTraced (built_path b) (built_next b) "#16a34a".

(** [pts[pts.length - 1]]; [None] is [undefined] on an empty array. *)
Definition lastOf (l : list Vec2) : option Vec2 :=
  nth_error l (List.length l - 1).

Definition lastPoint (l : list Vec2) : Vec2 := last l (mkVec2 0 0).

Definition buildCircleTrace (st : EngineState) (radius : R) : Traced :=
  match space st with
  | SpaceE =>
      let C := e_pos st in
      let n := 260%nat in
      let pts := for_upto n (fun i =>
        let a := (2 * PI * INR i) / INR n in
        mkVec2 (vx C + radius * cos a) (vy C + radius * sin a)) in
      let last := lastPoint pts in
      mkTraced pts (set_e_pos st last) "#2563eb"
  | SpaceH =>
      let p := h_pos st in
      let p2 := dot2 p p in
      let t := tanh (radius / 2) in
      let rho := (t * (1 - p2)) / (1 - p2 * t * t) in
      let n := 280%nat in
      let pts := for_upto n (fun i =>
        let a := (2 * PI * INR i) / INR n in
        let q := mkVec2 (vx p + rho * cos a) (vy p + rho * sin a) in
        keepInDisk q) in
      let last := lastPoint pts in
      mkTraced pts (set_h_pos st last) "#2563eb"
  | SpaceS =>
      let pts := sphereCirclePoints (s_p st) radius 320 in
      mkTraced pts st "#2563eb"
  end.

(** *** The animation step, called on every frame *)

Definition set_active (a : Anim) (v : bool) : Anim :=
  mkAnim v (path a) (anim_i a) (anim_t a) (speed a) (addToTrace a) (rotate a).
Definition set_rotate (a : Anim) (r : Rotate) : Anim :=
  mkAnim (active a) (path a) (anim_i a) (anim_t a) (speed a) (addToTrace a)
         (Some r).
Definition set_i_t (a : Anim) (i : nat) (t : R) : Anim :=
  mkAnim (active a) (path a) i t (speed a) (addToTrace a) (rotate a).

Record Walk : Type := mkWalk {
  walk_i : nat;
  walk_t : R;
  walk_remaining : R;
  walk_pos : Vec2
}.

(** The loop [while (remaining > 0 && i < path.length - 1)].  A turn
    either leaves the loop ([break]) or moves on to the next segment,
    so [length path] turns are always enough. *)
Fixpoint walkPath (fuel : nat) (path : list Vec2) (w : Walk) : Walk :=
  match fuel with
  | O => w
  | S fuel' =>
      if (0 <? walk_remaining w)
         && (walk_i w <? List.length path - 1)%nat then
        let i := walk_i w in
        let t := walk_t w in
        let remaining := walk_remaining w in
        let A := nth i path (mkVec2 0 0) in
        let B := nth (i + 1) path (mkVec2 0 0) in
        let seg := sub2 B A in
        let segLen := hypot2 seg in
        let left := segLen * (1 - t) in
        if remaining <=? left then
          let t := t + remaining / segLen in
          mkWalk i t 0 (add2 A (mul2 seg t))
        else
          walkPath fuel' path (mkWalk (i + 1) 0 (remaining - left) B)
      else w
  end.

Definition stepAnimation (st : EngineState) (dt : R) : EngineState :=
  if negb (active (anim st)) then st
  else
    match rotate (anim st) with
    | Some r =>
        let elapsed := rot_elapsed r + dt in
        let u := clamp (elapsed / rot_duration r) 0 1 in
        let done := 1 <=? u in
        let anim' :=
          if done then idleAnim (speed (anim st))
          else set_rotate (anim st)
                 (mkRotate (rot_from r) (rot_to r) elapsed (rot_duration r)) in
        match space st with
        | SpaceE =>
            let theta := rot_from r + (rot_to r - rot_from r) * u in
            set_anim (set_e_theta st theta) anim'
        | SpaceH =>
            let theta := rot_from r + (rot_to r - rot_from r) * u in
            set_anim (set_h_theta st theta) anim'
        | SpaceS =>
            let dAng := (rot_to r * dt) / rot_duration r in
            let t2 := sphereTurn (s_p st) (s_t st) dAng in
            set_anim (set_s_t st t2) anim'
        end
    | None =>
        let path := path (anim st) in
        if (List.length path <? 2)%nat then
          set_anim st (set_active (anim st) false)
        else
          let w := walkPath (List.length path) path
                     (mkWalk (anim_i (anim st)) (anim_t (anim st))
                             (speed (anim st) * dt) (frogWorldPos st)) in
          let currentPos := walk_pos w in
          let nextState :=
            match space st with
            | SpaceE => set_e_pos st currentPos
            | SpaceH => set_h_pos st currentPos
            | SpaceS =>
                let r2 := vx currentPos * vx currentPos
                          + vy currentPos * vy currentPos in
                let z := sqrt (JsMath.max 0 (1 - r2)) in
                set_s_p st (norm3 (mkVec3 (vx currentPos) (vy currentPos) z))
            end in
          let nextState :=
            if addToTrace (anim st) then
              match inProgress nextState with
              | Some poly =>
                  let appended :=
                    set_inProgress nextState
                      (Some (mkPolyline (pts poly ++ [currentPos])
                                        (color poly) (width poly))) in
                  match lastOf (pts poly) with
                  | None => appended
                  | Some last =>
                      if 0.002 <? hypot2 (sub2 currentPos last)
                      then appended else nextState
                  end
              | None => nextState
              end
            else nextState in
          let done := (List.length path - 1 <=? walk_i w)%nat in
          set_anim nextState
            (if done then idleAnim (speed (anim st))
             else set_i_t (anim st) (walk_i w) (walk_t w))
    end.

(** *** Tracing sessions and path scheduling *)

Definition startTracing (st : EngineState) (c : string) (w : R) : EngineState :=
  set_inProgress st (Some (mkPolyline [frogWorldPos st] c w)).

Definition finishTracing (st : EngineState) : EngineState :=
  match inProgress st with
  | None => st
  | Some poly =>
      if (List.length (pts poly) <? 2)%nat then set_inProgress st None
      else set_inProgress (set_shapes st (shapes st ++ [ShapePolyline poly]))
                          None
  end.

Definition animatePath (st : EngineState) (path : list Vec2) (speed : R)
                       (addToTrace : bool) : EngineState :=
  set_anim st (mkAnim true path 0 0 speed addToTrace None).

(** *** Angle measurement *)

Definition angleAt (sp : SpaceId) (A B C : Vec2) : R :=
  match sp with
  | SpaceE =>
      let u := norm2 (sub2 A B) in
      let v := norm2 (sub2 C B) in
      let d := clamp (dot2 u v) (-1) 1 in
      acos d
  | SpaceH =>
      let ptsBA := hyperbolicGeodesicPoints B A 30 in
      let ptsBC := hyperbolicGeodesicPoints B C 30 in
      let d1 := norm2 (sub2 (nth 1 ptsBA (mkVec2 0 0))
                            (nth 0 ptsBA (mkVec2 0 0))) in
      let d2 := norm2 (sub2 (nth 1 ptsBC (mkVec2 0 0))
                            (nth 0 ptsBC (mkVec2 0 0))) in
      let d := clamp (dot2 d1 d2) (-1) 1 in
      acos d
  | SpaceS =>
      let lift := fun p : Vec2 =>
        let r2 := vx p * vx p + vy p * vy p in
        let z := sqrt (JsMath.max 0 (1 - r2)) in
        norm3 (mkVec3 (vx p) (vy p) z) in
      let a3 := lift A in
      let b3 := lift B in
      let c3 := lift C in
      let n1 := cross3 b3 a3 in
      let n2 := cross3 b3 c3 in
      let t1 := cross3 n1 b3 in
      let t2 := cross3 n2 b3 in
      let d := clamp (dot3 (norm3 t1) (norm3 t2)) (-1) 1 in
      acos d
  end.

Definition pushLog (st : EngineState) (entry : LogEntry) : EngineState :=
  set_log st (log st ++ [entry]).

(** *** Exact geodesics and lines: the hyperbolic disk *)

Record Circle : Type := mkCircle {
  circ_c : Vec2;
  circ_r : R;
  circ_aP : R;
  circ_aQ : R
}.

Definition normalizeAngle (a : R) : R :=
  let a := while_le_add (angle_fuel a) (- PI) a in
  while_gt_sub (angle_fuel a) PI a.

Definition clampNum (v a b : R) : R := JsMath.max a (JsMath.min b v).

Definition poincareCircleThroughPQ (p q : Vec2) : option Circle :=
  let eps := 1e-10 in
  let cross := vx p * vy q - vy p * vx q in
  if JsMath.abs cross <? 1e-7 then None
  else
    let pp := vx p * vx p + vy p * vy p in
    let qq := vx q * vx q + vy q * vy q in
    let b1 := (pp + 1) / 2 in
    let b2 := (qq + 1) / 2 in
    let det := vx p * vy q - vy p * vx q in
    if JsMath.abs det <? eps then None
    else
      let cx := (b1 * vy q - vy p * b2) / det in
      let cy := (vx p * b2 - b1 * vx q) / det in
      let r2 := cx * cx + cy * cy - 1 in
      if r2 <=? 1e-10 then None
      else
        let r := sqrt r2 in
        let aP := JsMath.atan2 (vy p - cy) (vx p - cx) in
        let aQ := JsMath.atan2 (vy q - cy) (vx q - cx) in
        Some (mkCircle (mkVec2 cx cy) r aP aQ).

Definition circleCircleIntersections (c1 : Vec2) (r1 : R) (c2 : Vec2) (r2 : R)
  : list Vec2 :=
  let dx := vx c2 - vx c1 in
  let dy := vy c2 - vy c1 in
  let d := JsMath.hypot dx dy in
  let eps := 1e-10 in
  if d <? eps then []
  else if r1 + r2 + 1e-9 <? d then []
  else if d <? JsMath.abs (r1 - r2) - 1e-9 then []
  else
    let a := (r1 * r1 - r2 * r2 + d * d) / (2 * d) in
    let h2 := r1 * r1 - a * a in
    if h2 <? - 1e-9 then []
    else
      let h := sqrt (JsMath.max 0 h2) in
      let xm := vx c1 + (a * dx) / d in
      let ym := vy c1 + (a * dy) / d in
      let rx := - dy * (h / d) in
      let ry := dx * (h / d) in
      let p1 := mkVec2 (xm + rx) (ym + ry) in
      let p2 := mkVec2 (xm - rx) (ym - ry) in
      if JsMath.hypot (vx p1 - vx p2) (vy p1 - vy p2) <? 1e-9 then [p1]
      else [p1; p2].

Definition arcContains (a from delta : R) : bool :=
  let x := normalizeAngle (a - from) in
  let L := normalizeAngle delta in
  if 0 <=? L then (0 <=? x) && (x <=? L + 1e-9)
  else (x <=? 0) && (L - 1e-9 <=? x).

Definition sampleArcThroughAngles (c : Vec2) (r aStart aEnd mustContain : R)
                                  (steps : nat) : list Vec2 :=
  let d := normalizeAngle (aEnd - aStart) in
  let dAlt := d - JsMath.sign (JsMath.orElse d 1) * 2 * PI in
  let useDelta := if arcContains mustContain aStart d then d else dAlt in
  for_upto steps (fun i =>
    let t := INR i / INR steps in
    let ang := aStart + useDelta * t in
    mkVec2 (vx c + r * cos ang) (vy c + r * sin ang)).

Definition geodesicPoincareSegment (p q : Vec2) (steps : nat) : list Vec2 :=
  let cross := vx p * vy q - vy p * vx q in
  if JsMath.abs cross <? 1e-7 then [p; q]
  else
    match poincareCircleThroughPQ p q with
    | None => [p; q]
    | Some circ =>
        let pts := sampleArcThroughAngles (circ_c circ) (circ_r circ)
                     (circ_aP circ) (circ_aQ circ) (circ_aP circ) steps in
        let pts := set_nth 0 p pts in
        set_nth (List.length pts - 1) q pts
    end.

Definition origin2 : Vec2 := mkVec2 0 0.

Definition geodesicPoincareFullLine (p q : Vec2) (steps : nat) : list Vec2 :=
  let cross := vx p * vy q - vy p * vx q in
  if JsMath.abs cross <? 1e-7 then
    let d := if 1e-8 <? JsMath.hypot (vx p) (vy p) then p else q in
    let L := JsMath.orElse (JsMath.hypot (vx d) (vy d)) 1 in
    let ux := vx d / L in
    let uy := vy d / L in
    [mkVec2 (- ux) (- uy); mkVec2 ux uy]
  else
    match poincareCircleThroughPQ p q with
    | None => [p; q]
    | Some circ =>
        let inter :=
          circleCircleIntersections (circ_c circ) (circ_r circ) origin2 1 in
        if (List.length inter <? 2)%nat then [p; q]
        else
          let i0 := nth 0 inter origin2 in
          let i1 := nth 1 inter origin2 in
          let c := circ_c circ in
          let a1 := JsMath.atan2 (vy i0 - vy c) (vx i0 - vx c) in
          let a2 := JsMath.atan2 (vy i1 - vy c) (vx i1 - vx c) in
          let aP := circ_aP circ in
          let pts := sampleArcThroughAngles c (circ_r circ) a1 a2 aP steps in
          let inside :=
            filter (fun s => vx s * vx s + vy s * vy s <=? 1 + 1e-6) pts in
          if (2 <=? List.length inside)%nat then inside else pts
    end.

(** [whichEnd] is [0] or [1]; [true] stands for [0]. *)
Definition hyperbolicParallelThroughPoint (baseP baseQ through : Vec2)
    (whichEnd0 : bool) (steps : nat) : list Vec2 :=
  let base := geodesicPoincareFullLine baseP baseQ 520 in
  if (List.length base <? 2)%nat then []
  else
    let A := nth 0 base origin2 in
    let B := nth (List.length base - 1) base origin2 in
    let E := if whichEnd0 then A else B in
    let ex := vx E in let ey := vy E in
    let px := vx through in let py := vy through in
    let rhs1 := 1 in
    let rhs2 := (px * px + py * py + 1) / 2 in
    let det := ex * py - ey * px in
    if JsMath.abs det <? 1e-10 then
      let L := JsMath.orElse (JsMath.hypot px py) 1 in
      [mkVec2 (- px / L) (- py / L); mkVec2 (px / L) (py / L)]
    else
      let cx := (rhs1 * py - ey * rhs2) / det in
      let cy := (ex * rhs2 - rhs1 * px) / det in
      let r2 := cx * cx + cy * cy - 1 in
      if r2 <=? 1e-10 then []
      else
        let r := sqrt r2 in
        let inter := circleCircleIntersections (mkVec2 cx cy) r origin2 1 in
        if (List.length inter <? 2)%nat then []
        else
          let i0 := nth 0 inter origin2 in
          let i1 := nth 1 inter origin2 in
          let aE := JsMath.atan2 (vy E - cy) (vx E - cx) in
          let d0 := (vx i0 - vx E) * (vx i0 - vx E)
                    + (vy i0 - vy E) * (vy i0 - vy E) in
          let other := if 1e-6 <? d0 then i0 else i1 in
          let aO := JsMath.atan2 (vy other - cy) (vx other - cx) in
          let aP := JsMath.atan2 (vy through - cy) (vx through - cx) in
          sampleArcThroughAngles (mkVec2 cx cy) r aE aO aP steps.

Definition poincareCircleFromPointDir (P u : Vec2) : option (Vec2 * R) :=
  let n := mkVec2 (- vy u) (vx u) in
  let pn := vx P * vx n + vy P * vy n in
  if JsMath.abs pn <? 1e-10 then None
  else
    let t := (1 - (vx P * vx P + vy P * vy P)) / (2 * pn) in
    let c := mkVec2 (vx P + t * vx n) (vy P + t * vy n) in
    let r := JsMath.abs t in
    if vx c * vx c + vy c * vy c <=? 1 + 1e-9 then None
    else Some (c, r).

(** [err < bestErr], where [bestErr] starts at [Infinity]. *)
Definition lessThan (err : R) (best : JsNumber) : bool :=
  match best with
  | Infinity => true
  | Num b => err <? b
  end.

(** One candidate direction [th] of the orthogonality search. *)
Definition tryTheta (baseC : Vec2) (baseR : R) (P : Vec2)
                    (best : R * JsNumber) (th : R) : R * JsNumber :=
  let u := mkVec2 (cos th) (sin th) in
  match poincareCircleFromPointDir P u with
  | None => best
  | Some (c, r) =>
      let dcx := vx c - vx baseC in
      let dcy := vy c - vy baseC in
      let err := JsMath.abs (dcx * dcx + dcy * dcy - (r * r + baseR * baseR)) in
      if lessThan err (snd best) then (th, Num err) else best
  end.

(** The common tail of the two perpendicular builders: the arc of the
    circle [(c, r)] between its two boundary points that contains [P];
    empty when the circle does not cut the unit circle twice. *)
Definition arcThroughBoundary (c : Vec2) (r : R) (P : Vec2) (steps : nat)
  : list Vec2 :=
  let inter := circleCircleIntersections c r origin2 1 in
  if (List.length inter <? 2)%nat then []
  else
    let i0 := nth 0 inter origin2 in
    let i1 := nth 1 inter origin2 in
    let a1 := JsMath.atan2 (vy i0 - vy c) (vx i0 - vx c) in
    let a2 := JsMath.atan2 (vy i1 - vy c) (vx i1 - vx c) in
    let aP := JsMath.atan2 (vy P - vy c) (vx P - vx c) in
    sampleArcThroughAngles c r a1 a2 aP steps.

Definition hyperbolicPerpUsingOrthogonality (baseC : Vec2) (baseR : R)
    (P : Vec2) (steps : nat) : list Vec2 :=
  let N := 240%nat in
  let coarse :=
    fold_left (fun best i =>
                 tryTheta baseC baseR P best ((2 * PI * INR i) / INR N))
              (seq 0 N) (0, Infinity) in
  let refined :=
    fold_left (fun best k =>
                 let step := (PI / 180) * (10 / (INR k + 1)) in
                 fold_left (fun best s =>
                              tryTheta baseC baseR P best (fst best + s * step))
                           [-2; -1; 1; 2] best)
              (seq 0 6) coarse in
  let bestTheta := fst refined in
  let uBest := mkVec2 (cos bestTheta) (sin bestTheta) in
  match poincareCircleFromPointDir P uBest with
  | None => []
  | Some (c, r) => arcThroughBoundary c r P steps
  end.

Definition hyperbolicPerpNumeric (baseP baseQ P : Vec2) (steps : nat)
  : list Vec2 :=
  let base := geodesicPoincareFullLine baseP baseQ 520 in
  if (List.length base <? 2)%nat then []
  else
    let u := mkVec2 (- vy P) (vx P) in
    match poincareCircleFromPointDir P u with
    | None => []
    | Some (c, r) => arcThroughBoundary c r P steps
    end.

(** The source first tests for a diameter base and computes its
    direction, but that block has no effect; both cases continue here. *)
Definition hyperbolicPerpendicularThroughPoint (baseP baseQ through : Vec2)
    (steps : nat) : list Vec2 :=
  match poincareCircleThroughPQ baseP baseQ with
  | None => hyperbolicPerpNumeric baseP baseQ through steps
  | Some baseCirc =>
      hyperbolicPerpUsingOrthogonality (circ_c baseCirc) (circ_r baseCirc)
                                       through steps
  end.

(** *** Exact geodesics and lines: the sphere, upper hemisphere
    projected to the disk *)

Definition v3dot (a b : Vec3) : R := wx a * wx b + wy a * wy b + wz a * wz b.
Definition v3cross (a b : Vec3) : Vec3 :=
  mkVec3 (wy a * wz b - wz a * wy b)
         (wz a * wx b - wx a * wz b)
         (wx a * wy b - wy a * wx b).
Definition v3norm (a : Vec3) : R := JsMath.hypot3 (wx a) (wy a) (wz a).
Definition v3scale (a : Vec3) (k : R) : Vec3 :=
  mkVec3 (wx a * k) (wy a * k) (wz a * k).
Definition v3add (a b : Vec3) : Vec3 :=
  mkVec3 (wx a + wx b) (wy a + wy b) (wz a + wz b).
Definition v3unit (a : Vec3) : Vec3 :=
  let L := JsMath.orElse (v3norm a) 1 in
  mkVec3 (wx a / L) (wy a / L) (wz a / L).

Definition liftToUpperHemisphere (p : Vec2) : Vec3 :=
  let r2 := vx p * vx p + vy p * vy p in
  let z := sqrt (JsMath.max 0 (1 - r2)) in
  v3unit (mkVec3 (vx p) (vy p) z).

(** The point of the unit circle of the plane spanned by [u] and [v]
    at parameter [t], renormalised. *)
Definition circlePoint (u v : Vec3) (t : R) : Vec3 :=
  v3unit (mkVec3 (wx u * cos t + wx v * sin t)
                 (wy u * cos t + wy v * sin t)
                 (wz u * cos t + wz v * sin t)).

Definition geodesicSphereProjectedSegment (p q : Vec2) (steps : nat)
  : list Vec2 :=
  let a := liftToUpperHemisphere p in
  let b := liftToUpperHemisphere q in
  let dot := clampNum (v3dot a b) (-1) 1 in
  let omega := acos dot in
  if omega <? 1e-8 then [p; q]
  else
    let sinOm := sin omega in
    let all := for_upto steps (fun i =>
      let t := INR i / INR steps in
      let s1 := sin ((1 - t) * omega) / sinOm in
      let s2 := sin (t * omega) / sinOm in
      let x := s1 * wx a + s2 * wx b in
      let y := s1 * wy a + s2 * wy b in
      let z := s1 * wz a + s2 * wz b in
      v3unit (mkVec3 x y z)) in
    let pts := map (fun u => mkVec2 (wx u) (wy u))
                   (filter (fun u => - 1e-10 <=? wz u) all) in
    let pts := match pts with
               | [] => pts
               | _ => set_nth (List.length pts - 1) q (set_nth 0 p pts)
               end in
    if (2 <=? List.length pts)%nat then pts else [p; q].

(** The orthonormal basis [(u, v)] of the plane of normal [nn], with
    [u] along the projection of [a] on that plane. *)
Definition planeBasis (nn a : Vec3) : Vec3 * Vec3 :=
  let proj := v3scale nn (v3dot a nn) in
  let u := v3unit (v3add a (v3scale proj (-1))) in
  let v := v3unit (v3cross nn u) in
  (u, v).

Definition greatCircleProjectedClosed (p q : Vec2) (steps : nat) : list Vec2 :=
  let a := liftToUpperHemisphere p in
  let b := liftToUpperHemisphere q in
  let n := v3cross a b in
  let nL := v3norm n in
  if nL <? 1e-10 then geodesicSphereProjectedSegment p q steps
  else
    let nn := v3unit n in
    let '(u, v) := planeBasis nn a in
    for_upto steps (fun i =>
      let t := (2 * PI * INR i) / INR steps in
      let X := circlePoint u v t in
      mkVec2 (wx X) (wy X)).

Definition greatCircleFullProjected (p q : Vec2) (steps : nat) : list Vec2 :=
  let a := liftToUpperHemisphere p in
  let b := liftToUpperHemisphere q in
  let n := v3cross a b in
  let nL := v3norm n in
  if nL <? 1e-10 then geodesicSphereProjectedSegment p q steps
  else
    let nn := v3unit n in
    let '(u, v) := planeBasis nn a in
    let Az := JsMath.hypot (wz u) (wz v) in
    let '(t0, t1) :=
      if 1e-12 <? Az then
        let phi := JsMath.atan2 (wz v) (wz u) in
        (phi - PI / 2, phi + PI / 2)
      else (0, 2 * PI) in
    let all := for_upto steps (fun i =>
      let t := t0 + ((t1 - t0) * INR i) / INR steps in
      circlePoint u v t) in
    let pts := map (fun X => mkVec2 (wx X) (wy X))
                   (filter (fun X => - 1e-10 <=? wz X) all) in
    if (2 <=? List.length pts)%nat then pts
    else geodesicSphereProjectedSegment p q steps.

Definition greatCircleFromNormalAndPoint (n : Vec3) (through : Vec2)
                                         (steps : nat) : list Vec2 :=
  let P := liftToUpperHemisphere through in
  let '(u, v) := planeBasis n P in
  let all := for_upto steps (fun i =>
    let t := (2 * PI * INR i) / INR steps in
    circlePoint u v t) in
  map (fun X => mkVec2 (wx X) (wy X))
      (filter (fun X => - 1e-10 <=? wz X) all).

Definition sphericalPerpendicularGreatCircleThroughPoint
    (baseP baseQ through : Vec2) (steps : nat) : list Vec2 :=
  let a := liftToUpperHemisphere baseP in
  let b := liftToUpperHemisphere baseQ in
  let nBase := v3unit (v3cross a b) in
  let P := liftToUpperHemisphere through in
  let nPerp := v3cross P nBase in
  if v3norm nPerp <? 1e-10 then
    let alt := v3cross P (mkVec3 1 0 0) in
    if v3norm alt <? 1e-10 then []
    else greatCircleFromNormalAndPoint (v3unit alt) through steps
  else greatCircleFromNormalAndPoint (v3unit nPerp) through steps.

(** *** The two entry points *)

Definition geodesicBetween (sp : SpaceId) (p q : Vec2) (steps : nat)
  : list Vec2 :=
  match sp with
  | SpaceE => [p; q]
  | SpaceH => geodesicPoincareSegment p q steps
  | SpaceS => geodesicSphereProjectedSegment p q steps
  end.

Definition geodesicLineThrough (sp : SpaceId) (p q : Vec2) (steps : nat)
  : list Vec2 :=
  match sp with
  | SpaceE =>
      let dx := vx q - vx p in
      let dy := vy q - vy p in
      let L := JsMath.orElse (JsMath.hypot dx dy) 1 in
      let ux := dx / L in
      let uy := dy / L in
      let big := 5 in
      [mkVec2 (vx p - ux * big) (vy p - uy * big);
       mkVec2 (vx p + ux * big) (vy p + uy * big)]
  | SpaceH => geodesicPoincareFullLine p q steps
  | SpaceS => greatCircleProjectedClosed p q steps
  end.

End SpaceEngine.

(** ** The main component, [App]: exact measures and line operations *)

Module App.

Import SpaceEngine.

Definition clamp (v a b : R) : R := JsMath.max a (JsMath.min b v).
Definition dist2 (a b : Vec2) : R :=
  let dx := vx a - vx b in
  let dy := vy a - vy b in
  dx * dx + dy * dy.
Definition euclidLen (a b : Vec2) : R :=
  JsMath.hypot (vx b - vx a) (vy b - vy a).

Definition liftSphereUpper (p : Vec2) : Vec3 :=
  let r2 := vx p * vx p + vy p * vy p in
  let z := sqrt (JsMath.max 0 (1 - r2)) in
  mkVec3 (vx p) (vy p) z.
Definition dot3 (a b : Vec3) : R := wx a * wx b + wy a * wy b + wz a * wz b.
Definition norm3 (a : Vec3) : R := JsMath.hypot3 (wx a) (wy a) (wz a).

Definition distanceExact (sp : SpaceId) (A B : Vec2) : JsNumber :=
  match sp with
  | SpaceE => Num (euclidLen A B)
  | SpaceH =>
      let a2 := vx A * vx A + vy A * vy A in
      let b2 := vx B * vx B + vy B * vy B in
      let dx := vx A - vx B in
      let dy := vy A - vy B in
      let d2 := dx * dx + dy * dy in
      let denom := (1 - a2) * (1 - b2) in
      if denom <=? 0 then Infinity
      else
        let arg := 1 + (2 * d2) / denom in
        Num (JsMath.acosh (JsMath.max 1 arg))
  | SpaceS =>
      let a := liftSphereUpper A in
      let b := liftSphereUpper B in
      let da := JsMath.orElse (norm3 a) 1 in
      let db := JsMath.orElse (norm3 b) 1 in
      let cos := clamp (dot3 a b / (da * db)) (-1) 1 in
      Num (acos cos)
  end.

Definition angleHand (sp : SpaceId) (A B C : Vec2) : R :=
  match sp with
  | SpaceS =>
      let b3 := liftSphereUpper B in
      let a3 := liftSphereUpper A in
      let c3 := liftSphereUpper C in
      let projTangent := fun p3 : Vec3 =>
        let k := dot3 p3 b3 / JsMath.orElse (dot3 b3 b3) 1 in
        let t := mkVec3 (wx p3 - k * wx b3) (wy p3 - k * wy b3)
                        (wz p3 - k * wz b3) in
        let n := JsMath.orElse (norm3 t) 1 in
        mkVec3 (wx t / n) (wy t / n) (wz t / n) in
      let u := projTangent a3 in
      let v := projTangent c3 in
      let cos := clamp (dot3 u v) (-1) 1 in
      acos cos
  | _ =>
      let u := mkVec2 (vx A - vx B) (vy A - vy B) in
      let v := mkVec2 (vx C - vx B) (vy C - vy B) in
      let nu := JsMath.orElse (JsMath.hypot (vx u) (vy u)) 1 in
      let nv := JsMath.orElse (JsMath.hypot (vx v) (vy v)) 1 in
      let cos := clamp ((vx u * vx v + vy u * vy v) / (nu * nv)) (-1) 1 in
      acos cos
  end.

(** *** View mapping and picking helpers *)

Record Viewport : Type := mkViewport {
  vp_R : R;
  vp_cx : R;
  vp_cy : R;
  vp_scale : R
}.

Definition makeViewport (w h Rv : R) : Viewport :=
  let s := JsMath.min w h / (2 * Rv) in
  mkViewport Rv (w / 2) (h / 2) s.

Definition worldToScreen (vp : Viewport) (p : Vec2) : Vec2 :=
  mkVec2 (vp_cx vp + vx p * vp_scale vp) (vp_cy vp - vy p * vp_scale vp).

Definition screenToWorld (vp : Viewport) (p : Vec2) : Vec2 :=
  mkVec2 ((vx p - vp_cx vp) / vp_scale vp) ((vp_cy vp - vy p) / vp_scale vp).

Definition distPointToSegment (p a b : Vec2) : R :=
  let abx := vx b - vx a in
  let aby := vy b - vy a in
  let apx := vx p - vx a in
  let apy := vy p - vy a in
  let ab2 := abx * abx + aby * aby in
  if ab2 =? 0 then JsMath.hypot (vx p - vx a) (vy p - vy a)
  else
    let t := (apx * abx + apy * aby) / ab2 in
    let t := clamp t 0 1 in
    let q := mkVec2 (vx a + t * abx) (vy a + t * aby) in
    JsMath.hypot (vx p - vx q) (vy p - vy q).

(** [isValidWorldPoint] of the component, for the active space. *)
Definition isValidWorldPoint (sp : SpaceId) (w : Vec2) : bool :=
  match sp with
  | SpaceH => vx w * vx w + vy w * vy w <? 1
  | SpaceS => vx w * vx w + vy w * vy w <=? 1
  | SpaceE => true
  end.

(** *** Two-step line operations (parallel, perpendicular) *)

Inductive LineOpMode : Type :=
| OpNone | OpParallel0 | OpParallel1 | OpPerpendicular.

Record LineObject : Type := mkLine {
  line_id : string;
  line_pts : list Vec2;
  baseP : Vec2;
  baseQ : Vec2;
  line_space : SpaceId
}.

Record MagicLine : Type := mkMagic {
  magic_active : bool;
  magic_pts : list Vec2;
  magic_t : R;
  finalLine : option LineObject
}.

(** The part of the component's state that the operation reads or
    writes: the message panel, the pending operation, the line being
    revealed, the stored lines, the interval timer of the operation and
    the engine state. *)
Record Ui : Type := mkUi {
  measurePanelText : string;
  lineOpMode : LineOpMode;
  magicLine : option MagicLine;
  lines : list LineObject;
  timerRunning : bool;
  engine : EngineState
}.

Definition newline : string := String (Ascii.ascii_of_nat 10) EmptyString.

Definition msgImpossible : string :=
  ("OPÉRATION IMPOSSIBLE À L'ENDROIT INDIQUÉ" ++ newline)%string.
Definition msgDone : string :=
  ("OPÉRATION TERMINÉE : droite créée." ++ newline)%string.

Definition isPerpendicular (m : LineOpMode) : bool :=
  match m with OpPerpendicular => true | _ => false end.
Definition isParallel0 (m : LineOpMode) : bool :=
  match m with OpParallel0 => true | _ => false end.

(** The polyline built by the operation; [None] is the early [return]
    of the spherical branch, taken before any polyline exists. *)
Definition lineOpPoints (sp : SpaceId) (mode : LineOpMode)
                        (base : LineObject) (w : Vec2)
  : option (list Vec2) :=
  match sp with
  | SpaceE =>
      let d := mkVec2 (vx (baseQ base) - vx (baseP base))
                      (vy (baseQ base) - vy (baseP base)) in
      let L := JsMath.orElse (JsMath.hypot (vx d) (vy d)) 1 in
      let u := mkVec2 (vx d / L) (vy d / L) in
      let big := 5 in
      if isPerpendicular mode then
        let perp := mkVec2 (- vy u) (vx u) in
        Some [mkVec2 (vx w - vx perp * big) (vy w - vy perp * big);
              mkVec2 (vx w + vx perp * big) (vy w + vy perp * big)]
      else
        Some [mkVec2 (vx w - vx u * big) (vy w - vy u * big);
              mkVec2 (vx w + vx u * big) (vy w + vy u * big)]
  | SpaceH =>
      if isPerpendicular mode then
        Some (hyperbolicPerpendicularThroughPoint (baseP base) (baseQ base)
                                                   w 560)
      else
        Some (hyperbolicParallelThroughPoint (baseP base) (baseQ base) w
                                             (isParallel0 mode) 560)
  | SpaceS =>
      if isPerpendicular mode then
        Some (sphericalPerpendicularGreatCircleThroughPoint
                (baseP base) (baseQ base) w 560)
      else None
  end.

Definition reject (ui : Ui) : Ui :=
  mkUi msgImpossible OpNone (magicLine ui) (lines ui) false (engine ui).

(** One firing of the interval timer started by the click of step 2.
    [sp], [mode], [base] and [w] are the values captured when the point
    was clicked; [stamp] is the text of [Date.now()]. *)
Definition lineOpTick (sp : SpaceId) (mode : LineOpMode) (base : LineObject)
                      (w : Vec2) (stamp : string) (ui : Ui) : Ui :=
  if active (anim (engine ui)) then ui
  else
    match lineOpPoints sp mode base w with
    | None => reject ui
    | Some pts =>
        if (List.length pts <? 2)%nat then reject ui
        else
          let id := ("Op_" ++ stamp)%string in
          let line := mkLine id pts (nth 0 pts origin2)
                             (nth (List.length pts - 1) pts origin2) sp in
          mkUi msgDone OpNone (Some (mkMagic true pts 0 (Some line)))
               (lines ui) false (engine ui)
    end.

(** The part of the frame loop that reveals the pending line and stores
    it when the reveal is over. *)
Definition revealTick (dt : R) (ui : Ui) : Ui :=
  match magicLine ui with
  | Some ml =>
      if magic_active ml then
        let t := clamp (magic_t ml + dt / 0.45) 0 1 in
        if 1 <=? t then
          mkUi (measurePanelText ui) (lineOpMode ui)
               (Some (mkMagic false (magic_pts ml) t (finalLine ml)))
               (match finalLine ml with
                | Some l => lines ui ++ [l]
                | None => lines ui
                end)
               (timerRunning ui) (engine ui)
        else
          mkUi (measurePanelText ui) (lineOpMode ui)
               (Some (mkMagic true (magic_pts ml) t (finalLine ml)))
               (lines ui) (timerRunning ui) (engine ui)
      else ui
  | None => ui
  end.

(** The functions that [spaceEngine.ts] exports. *)
Definition kernelExports : list string :=
  ["spaceFormula"; "createInitialState"; "reset"; "clearShapes";
   "frogWorldPos"; "frogHeadingWorldDir"; "hyperbolicGeodesicPoints";
   "buildAdvancePath"; "buildTurnAnim"; "buildGeodesicTrace";
   "buildCircleTrace"; "stepAnimation"; "startTracing"; "finishTracing";
   "animatePath"; "angleAt"; "pushLog"; "geodesicBetween";
   "geodesicLineThrough"; "hyperbolicParallelThroughPoint";
   "hyperbolicPerpendicularThroughPoint";
   "sphericalPerpendicularGreatCircleThroughPoint"]%string.

Fixpoint hasSubstring (sub s : string) : bool :=
  if String.prefix sub s then true
  else match s with
       | EmptyString => false
       | String _ tl => hasSubstring sub tl
       end.

End App.

(** ** The hyperbolic advance on numbers with exceptional values

    The hyperbolic branch of [buildAdvancePath] and the helpers it
    calls, on numbers that can be infinite or [NaN].  Finite values
    are real numbers and their arithmetic is exact, as in the rest of
    the development; what this module adds is the propagation of the
    exceptional values by the rules of IEEE 754 and the overflow of
    [Math.exp], whose result is [Infinity] for an argument above
    [expMax].  The sign of a zero is not tracked: a zero divisor counts
    as [+0]. *)

Module Doubles.

Inductive Double : Type :=
| Fin (r : R)
| PInf
| NInf
| NaN.

Definition signed (positive : bool) : Double :=
  if positive then PInf else NInf.

Definition neg (a : Double) : Double :=
  match a with
  | Fin x => Fin (- x)
  | PInf => NInf
  | NInf => PInf
  | NaN => NaN
  end.

Definition add (a b : Double) : Double :=
  match a, b with
  | NaN, _ | _, NaN => NaN
  | Fin x, Fin y => Fin (x + y)
  | PInf, NInf | NInf, PInf => NaN
  | PInf, _ | _, PInf => PInf
  | NInf, _ | _, NInf => NInf
  end.

Definition sub (a b : Double) : Double := add a (neg b).

Definition mul (a b : Double) : Double :=
  match a, b with
  | NaN, _ | _, NaN => NaN
  | Fin x, Fin y => Fin (x * y)
  | Fin x, PInf | PInf, Fin x => if x =? 0 then NaN else signed (0 <? x)
  | Fin x, NInf | NInf, Fin x => if x =? 0 then NaN else signed (x <? 0)
  | PInf, PInf | NInf, NInf => PInf
  | PInf, NInf | NInf, PInf => NInf
  end.

Definition div (a b : Double) : Double :=
  match a, b with
  | NaN, _ | _, NaN => NaN
  | Fin x, Fin y =>
      if y =? 0 then (if x =? 0 then NaN else signed (0 <? x))
      else Fin (x / y)
  | Fin _, PInf | Fin _, NInf => Fin 0
  | PInf, Fin y => signed (0 <=? y)
  | NInf, Fin y => signed (y <? 0)
  | PInf, PInf | PInf, NInf | NInf, PInf | NInf, NInf => NaN
  end.

(** [a >= b] and [a > b]: false as soon as one side is [NaN]. *)
Definition geb (a b : Double) : bool :=
  match a, b with
  | NaN, _ | _, NaN => false
  | Fin x, Fin y => y <=? x
  | PInf, _ | _, NInf => true
  | Fin _, PInf | NInf, Fin _ | NInf, PInf => false
  end.

Definition gtb (a b : Double) : bool :=
  match a, b with
  | NaN, _ | _, NaN => false
  | Fin x, Fin y => y <? x
  | PInf, PInf | NInf, _ | Fin _, PInf => false
  | PInf, _ | Fin _, NInf => true
  end.

Definition ltb (a b : Double) : bool := gtb b a.

(** The largest argument for which [Math.exp] is finite. *)
Definition expMax : R := 709.782712893384.

Definition exp (a : Double) : Double :=
  match a with
  | Fin x => if expMax <? x then PInf else Fin (Rtrigo_def.exp x)
  | PInf => PInf
  | NInf => Fin 0
  | NaN => NaN
  end.

Definition cos (a : Double) : Double :=
  match a with
  | Fin x => Fin (Rtrigo_def.cos x)
  | _ => NaN
  end.

Definition sin (a : Double) : Double :=
  match a with
  | Fin x => Fin (Rtrigo_def.sin x)
  | _ => NaN
  end.

(** [Math.hypot]: infinite as soon as one argument is, even next to a
    [NaN]. *)
Definition hypot (a b : Double) : Double :=
  match a, b with
  | PInf, _ | NInf, _ | _, PInf | _, NInf => PInf
  | NaN, _ | _, NaN => NaN
  | Fin x, Fin y => Fin (JsMath.hypot x y)
  end.

Record DVec2 : Type := mkDVec2 { dx : Double; dy : Double }.

Definition hypot2 (v : DVec2) : Double := hypot (dx v) (dy v).
Definition add2 (a b : DVec2) : DVec2 :=
  mkDVec2 (add (dx a) (dx b)) (add (dy a) (dy b)).
Definition sub2 (a b : DVec2) : DVec2 :=
  mkDVec2 (sub (dx a) (dx b)) (sub (dy a) (dy b)).
Definition mul2 (a : DVec2) (k : Double) : DVec2 :=
  mkDVec2 (mul (dx a) k) (mul (dy a) k).
Definition dot2 (a b : DVec2) : Double :=
  add (mul (dx a) (dx b)) (mul (dy a) (dy b)).
Definition norm2 (a : DVec2) : DVec2 :=
  let n := hypot2 a in
  if gtb n (Fin 0) then mul2 a (div (Fin 1) n) else mkDVec2 (Fin 1) (Fin 0).

Definition mobiusAdd (a b : DVec2) : DVec2 :=
  let a2 := dot2 a a in
  let b2 := dot2 b b in
  let ab := dot2 a b in
  let denom := add (add (Fin 1) (mul (Fin 2) ab)) (mul a2 b2) in
  mkDVec2
    (div (add (mul (add (add (Fin 1) (mul (Fin 2) ab)) b2) (dx a))
              (mul (sub (Fin 1) a2) (dx b)))
         denom)
    (div (add (mul (add (add (Fin 1) (mul (Fin 2) ab)) b2) (dy a))
              (mul (sub (Fin 1) a2) (dy b)))
         denom).

Definition tanh (v : Double) : Double :=
  let e2x := exp (mul (Fin 2) v) in
  div (sub e2x (Fin 1)) (add e2x (Fin 1)).

Definition hyperbolicDirectionAtOrigin (p dir : DVec2) : DVec2 :=
  let eps := Fin 1e-4 in
  let safeDir := norm2 dir in
  let q := add2 p (mul2 safeDir eps) in
  let q2 := dot2 q q in
  let q := if geb q2 (Fin 0.9999) then mul2 (norm2 q) (Fin 0.999) else q in
  let Tp := fun v : DVec2 => mobiusAdd (mkDVec2 (neg (dx p)) (neg (dy p))) v in
  let p0 := Tp p in
  let q0 := Tp q in
  norm2 (sub2 q0 p0).

(** The position [p2] that the hyperbolic branch of [buildAdvancePath]
    stores in the state it returns, from the position [p] and the
    heading [theta] of the current state. *)
Definition buildAdvancePath_h_pos (p : DVec2) (theta dist : Double) : DVec2 :=
  let dirLocal := mkDVec2 (cos theta) (sin theta) in
  let d0 := hyperbolicDirectionAtOrigin p dirLocal in
  let t := tanh (div dist (Fin 2)) in
  let step0 := mul2 d0 t in
  let p2 := mobiusAdd p step0 in
  let r2 := dot2 p2 p2 in
  if geb r2 (Fin 0.9999) then mul2 (norm2 p2) (Fin 0.999) else p2.

End Doubles.

(** ** Vocabulary of the statements *)

Import SpaceEngine.

(** The squared Euclidean norm of a point of the view domain. *)
Definition sqnorm (p : Vec2) : R := vx p * vx p + vy p * vy p.

(** The frames of a run: [stepAnimation] applied once per [dt]. *)
Definition stepAll (st : EngineState) (dts : list R) : EngineState :=
  fold_left stepAnimation dts st.

Definition sumR (l : list R) : R := fold_right Rplus 0 l.

(** The north pole of the sphere and the unit tangent of angle [a] there. *)
Definition northPole : Vec3 := mkVec3 0 0 1.
Definition tangentAt (a : R) : Vec3 := mkVec3 (cos a) (sin a) 0.

(** The Euclidean-direction formula of the specification: the angle
    between the unit vectors along [A - B] and [C - B]. *)
Definition unit2 (v : Vec2) : Vec2 :=
  mkVec2 (vx v / hypot2 v) (vy v / hypot2 v).

Definition euclideanDirectionAngle (A B C : Vec2) : R :=
  acos (clamp (dot2 (unit2 (sub2 A B)) (unit2 (sub2 C B))) (-1) 1).

(** For the geodesic from (0.5, 0) to (0, 0.5), an arc of the circle of
    centre (1.25, 1.25): [alpha - PI] is the angle of its first point
    around that centre and [delta] the angle between two of its 31
    samples. *)
Definition alpha : R := atan (5 / 3).
Definition delta : R := (atan (3 / 5) - atan (5 / 3)) / 30.

(** The invariant of the hyperbolic model: the stored position and the
    points of the scheduled path are strictly inside the unit disk, and
    the fraction walked on the current segment is between 0 and 1. *)
Definition diskInvariant (st : EngineState) : Prop :=
  sqnorm (h_pos st) < 1
  /\ (forall pt, In pt (path (anim st)) -> sqnorm pt < 1)
  /\ 0 <= anim_t (anim st) <= 1.

(** The sphere in the words of the specification.  The lift of a point
    [p] of the closed unit disk is the point of the upper hemisphere of
    the unit sphere whose projection on the plane is [p]. *)
Definition hemisphereLift (p : Vec2) : Vec3 :=
  mkVec3 (vx p) (vy p) (sqrt (1 - (vx p * vx p + vy p * vy p))).

Definition scalarProduct (X Y : Vec3) : R :=
  wx X * wx Y + wy X * wy Y + wz X * wz Y.

Definition vectorProduct (X Y : Vec3) : Vec3 :=
  mkVec3 (wy X * wz Y - wz X * wy Y)
         (wz X * wx Y - wx X * wz Y)
         (wx X * wy Y - wy X * wx Y).

(** The great circle through two points [A] and [B] of the unit sphere
    that are not parallel: the unit vectors of the plane through the
    centre, [A] and [B], whose normal is [A x B]. *)
Definition onGreatCircle (A B X : Vec3) : Prop :=
  scalarProduct X X = 1 /\ scalarProduct X (vectorProduct A B) = 0.

(** The point of that circle at arc length [t] from [A], counted
    towards [B]: [cos t A + sin t W], where [W = (A x B) x A / |A x B|]
    is the unit vector of the plane orthogonal to [A] on the side of
    [B]. *)
Definition greatCirclePoint (A B : Vec3) (t : R) : Vec3 :=
  let N := vectorProduct A B in
  let W := vectorProduct N A in
  let L := sqrt (scalarProduct N N) in
  mkVec3 (wx A * cos t + wx W / L * sin t)
         (wy A * cos t + wy W / L * sin t)
         (wz A * cos t + wz W / L * sin t).

Definition project (X : Vec3) : Vec2 := mkVec2 (wx X) (wy X).
Definition opp3 (X : Vec3) : Vec3 := mkVec3 (- wx X) (- wy X) (- wz X).



(** Two angles are the same direction when their cosines and sines
    agree. *)
Definition sameDirection (a b : R) : Prop := cos a = cos b /\ sin a = sin b.

(** The point of the circle of centre [c] and radius [r] at angle [a]. *)
Definition polarPoint (c : Vec2) (r a : R) : Vec2 :=
  mkVec2 (vx c + r * cos a) (vy c + r * sin a).

(** A position on the unit sphere together with a unit tangent at it. *)
Definition orthonormal (p t : Vec3) : Prop :=
  dot3 p p = 1 /\ dot3 t t = 1 /\ dot3 p t = 0.

(** The spherical position and heading are unit vectors. *)
Definition onSphere (st : EngineState) : Prop :=
  dot3 (s_p st) (s_p st) = 1 /\ dot3 (s_t st) (s_t st) = 1.

(** The target of a hyperbolic advance before the guard that keeps it
    away from the boundary. *)
Definition advanceTargetH (st : EngineState) (dist : R) : Vec2 :=
  mobiusAdd (h_pos st)
    (mul2 (hyperbolicDirectionAtOrigin (h_pos st)
             (mkVec2 (cos (h_theta st)) (sin (h_theta st))))
          (tanh (dist / 2))).

(** The advances that the exact measures can follow: in the disk the
    walker starts inside and its target is not caught by the guard; on
    the sphere the frame is orthonormal, the walker stays on the upper
    hemisphere and moves by at most half a turn. *)
Definition advanceRegular (st : EngineState) (dist : R) : Prop :=
  match space st with
  | SpaceE => True
  | SpaceH => sqnorm (h_pos st) < 1 /\ sqnorm (advanceTargetH st dist) < 0.9999
  | SpaceS =>
      orthonormal (s_p st) (s_t st)
      /\ 0 <= wz (s_p st)
      /\ 0 <= wz (fst (sphereAdvance (s_p st) (s_t st) dist))
      /\ Rabs dist <= PI
  end.

(** The advances whose built path can be compared with the positions:
    in the disk both ends are below the guard of the samples, on the
    sphere the position is a unit vector. *)
Definition advanceVisible (st : EngineState) (dist : R) : Prop :=
  match space st with
  | SpaceE => True
  | SpaceH =>
      sqnorm (h_pos st) < 0.999
      /\ sqnorm (h_pos (built_next (buildAdvancePath st dist))) < 0.999
  | SpaceS => dot3 (s_p st) (s_p st) = 1
  end.

(** A point with finite coordinates, as a point on doubles. *)
Definition finite2 (p : Vec2) : Doubles.DVec2 :=
  Doubles.mkDVec2 (Doubles.Fin (vx p)) (Doubles.Fin (vy p)).

(** The distances for which [tanh (dist / 2)] cannot be computed:
    [NaN] (an empty number field), and those whose exponential
    overflows. *)
Definition unusableDistance (dist : Doubles.Double) : Prop :=
  dist = Doubles.NaN
  \/ dist = Doubles.PInf
  \/ exists d, dist = Doubles.Fin d /\ 710 <= d.

(** The heading angle of the two plane models. *)
Definition planeHeading (st : EngineState) : R :=
  match space st with
  | SpaceE => e_theta st
  | _ => h_theta st
  end.

(** The length of the segments [i, i+1, ..., i+n-1] of a path, and the
    length of the whole path. *)
Definition segLength (path : list Vec2) (i : nat) : R :=
  hypot2 (sub2 (nth (i + 1) path (mkVec2 0 0)) (nth i path (mkVec2 0 0))).

Fixpoint restLength (path : list Vec2) (i n : nat) : R :=
  match n with
  | O => 0
  | S n' => segLength path i + restLength path (S i) n'
  end.

Definition pathLength (path : list Vec2) : R :=
  restLength path 0 (List.length path - 1).

(** The reveal part of the frame loop, run once per frame time. *)
Definition revealAll (ui : App.Ui) (dts : list R) : App.Ui :=
  fold_left (fun u dt => App.revealTick dt u) dts ui.

(** * Properties *)

(** ** Comparisons and elementary functions *)

Section Comparisons.

Implicit Types a b : R.

Lemma ltb_true a b : a < b -> (a <? b) = true.
Proof. intros Hab. unfold JsMath.ltb. destruct (Rlt_dec a b); [reflexivity | contradiction]. Qed.

Lemma ltb_false a b : ~ a < b -> (a <? b) = false.
Proof. intros Hab. unfold JsMath.ltb. destruct (Rlt_dec a b); [contradiction | reflexivity]. Qed.

Lemma leb_true a b : a <= b -> (a <=? b) = true.
Proof. intros Hab. unfold JsMath.leb. destruct (Rle_dec a b); [reflexivity | contradiction]. Qed.

Lemma leb_false a b : ~ a <= b -> (a <=? b) = false.
Proof. intros Hab. unfold JsMath.leb. destruct (Rle_dec a b); [contradiction | reflexivity]. Qed.

Lemma eqb_true a b : a = b -> (a =? b) = true.
Proof. intros Hab. unfold JsMath.eqb. destruct (Req_dec_T a b); [reflexivity | contradiction]. Qed.

Lemma eqb_false a b : a <> b -> (a =? b) = false.
Proof. intros Hab. unfold JsMath.eqb. destruct (Req_dec_T a b); [contradiction | reflexivity]. Qed.

Lemma ltb_spec a b : reflect (a < b) (a <? b).
Proof. unfold JsMath.ltb. destruct (Rlt_dec a b); constructor; assumption. Qed.

Lemma leb_spec a b : reflect (a <= b) (a <=? b).
Proof. unfold JsMath.leb. destruct (Rle_dec a b); constructor; assumption. Qed.

Lemma orElse_pos a d : 0 < a -> JsMath.orElse a d = a.
Proof. intros Ha. unfold JsMath.orElse. rewrite eqb_false; [reflexivity | lra]. Qed.

Lemma orElse_zero d : JsMath.orElse 0 d = d.
Proof. unfold JsMath.orElse. rewrite eqb_true; reflexivity. Qed.

Lemma hypot_nonneg a b : 0 <= JsMath.hypot a b.
Proof. apply sqrt_pos. Qed.

Lemma hypot_axis a : 0 <= a -> JsMath.hypot a 0 = a.
Proof.
  intros Ha. unfold JsMath.hypot.
  replace (a * a + 0 * 0) with (a * a) by ring.
  now apply sqrt_square.
Qed.

Lemma hypot_axis_neg a : a <= 0 -> JsMath.hypot a 0 = - a.
Proof.
  intros Ha. unfold JsMath.hypot.
  replace (a * a + 0 * 0) with (- a * - a) by ring.
  apply sqrt_square. lra.
Qed.

Lemma hypot_sqr a b : JsMath.hypot a b * JsMath.hypot a b = a * a + b * b.
Proof. unfold JsMath.hypot. apply sqrt_sqrt. nra. Qed.

Lemma hypot_pos a b : a <> 0 \/ b <> 0 -> 0 < JsMath.hypot a b.
Proof.
  intros Hab. unfold JsMath.hypot. apply sqrt_lt_R0.
  destruct Hab; nra.
Qed.

Lemma hypot3_sqr a b c :
  JsMath.hypot3 a b c * JsMath.hypot3 a b c = a * a + b * b + c * c.
Proof. unfold JsMath.hypot3. apply sqrt_sqrt. nra. Qed.

Lemma clamp_range v : -1 <= clamp v (-1) 1 <= 1.
Proof.
  unfold clamp, JsMath.max, JsMath.min.
  unfold Rmax, Rmin.
  destruct (Rle_dec 1 v); destruct (Rle_dec (-1) _); lra.
Qed.

Lemma clamp_id v lo hi : lo <= v <= hi -> clamp v lo hi = v.
Proof.
  intros Hv. unfold clamp, JsMath.max, JsMath.min, Rmax, Rmin.
  destruct (Rle_dec hi v); destruct (Rle_dec lo _); lra.
Qed.

Lemma clamp_unit_range v : 0 <= clamp v 0 1 <= 1.
Proof.
  unfold clamp, JsMath.max, JsMath.min, Rmax, Rmin.
  destruct (Rle_dec 1 v); destruct (Rle_dec 0 _); lra.
Qed.

Lemma clamp_unit_top v : 1 <= v -> clamp v 0 1 = 1.
Proof.
  intros Hv. unfold clamp, JsMath.max, JsMath.min, Rmax, Rmin.
  destruct (Rle_dec 1 v); destruct (Rle_dec 0 _); lra.
Qed.

Lemma clamp_unit_below v : v < 1 -> clamp v 0 1 < 1.
Proof.
  intros Hv. unfold clamp, JsMath.max, JsMath.min, Rmax, Rmin.
  destruct (Rle_dec 1 v); destruct (Rle_dec 0 _); lra.
Qed.

End Comparisons.

Lemma vec2_eq (a b c d : R) : a = c -> b = d -> mkVec2 a b = mkVec2 c d.
Proof. intros -> ->. reflexivity. Qed.

Lemma vec3_eq (a b c d e f : R) :
  a = d -> b = e -> c = f -> mkVec3 a b c = mkVec3 d e f.
Proof. intros -> -> ->. reflexivity. Qed.

Lemma sqnorm_dot2 (p : Vec2) : sqnorm p = dot2 p p.
Proof. reflexivity. Qed.

Lemma hypot2_sqr (p : Vec2) : hypot2 p * hypot2 p = sqnorm p.
Proof. unfold hypot2, sqnorm. apply hypot_sqr. Qed.

(** [norm2] always returns a unit vector. *)
Lemma norm2_sqnorm (p : Vec2) : sqnorm (norm2 p) = 1.
Proof.
  unfold norm2. destruct (ltb_spec 0 (hypot2 p)) as [Hpos|Hzero].
  - pose proof (hypot2_sqr p) as Hsq. unfold sqnorm in *.
    unfold mul2. cbn [vx vy].
    replace (vx p * (1 / hypot2 p) * (vx p * (1 / hypot2 p))
             + vy p * (1 / hypot2 p) * (vy p * (1 / hypot2 p)))
      with ((vx p * vx p + vy p * vy p) / (hypot2 p * hypot2 p))
      by (field; lra).
    rewrite <- Hsq. field. lra.
  - unfold sqnorm. cbn [vx vy]. ring.
Qed.

Lemma for_upto_length {A : Type} (n : nat) (f : nat -> A) :
  List.length (for_upto n f) = S n.
Proof. unfold for_upto. now rewrite length_map, length_seq. Qed.

Lemma for_upto_nth {A : Type} (n : nat) (f : nat -> A) (d : A) (i : nat) :
  (i <= n)%nat -> nth i (for_upto n f) d = f i.
Proof.
  intros Hi. unfold for_upto.
  rewrite nth_indep with (d' := f 0%nat) by (rewrite length_map, length_seq; lia).
  rewrite map_nth. rewrite seq_nth by lia. reflexivity.
Qed.

Lemma for_upto_In {A : Type} (n : nat) (f : nat -> A) (v : A) :
  In v (for_upto n f) -> exists i, (i <= n)%nat /\ v = f i.
Proof.
  unfold for_upto. intros Hin. apply in_map_iff in Hin.
  destruct Hin as [i [Hf Hi]]. apply in_seq in Hi.
  exists i. split; [lia | now symmetry].
Qed.

Lemma for_upto_last {A : Type} (n : nat) (f : nat -> A) (d : A) :
  last (for_upto n f) d = f n.
Proof.
  unfold for_upto. rewrite seq_S, map_app. simpl.
  apply last_last.
Qed.

(** ** The angle loops terminate *)

Section AngleLoops.

Lemma two_PI_gt_1 : 1 < 2 * PI.
Proof. pose proof PI2_1. lra. Qed.

Lemma angle_fuel_bound (d : R) : Rabs d < INR (angle_fuel d).
Proof.
  unfold angle_fuel. destruct (archimed (Rabs d)) as [Hup _].
  pose proof (Rabs_pos d) as Hd.
  assert (Hz : (0 <= up (Rabs d))%Z).
  { apply le_IZR. lra. }
  rewrite INR_IZR_INZ, Z2Nat.id by exact Hz. lra.
Qed.

Lemma while_gt_sub_done (fuel : nat) (b : R) :
  forall d, d - INR fuel <= b -> while_gt_sub fuel b d <= b.
Proof.
  pose proof two_PI_gt_1 as Hpi.
  induction fuel as [|fuel IH]; intros d Hd.
  - simpl in *. lra.
  - rewrite S_INR in Hd. simpl.
    destruct (ltb_spec b d) as [Hgt|Hle]; [apply IH|]; lra.
Qed.

Lemma while_gt_sub_lower (fuel : nat) (b lo : R) :
  lo <= b - 2 * PI ->
  forall d, lo < d -> lo < while_gt_sub fuel b d.
Proof.
  intros Hlo. induction fuel as [|fuel IH]; intros d Hd; simpl.
  - exact Hd.
  - destruct (ltb_spec b d) as [Hgt|Hle]; [apply IH; lra | exact Hd].
Qed.

Lemma while_gt_sub_idle (fuel : nat) (b d : R) :
  d <= b -> while_gt_sub fuel b d = d.
Proof.
  intros Hd. destruct fuel; simpl; [reflexivity|].
  rewrite ltb_false by lra. reflexivity.
Qed.

Lemma while_lt_add_done (fuel : nat) (b : R) :
  forall d, b <= d + INR fuel -> b <= while_lt_add fuel b d.
Proof.
  pose proof two_PI_gt_1 as Hpi.
  induction fuel as [|fuel IH]; intros d Hd.
  - simpl in *. lra.
  - rewrite S_INR in Hd. simpl.
    destruct (ltb_spec d b) as [Hlt|Hge]; [apply IH|]; lra.
Qed.

Lemma while_lt_add_upper (fuel : nat) (b hi : R) :
  b + 2 * PI <= hi ->
  forall d, d <= hi -> while_lt_add fuel b d <= hi.
Proof.
  intros Hhi. induction fuel as [|fuel IH]; intros d Hd; simpl.
  - exact Hd.
  - destruct (ltb_spec d b) as [Hlt|Hge]; [apply IH; lra | exact Hd].
Qed.

Lemma while_lt_add_idle (fuel : nat) (b d : R) :
  b <= d -> while_lt_add fuel b d = d.
Proof.
  intros Hd. destruct fuel; simpl; [reflexivity|].
  rewrite ltb_false by lra. reflexivity.
Qed.

Lemma while_le_add_done (fuel : nat) (b : R) :
  forall d, b < d + INR fuel -> b < while_le_add fuel b d.
Proof.
  pose proof two_PI_gt_1 as Hpi.
  induction fuel as [|fuel IH]; intros d Hd.
  - simpl in *. lra.
  - rewrite S_INR in Hd. simpl.
    destruct (leb_spec d b) as [Hle|Hgt]; [apply IH|]; lra.
Qed.

Lemma while_le_add_idle (fuel : nat) (b d : R) :
  b < d -> while_le_add fuel b d = d.
Proof.
  intros Hd. destruct fuel; simpl; [reflexivity|].
  rewrite leb_false by lra. reflexivity.
Qed.

(** [normalizeAngle] leaves both of its loops and returns an angle of
    (-PI, PI]. *)
Lemma normalizeAngle_range (a : R) :
  - PI < normalizeAngle a <= PI.
Proof.
  pose proof PI_RGT_0 as Hpi. unfold normalizeAngle. cbv zeta.
  set (a1 := while_le_add (angle_fuel a) (- PI) a).
  assert (Ha1 : - PI < a1).
  { apply while_le_add_done. pose proof (angle_fuel_bound a) as Hf.
    pose proof (Rle_abs (- a)) as Habs. rewrite Rabs_Ropp in Habs. lra. }
  split.
  - apply while_gt_sub_lower; lra.
  - apply while_gt_sub_done. pose proof (angle_fuel_bound a1) as Hf.
    pose proof (Rle_abs a1). lra.
Qed.

Lemma normalizeAngle_id (a : R) : - PI < a <= PI -> normalizeAngle a = a.
Proof.
  intros Ha. unfold normalizeAngle. cbv zeta.
  rewrite while_le_add_idle by lra. apply while_gt_sub_idle. lra.
Qed.

(** The two loops that bring the arc of a hyperbolic geodesic into
    [-PI, PI] terminate as well. *)
Lemma geodesic_delta_range (d : R) :
  let d1 := while_gt_sub (angle_fuel d) PI d in
  let d2 := while_lt_add (angle_fuel d1) (- PI) d1 in
  - PI <= d2 <= PI.
Proof.
  pose proof PI_RGT_0 as Hpi. cbv zeta.
  set (d1 := while_gt_sub (angle_fuel d) PI d).
  assert (Hd1 : d1 <= PI).
  { apply while_gt_sub_done. pose proof (angle_fuel_bound d) as Hf.
    pose proof (Rle_abs d). lra. }
  split.
  - apply while_lt_add_done. pose proof (angle_fuel_bound d1) as Hf.
    pose proof (Rle_abs (- d1)) as Habs. rewrite Rabs_Ropp in Habs. lra.
  - apply while_lt_add_upper; lra.
Qed.

End AngleLoops.

(** ** Degenerate hyperbolic segments *)

(** C8.  When [p], [q] and the origin are collinear within the
    tolerance of the code (the cross product is below 1e-7 in absolute
    value), the hyperbolic segment between [p] and [q] is exactly the
    two-point chord [[p; q]], whatever the number of steps. *)
Theorem geodesicBetween_H_collinear (p q : Vec2) (steps : nat) :
  Rabs (vx p * vy q - vy p * vx q) < 1e-7 ->
  geodesicBetween SpaceH p q steps = [p; q].
Proof.
  intros Hcross. unfold geodesicBetween, geodesicPoincareSegment, JsMath.abs.
  now rewrite (ltb_true _ _ Hcross).
Qed.

Lemma geodesicBetween_H_collinear_witness :
  geodesicBetween SpaceH (mkVec2 0 0) (mkVec2 0.5 0) 260
  = [mkVec2 0 0; mkVec2 0.5 0].
Proof.
  apply geodesicBetween_H_collinear. simpl.
  replace (0 * 0 - 0 * 0.5) with 0 by lra.
  rewrite Rabs_R0. lra.
Defined.

(** ** Tracing a circle: what happens to the stored position *)

(** C10.  On the sphere the state returned with a traced circle is the
    input state itself, so [s_p], [s_t] and every other field are
    unchanged, while the path is the sampled circle around [s_p].  In
    the Euclidean and hyperbolic models the only field that changes is
    the position, which moves to the last sample of the path. *)
Theorem buildCircleTrace_next (st : EngineState) (radius : R) :
  let tr := buildCircleTrace st radius in
  match space st with
  | SpaceS =>
      traced_next tr = st
      /\ traced_path tr = sphereCirclePoints (s_p st) radius 320
  | SpaceE =>
      traced_next tr = set_e_pos st (nth 260 (traced_path tr) origin2)
      /\ List.length (traced_path tr) = 261%nat
  | SpaceH =>
      traced_next tr = set_h_pos st (nth 280 (traced_path tr) origin2)
      /\ List.length (traced_path tr) = 281%nat
  end.
Proof.
  unfold buildCircleTrace. destruct (space st); cbv zeta.
  - unfold traced_next, traced_path, lastPoint.
    rewrite for_upto_last, for_upto_nth by lia.
    now rewrite for_upto_length.
  - unfold traced_next, traced_path, lastPoint.
    rewrite for_upto_last, for_upto_nth by lia.
    now rewrite for_upto_length.
  - split; reflexivity.
Qed.

(** On the sphere no field of the state is touched. *)
Lemma buildCircleTrace_S_fields (st : EngineState) (radius : R) :
  space st = SpaceS ->
  let st' := traced_next (buildCircleTrace st radius) in
  s_p st' = s_p st /\ s_t st' = s_t st /\ anim st' = anim st
  /\ shapes st' = shapes st /\ inProgress st' = inProgress st.
Proof.
  intros Hs. unfold buildCircleTrace. rewrite Hs. cbn [traced_next].
  repeat split.
Qed.

(** ** Following a path *)

Lemma hypot2_unit_x : hypot2 (sub2 (mkVec2 1 0) (mkVec2 0 0)) = 1.
Proof.
  unfold hypot2, sub2. simpl.
  replace (1 - 0) with 1 by lra. replace (0 - 0) with 0 by lra.
  apply hypot_axis. lra.
Qed.

(** The loop over the segments always stops within [length path] turns:
    with that much fuel the loop condition is false on exit. *)
Lemma walkPath_exits (path : list Vec2) (fuel : nat) (w : Walk) :
  (List.length path - 1 - walk_i w < fuel)%nat ->
  let w' := walkPath fuel path w in
  ~ (0 < walk_remaining w' /\ (walk_i w' < List.length path - 1)%nat).
Proof.
  revert w. induction fuel as [|fuel IH]; intros w Hfuel; [lia|].
  simpl.
  destruct (ltb_spec 0 (walk_remaining w)) as [Hrem|Hrem]; simpl.
  - destruct (Nat.ltb_spec (walk_i w) (List.length path - 1)) as [Hi|Hi].
    + destruct (leb_spec (walk_remaining w)
                  (hypot2 (sub2 (nth (walk_i w + 1) path (mkVec2 0 0))
                                (nth (walk_i w) path (mkVec2 0 0)))
                   * (1 - walk_t w))) as [Hle|Hle].
      * simpl. lra.
      * apply IH. simpl. lia.
    + lia.
  - tauto.
Qed.

Lemma walkPath_fuel_enough (path : list Vec2) (w : Walk) :
  let w' := walkPath (List.length path) path w in
  ~ (0 < walk_remaining w' /\ (walk_i w' < List.length path - 1)%nat).
Proof.
  destruct path as [|p0 path'].
  - simpl. lia.
  - apply walkPath_exits. simpl. lia.
Qed.

(** The path built by an advance of 1 from the origin with heading 0. *)
Lemma advance_unit_path (st : EngineState) :
  space st = SpaceE ->
  e_pos st = mkVec2 0 0 ->
  e_theta st = 0 ->
  built_path (buildAdvancePath st 1) = [mkVec2 0 0; mkVec2 1 0].
Proof.
  intros Hs Hp Ht.
  unfold buildAdvancePath. rewrite Hs, Hp, Ht. simpl.
  rewrite cos_0, sin_0. unfold add2, mul2. simpl.
  repeat f_equal; lra.
Qed.

(** A budget above the length of the path ends the job in one step. *)
Lemma unit_path_step_over (st : EngineState) (sp dt : R) (trace : bool) :
  space st = SpaceE ->
  1 < sp * dt ->
  let st' := stepAnimation
               (animatePath st [mkVec2 0 0; mkVec2 1 0] sp trace) dt in
  active (anim st') = false /\ e_pos st' = mkVec2 1 0.
Proof.
  intros Hs Hbudget. cbv zeta.
  unfold stepAnimation, animatePath. simpl.
  rewrite Hs. simpl.
  rewrite (ltb_true 0 (sp * dt)) by lra. simpl.
  rewrite hypot2_unit_x.
  rewrite (leb_false (sp * dt)) by lra.
  rewrite (ltb_true 0) by lra. simpl.
  destruct trace; simpl.
  - destruct (inProgress st) as [poly|]; simpl.
    + destruct (lastOf (pts poly)); [destruct (_ <? _)|]; simpl; auto.
    + auto.
  - auto.
Qed.

(** With a budget exactly equal to the length of the path the frog
    reaches (1,0) as well, but the job is still active: the loop stops
    inside the only segment, at parameter 1, and the index is not
    advanced. *)
Lemma unit_path_step_exact_state
    (st : EngineState) (sp dt : R) (trace : bool) :
  space st = SpaceE ->
  sp * dt = 1 ->
  let st' := stepAnimation
               (animatePath st [mkVec2 0 0; mkVec2 1 0] sp trace) dt in
  space st' = SpaceE
  /\ e_pos st' = mkVec2 1 0
  /\ anim st' = mkAnim true [mkVec2 0 0; mkVec2 1 0] 0 1 sp trace None.
Proof.
  intros Hs Hbudget. cbv zeta.
  unfold stepAnimation, animatePath. simpl.
  rewrite Hs. simpl.
  rewrite (ltb_true 0 (sp * dt)) by lra. simpl.
  rewrite hypot2_unit_x.
  rewrite (leb_true (sp * dt)) by lra. simpl.
  unfold add2, mul2, sub2, set_i_t. simpl.
  rewrite Hbudget.
  replace (0 + 1 / 1) with 1 by field.
  replace (0 + (1 - 0) * 1) with 1 by ring.
  replace (0 + (0 - 0) * 1) with 0 by ring.
  destruct trace; simpl.
  - destruct (inProgress st) as [poly|]; simpl.
    + destruct (lastOf (pts poly)); [destruct (_ <? _)|]; simpl;
        rewrite ?Hs; auto.
    + rewrite Hs. auto.
  - rewrite Hs. auto.
Qed.

(** A job standing at the end of its only segment is ended by the next
    step with a positive budget, and the frog does not move. *)
Lemma unit_path_finish (s : EngineState) (sp dt2 : R) (trace : bool) :
  space s = SpaceE ->
  e_pos s = mkVec2 1 0 ->
  anim s = mkAnim true [mkVec2 0 0; mkVec2 1 0] 0 1 sp trace None ->
  0 < sp * dt2 ->
  active (anim (stepAnimation s dt2)) = false
  /\ e_pos (stepAnimation s dt2) = mkVec2 1 0.
Proof.
  intros Hs Hp Ha H2.
  unfold stepAnimation. rewrite Ha. simpl. rewrite Hs. simpl.
  rewrite (ltb_true 0 (sp * dt2)) by lra. simpl.
  rewrite hypot2_unit_x.
  rewrite (leb_false (sp * dt2)) by lra.
  change (1 <? 1)%nat with false. rewrite andb_false_r. simpl.
  destruct trace; simpl.
  - destruct (inProgress s) as [poly|]; simpl.
    + destruct (lastOf (pts poly)); [destruct (0.002 <? _)|]; simpl; auto.
    + auto.
  - auto.
Qed.

Lemma unit_path_step_exact (st : EngineState) (sp dt : R) (trace : bool) :
  space st = SpaceE ->
  sp * dt = 1 ->
  let st' := stepAnimation
               (animatePath st [mkVec2 0 0; mkVec2 1 0] sp trace) dt in
  active (anim st') = true
  /\ e_pos st' = mkVec2 1 0
  /\ forall dt2, 0 < sp * dt2 ->
       active (anim (stepAnimation st' dt2)) = false
       /\ e_pos (stepAnimation st' dt2) = mkVec2 1 0.
Proof.
  intros Hs Hbudget. cbv zeta.
  destruct (unit_path_step_exact_state st sp dt trace Hs Hbudget)
    as [Hs' [Hp' Ha']].
  split; [rewrite Ha'; reflexivity|].
  split; [exact Hp'|].
  intros dt2 H2.
  exact (unit_path_finish _ sp dt2 trace Hs' Hp' Ha' H2).
Qed.

(** C3.  In the Euclidean model, at position (0,0) with heading 0, an
    advance of distance 1 builds the path [(0,0), (1,0)].  Once that
    path is scheduled on a state of the Euclidean model (the current
    one or the one returned with the path), one animation step whose
    budget [speed * dt] covers the length 1 of the path leaves the
    Euclidean position at (1,0).  The job is ended by that step
    ([active] is false) exactly when the budget is strictly larger than
    the length; with a budget equal to the length the job is still
    active after the step.  In both cases one more step with any
    positive budget leaves the job ended and the position at (1,0). *)
Theorem advance_unit_then_step
    (st scheduled : EngineState) (sp dt : R) (trace : bool) :
  space st = SpaceE ->
  e_pos st = mkVec2 0 0 ->
  e_theta st = 0 ->
  space scheduled = SpaceE ->
  1 <= sp * dt ->
  let b := buildAdvancePath st 1 in
  built_path b = [mkVec2 0 0; mkVec2 1 0]
  /\ let st' := stepAnimation
                  (animatePath scheduled (built_path b) sp trace) dt in
     e_pos st' = mkVec2 1 0
     /\ (active (anim st') = false <-> 1 < sp * dt)
     /\ forall dt2, 0 < sp * dt2 ->
          active (anim (stepAnimation st' dt2)) = false
          /\ e_pos (stepAnimation st' dt2) = mkVec2 1 0.
Proof.
  intros Hs Hp Ht Hs2 Hbudget.
  cbv zeta. rewrite (advance_unit_path st Hs Hp Ht).
  split; [reflexivity|].
  destruct (Rle_lt_or_eq_dec _ _ Hbudget) as [Hover|Hexact].
  - destruct (unit_path_step_over scheduled sp dt trace Hs2 Hover)
      as [Hact Hpos].
    split; [exact Hpos|]. split; [tauto|].
    intros dt2 _. unfold stepAnimation at 1 3. rewrite Hact. simpl.
    split; [exact Hact | exact Hpos].
  - destruct (unit_path_step_exact scheduled sp dt trace Hs2 (eq_sym Hexact))
      as [Hact [Hpos Hnext]].
    split; [exact Hpos|]. split; [|exact Hnext].
    rewrite Hact. split; [discriminate | lra].
Qed.

Lemma advance_unit_then_step_witness :
  let st := createInitialState SpaceE in
  let b := buildAdvancePath st 1 in
  built_path b = [mkVec2 0 0; mkVec2 1 0]
  /\ let st' := stepAnimation (animatePath st (built_path b) 0.9 false) 2 in
     e_pos st' = mkVec2 1 0
     /\ (active (anim st') = false <-> 1 < 0.9 * 2)
     /\ forall dt2, 0 < 0.9 * dt2 ->
          active (anim (stepAnimation st' dt2)) = false
          /\ e_pos (stepAnimation st' dt2) = mkVec2 1 0.
Proof.
  apply (advance_unit_then_step (createInitialState SpaceE)
           (createInitialState SpaceE) 0.9 2 false);
    try reflexivity.
  lra.
Defined.

(** A budget that exhausts the path exactly: from the initial state,
    with speed 1 and a step of 1, the frog stands on the last point
    (1,0) of the path and the job is still active. *)
Lemma advance_unit_exact_budget_active :
  let st := createInitialState SpaceE in
  let b := buildAdvancePath st 1 in
  let st' := stepAnimation (animatePath st (built_path b) 1 false) 1 in
  built_path b = [mkVec2 0 0; mkVec2 1 0]
  /\ pathLength (built_path b) = 1 * 1
  /\ e_pos st' = mkVec2 1 0
  /\ active (anim st') = true.
Proof.
  cbv zeta.
  rewrite (advance_unit_path (createInitialState SpaceE)) by reflexivity.
  destruct (unit_path_step_exact (createInitialState SpaceE) 1 1 false)
    as [Hact [Hpos _]]; [reflexivity | lra |].
  repeat split; [|exact Hpos|exact Hact].
  unfold pathLength. cbn [List.length Nat.sub restLength].
  unfold segLength. cbn [nth Nat.add]. rewrite hypot2_unit_x. lra.
Qed.

(** ** Exact hyperbolic distance *)

Section Ln3.

(** Doubling the argument squares a lower bound of the exponential. *)
Lemma exp_sq_lb (y z a b : R) :
  0 <= a -> a <= exp y -> b <= a * a -> z = 2 * y -> b <= exp z.
Proof.
  intros Ha Hay Hb ->.
  replace (2 * y) with (y + y) by ring. rewrite exp_plus.
  apply Rle_trans with (a * a); [exact Hb|].
  apply Rmult_le_compat; assumption.
Qed.

Lemma exp_1_0987_lower : 3 < exp (1.0987).
Proof.
  assert (H0 : 1 + 1.0987 / 16384 <= exp (1.0987 / 16384)) by apply exp_ineq1_le.
  assert (H1 : 1.0001341231492969 <= exp (1.0987 / 8192)).
  { apply (exp_sq_lb (1.0987 / 16384) _ (1 + 1.0987 / 16384)); [lra | exact H0 | lra | lra]. }
  clear H0.
  assert (H2 : 1.0002682642876129 <= exp (1.0987 / 4096)).
  { apply (exp_sq_lb (1.0987 / 8192) _ 1.0001341231492969); [lra | exact H1 | lra | lra]. }
  clear H1.
  assert (H3 : 1.0005366005409538 <= exp (1.0987 / 2048)).
  { apply (exp_sq_lb (1.0987 / 4096) _ 1.0002682642876129); [lra | exact H2 | lra | lra]. }
  clear H2.
  assert (H4 : 1.0010734890220481 <= exp (1.0987 / 1024)).
  { apply (exp_sq_lb (1.0987 / 2048) _ 1.0005366005409538); [lra | exact H3 | lra | lra]. }
  clear H3.
  assert (H5 : 1.0021481304227766 <= exp (1.0987 / 512)).
  { apply (exp_sq_lb (1.0987 / 1024) _ 1.0010734890220481); [lra | exact H4 | lra | lra]. }
  clear H4.
  assert (H6 : 1.0043008753098664 <= exp (1.0987 / 256)).
  { apply (exp_sq_lb (1.0987 / 512) _ 1.0021481304227766); [lra | exact H5 | lra | lra]. }
  clear H5.
  assert (H7 : 1.0086202481481638 <= exp (1.0987 / 128)).
  { apply (exp_sq_lb (1.0987 / 256) _ 1.0043008753098664); [lra | exact H6 | lra | lra]. }
  clear H6.
  assert (H8 : 1.0173148049744635 <= exp (1.0987 / 64)).
  { apply (exp_sq_lb (1.0987 / 128) _ 1.0086202481481638); [lra | exact H7 | lra | lra]. }
  clear H7.
  assert (H9 : 1.0349294124202307 <= exp (1.0987 / 32)).
  { apply (exp_sq_lb (1.0987 / 64) _ 1.0173148049744635); [lra | exact H8 | lra | lra]. }
  clear H8.
  assert (H10 : 1.0710788886924839 <= exp (1.0987 / 16)).
  { apply (exp_sq_lb (1.0987 / 32) _ 1.0349294124202307); [lra | exact H9 | lra | lra]. }
  clear H9.
  assert (H11 : 1.1472099858027263 <= exp (1.0987 / 8)).
  { apply (exp_sq_lb (1.0987 / 16) _ 1.0710788886924839); [lra | exact H10 | lra | lra]. }
  clear H10.
  assert (H12 : 1.3160907515254914 <= exp (1.0987 / 4)).
  { apply (exp_sq_lb (1.0987 / 8) _ 1.1472099858027263); [lra | exact H11 | lra | lra]. }
  clear H11.
  assert (H13 : 1.7320948662509327 <= exp (1.0987 / 2)).
  { apply (exp_sq_lb (1.0987 / 4) _ 1.3160907515254914); [lra | exact H12 | lra | lra]. }
  clear H12.
  assert (H14 : 3.0001526256928364 <= exp (1.0987)).
  { apply (exp_sq_lb (1.0987 / 2) _ 1.7320948662509327); [lra | exact H13 | lra | lra]. }
  clear H13.
  lra.
Qed.

Lemma exp_neg_1_0985_lower : 0.3333334 < exp (-1.0985).
Proof.
  assert (H0 : 1 + -1.0985 / 16384 <= exp (-1.0985 / 16384)) by apply exp_ineq1_le.
  assert (H1 : 0.9998659102570349 <= exp (-1.0985 / 8192)).
  { apply (exp_sq_lb (-1.0985 / 16384) _ (1 + -1.0985 / 16384)); [lra | exact H0 | lra | lra]. }
  clear H0.
  assert (H2 : 0.9997318384941289 <= exp (-1.0985 / 4096)).
  { apply (exp_sq_lb (-1.0985 / 8192) _ 0.9998659102570349); [lra | exact H1 | lra | lra]. }
  clear H1.
  assert (H3 : 0.999463748898851 <= exp (-1.0985 / 2048)).
  { apply (exp_sq_lb (-1.0985 / 4096) _ 0.9997318384941289); [lra | exact H2 | lra | lra]. }
  clear H2.
  assert (H4 : 0.9989277853629454 <= exp (-1.0985 / 1024)).
  { apply (exp_sq_lb (-1.0985 / 2048) _ 0.999463748898851); [lra | exact H3 | lra | lra]. }
  clear H3.
  assert (H5 : 0.9978567203701187 <= exp (-1.0985 / 512)).
  { apply (exp_sq_lb (-1.0985 / 1024) _ 0.9989277853629454); [lra | exact H4 | lra | lra]. }
  clear H4.
  assert (H6 : 0.9957180343878092 <= exp (-1.0985 / 256)).
  { apply (exp_sq_lb (-1.0985 / 512) _ 0.9978567203701187); [lra | exact H5 | lra | lra]. }
  clear H5.
  assert (H7 : 0.9914544040051223 <= exp (-1.0985 / 128)).
  { apply (exp_sq_lb (-1.0985 / 256) _ 0.9957180343878092); [lra | exact H6 | lra | lra]. }
  clear H6.
  assert (H8 : 0.9829818352211522 <= exp (-1.0985 / 64)).
  { apply (exp_sq_lb (-1.0985 / 128) _ 0.9914544040051223); [lra | exact H7 | lra | lra]. }
  clear H7.
  assert (H9 : 0.9662532883747444 <= exp (-1.0985 / 32)).
  { apply (exp_sq_lb (-1.0985 / 64) _ 0.9829818352211522); [lra | exact H8 | lra | lra]. }
  clear H8.
  assert (H10 : 0.9336454172950069 <= exp (-1.0985 / 16)).
  { apply (exp_sq_lb (-1.0985 / 32) _ 0.9662532883747444); [lra | exact H9 | lra | lra]. }
  clear H9.
  assert (H11 : 0.8716937652359675 <= exp (-1.0985 / 8)).
  { apply (exp_sq_lb (-1.0985 / 16) _ 0.9336454172950069); [lra | exact H10 | lra | lra]. }
  clear H10.
  assert (H12 : 0.759850020351258 <= exp (-1.0985 / 4)).
  { apply (exp_sq_lb (-1.0985 / 8) _ 0.8716937652359675); [lra | exact H11 | lra | lra]. }
  clear H11.
  assert (H13 : 0.5773720534278071 <= exp (-1.0985 / 2)).
  { apply (exp_sq_lb (-1.0985 / 4) _ 0.759850020351258); [lra | exact H12 | lra | lra]. }
  clear H12.
  assert (H14 : 0.3333584880794425 <= exp (-1.0985)).
  { apply (exp_sq_lb (-1.0985 / 2) _ 0.5773720534278071); [lra | exact H13 | lra | lra]. }
  clear H13.
  lra.
Qed.

Lemma ln3_bounds : 1.0985 < ln 3 < 1.0987.
Proof.
  split.
  - rewrite <- (ln_exp 1.0985). apply ln_increasing; [apply exp_pos|].
    pose proof exp_neg_1_0985_lower as Hlow.
    replace (exp (-1.0985)) with (exp (- (1.0985))) in Hlow by (f_equal; lra).
    rewrite exp_Ropp in Hlow.
    pose proof (exp_pos 1.0985) as Hpos.
    apply Rmult_lt_reg_r with (/ exp 1.0985).
    + now apply Rinv_0_lt_compat.
    + rewrite Rinv_r by lra. lra.
  - rewrite <- (ln_exp 1.0987). apply ln_increasing; [lra|].
    exact exp_1_0987_lower.
Qed.

Lemma acosh_five_thirds : JsMath.acosh (5 / 3) = ln 3.
Proof.
  unfold JsMath.acosh.
  replace (5 / 3 * (5 / 3) - 1) with (4 / 3 * (4 / 3)) by lra.
  rewrite sqrt_square by lra.
  f_equal. lra.
Qed.

End Ln3.

(** C1.  For points [A], [B] strictly inside the unit disk the
    hyperbolic distance is arcosh of
    [1 + 2 |A - B|^2 / ((1 - |A|^2) (1 - |B|^2))], with the argument
    clamped from below by 1; the distance from (0,0) to (0.5,0) is
    arcosh(5/3), which is 1.0986 up to 1e-4. *)
Theorem distanceExact_H_formula (A B : Vec2) :
  sqnorm A < 1 ->
  sqnorm B < 1 ->
  App.distanceExact SpaceH A B
  = Num (JsMath.acosh
           (Rmax 1 (1 + 2 * App.dist2 A B
                        / ((1 - sqnorm A) * (1 - sqnorm B)))))
  /\ App.distanceExact SpaceH (mkVec2 0 0) (mkVec2 0.5 0)
     = Num (JsMath.acosh (5 / 3))
  /\ Rabs (JsMath.acosh (5 / 3) - 1.0986) < 1e-4.
Proof.
  intros HA HB. unfold sqnorm in *. repeat split.
  - unfold App.distanceExact, App.dist2. cbv zeta.
    rewrite leb_false by nra.
    reflexivity.
  - unfold App.distanceExact. cbv zeta. simpl.
    rewrite leb_false by lra.
    f_equal. f_equal. unfold JsMath.max, Rmax.
    destruct (Rle_dec 1 _) as [_|Hn]; [lra|].
    exfalso. apply Hn. lra.
  - rewrite acosh_five_thirds. pose proof ln3_bounds.
    apply Rabs_def1; lra.
Qed.

Lemma distanceExact_H_formula_witness :
  App.distanceExact SpaceH (mkVec2 0 0) (mkVec2 0.5 0)
  = Num (JsMath.acosh (5 / 3)).
Proof.
  apply (distanceExact_H_formula (mkVec2 0 0) (mkVec2 0.5 0));
    unfold sqnorm; simpl; lra.
Defined.

(** ** Turning *)

Section Turning.

Lemma stepAnimation_idle (st : EngineState) (dt : R) :
  active (anim st) = false -> stepAnimation st dt = st.
Proof. intros Hidle. unfold stepAnimation. now rewrite Hidle. Qed.

Lemma stepAll_idle (dts : list R) (st : EngineState) :
  active (anim st) = false -> stepAll st dts = st.
Proof.
  revert st. induction dts as [|dt dts IH]; intros st Hidle; [reflexivity|].
  unfold stepAll in *. simpl. rewrite stepAnimation_idle by assumption.
  now apply IH.
Qed.

(** The frame of a turn that is not the last one: the clamped progress
    is below 1 only if the elapsed time is below the duration. *)
Lemma progress_below_one (e dt : R) :
  ~ 1 <= clamp ((e + dt) / 0.35) 0 1 -> e + dt < 0.35.
Proof.
  intros Hgo. destruct (Rlt_dec (e + dt) 0.35) as [Hlt|Hge]; [exact Hlt|].
  exfalso. apply Hgo. rewrite clamp_unit_top; [lra|].
  apply Rmult_le_reg_r with 0.35; [lra|].
  unfold Rdiv. rewrite Rmult_assoc, Rinv_l by lra. lra.
Qed.

(** The induction over the frames is the same in both plane models; it
    only differs by the field that holds the heading. *)
Ltac plane_turn_frames set_theta :=
  let dts := fresh "dts" in
  let dt := fresh "dt" in
  let IH := fresh "IH" in
  intros dts;
  induction dts as [|dt dts IH]; intros st theta0 e Hs Hact Hrot Hth He;
  [ simpl; split; [exact Hth | intros Hsum; lra]
  | cbv zeta; unfold stepAll; simpl fold_left;
    fold (stepAll (stepAnimation st dt) dts);
    pose proof PI_RGT_0 as Hpi;
    assert (Hstep : stepAnimation st dt =
      set_anim (set_theta st (theta0 + (theta0 + PI / 2 - theta0)
                                       * clamp ((e + dt) / 0.35) 0 1))
        (if 1 <=? clamp ((e + dt) / 0.35) 0 1 then idleAnim (speed (anim st))
         else set_rotate (anim st)
                (mkRotate theta0 (theta0 + PI / 2) (e + dt) 0.35)))
      by (unfold stepAnimation; rewrite Hact, Hrot, Hs; reflexivity);
    rewrite Hstep; clear Hstep;
    pose proof (clamp_unit_range ((e + dt) / 0.35)) as Hu;
    destruct (leb_spec 1 (clamp ((e + dt) / 0.35) 0 1)) as [Hdone|Hgo];
    [ assert (Hu1 : clamp ((e + dt) / 0.35) 0 1 = 1) by lra;
      rewrite Hu1; rewrite stepAll_idle by reflexivity; simpl;
      split; [lra | intros _; split; [lra | reflexivity]]
    | pose proof (progress_below_one e dt Hgo) as He';
      destruct (IH (set_anim
                      (set_theta st (theta0 + (theta0 + PI / 2 - theta0)
                                              * clamp ((e + dt) / 0.35) 0 1))
                      (set_rotate (anim st)
                         (mkRotate theta0 (theta0 + PI / 2) (e + dt) 0.35)))
                   theta0 (e + dt)) as [Hrange Hend];
      [ first [assumption | reflexivity | (simpl; nra)] ..
      | split; [exact Hrange
               | intros Hsum; apply Hend; simpl in Hsum; lra] ] ] ].

(** A turn in the plane models: the heading is interpolated with the
    clamped progress, so it stays between start and target and lands on
    the target when the elapsed time reaches the duration. *)
Lemma stepAll_turn_E :
  forall (dts : list R) (st : EngineState) (theta0 e : R),
    space st = SpaceE ->
    active (anim st) = true ->
    rotate (anim st) = Some (mkRotate theta0 (theta0 + PI / 2) e 0.35) ->
    theta0 <= e_theta st <= theta0 + PI / 2 ->
    e < 0.35 ->
    let st' := stepAll st dts in
    theta0 <= e_theta st' <= theta0 + PI / 2
    /\ (0.35 <= e + sumR dts ->
        e_theta st' = theta0 + PI / 2 /\ active (anim st') = false).
Proof. plane_turn_frames set_e_theta. Qed.

Lemma stepAll_turn_H :
  forall (dts : list R) (st : EngineState) (theta0 e : R),
    space st = SpaceH ->
    active (anim st) = true ->
    rotate (anim st) = Some (mkRotate theta0 (theta0 + PI / 2) e 0.35) ->
    theta0 <= h_theta st <= theta0 + PI / 2 ->
    e < 0.35 ->
    let st' := stepAll st dts in
    theta0 <= h_theta st' <= theta0 + PI / 2
    /\ (0.35 <= e + sumR dts ->
        h_theta st' = theta0 + PI / 2 /\ active (anim st') = false).
Proof. plane_turn_frames set_h_theta. Qed.

Lemma turn_angle_90 : 90 * PI / 180 = PI / 2.
Proof. lra. Qed.

(** In the Euclidean and hyperbolic models a quarter turn over 0.35 s
    never leaves the interval between the initial heading and the
    target, whatever the frame times, and ends on the target as soon as
    the frame times add up to the duration. *)
Lemma turn_converges_E (st : EngineState) (dts : list R) :
  space st = SpaceE ->
  let st' := stepAll (buildTurnAnim st 90 0.35) dts in
  e_theta st <= e_theta st' <= e_theta st + PI / 2
  /\ (0.35 <= sumR dts ->
      e_theta st' = e_theta st + PI / 2 /\ active (anim st') = false).
Proof.
  intros Hs.
  destruct (stepAll_turn_E dts (buildTurnAnim st 90 0.35) (e_theta st) 0)
    as [Hrange Hend].
  - unfold buildTurnAnim. now rewrite Hs.
  - unfold buildTurnAnim. now rewrite Hs.
  - unfold buildTurnAnim. rewrite Hs. simpl. now rewrite turn_angle_90.
  - unfold buildTurnAnim. rewrite Hs. simpl. pose proof PI_RGT_0. lra.
  - lra.
  - cbv zeta. split; [exact Hrange|]. intros Hsum. apply Hend. lra.
Qed.

Lemma turn_converges_H (st : EngineState) (dts : list R) :
  space st = SpaceH ->
  let st' := stepAll (buildTurnAnim st 90 0.35) dts in
  h_theta st <= h_theta st' <= h_theta st + PI / 2
  /\ (0.35 <= sumR dts ->
      h_theta st' = h_theta st + PI / 2 /\ active (anim st') = false).
Proof.
  intros Hs.
  destruct (stepAll_turn_H dts (buildTurnAnim st 90 0.35) (h_theta st) 0)
    as [Hrange Hend].
  - unfold buildTurnAnim. now rewrite Hs.
  - unfold buildTurnAnim. now rewrite Hs.
  - unfold buildTurnAnim. rewrite Hs. simpl. now rewrite turn_angle_90.
  - unfold buildTurnAnim. rewrite Hs. simpl. pose proof PI_RGT_0. lra.
  - lra.
  - cbv zeta. split; [exact Hrange|]. intros Hsum. apply Hend. lra.
Qed.

End Turning.

Section SphereTurning.

Lemma norm3_unit (v : Vec3) :
  wx v * wx v + wy v * wy v + wz v * wz v = 1 -> norm3 v = v.
Proof.
  intros Hv. unfold norm3, hypot3, JsMath.hypot3. rewrite Hv, sqrt_1.
  rewrite ltb_true by lra. destruct v as [a b c]. unfold mul3. simpl.
  apply vec3_eq; lra.
Qed.

Lemma cos2_sin2 (a : R) : cos a * cos a + sin a * sin a = 1.
Proof. pose proof (sin2_cos2 a) as Hsc. unfold Rsqr in Hsc. lra. Qed.

(** At the north pole, turning the tangent of angle [a] by [g] gives the
    tangent of angle [a + g]. *)
Lemma sphereTurn_pole (a g : R) :
  sphereTurn northPole (tangentAt a) g = tangentAt (a + g).
Proof.
  unfold sphereTurn, northPole, tangentAt, cross3, dot3, add3, mul3. simpl.
  rewrite norm3_unit.
  - rewrite cos_plus, sin_plus. apply vec3_eq; ring.
  - simpl. pose proof (cos2_sin2 a). pose proof (cos2_sin2 g). nra.
Qed.

Lemma createInitialState_S :
  s_p (createInitialState SpaceS) = northPole
  /\ s_t (createInitialState SpaceS) = tangentAt 0.
Proof.
  unfold createInitialState, northPole, tangentAt. simpl.
  rewrite cos_0, sin_0. split; apply norm3_unit; simpl; lra.
Qed.

(** One frame of a turn on the sphere: the tangent is rotated by
    [to * dt / duration], and the job ends when the clamped progress
    reaches 1. *)
Lemma stepAnimation_turn_S (st : EngineState) (r : Rotate) (a dt : R) :
  space st = SpaceS ->
  active (anim st) = true ->
  rotate (anim st) = Some r ->
  s_p st = northPole ->
  s_t st = tangentAt a ->
  stepAnimation st dt
  = set_anim (set_s_t st (tangentAt (a + rot_to r * dt / rot_duration r)))
      (if 1 <=? clamp ((rot_elapsed r + dt) / rot_duration r) 0 1
       then idleAnim (speed (anim st))
       else set_rotate (anim st)
              (mkRotate (rot_from r) (rot_to r) (rot_elapsed r + dt)
                        (rot_duration r))).
Proof.
  intros Hs Hact Hrot Hp Ht. unfold stepAnimation.
  rewrite Hact, Hrot, Hs. simpl. rewrite Hp, Ht, sphereTurn_pole.
  reflexivity.
Qed.

(** [n] equal frames that do not complete the turn: the tangent has
    turned by [n] increments and the job is still running. *)
Lemma stepAll_turn_S_running (dt ang : R) (n : nat) :
  forall (st : EngineState) (a e : R),
    space st = SpaceS ->
    active (anim st) = true ->
    rotate (anim st) = Some (mkRotate 0 ang e 0.35) ->
    s_p st = northPole ->
    s_t st = tangentAt a ->
    0 <= dt ->
    e + INR n * dt < 0.35 ->
    let st' := stepAll st (repeat dt n) in
    space st' = SpaceS
    /\ active (anim st') = true
    /\ rotate (anim st') = Some (mkRotate 0 ang (e + INR n * dt) 0.35)
    /\ s_p st' = northPole
    /\ s_t st' = tangentAt (a + INR n * (ang * dt / 0.35)).
Proof.
  induction n as [|n IH]; intros st a e Hs Hact Hrot Hp Ht Hdt He.
  - simpl. rewrite !Rmult_0_l, !Rplus_0_r. repeat split; assumption.
  - cbv zeta. rewrite !S_INR. rewrite S_INR in He.
    assert (He1 : e + dt < 0.35) by (pose proof (pos_INR n); nra).
    unfold stepAll. simpl repeat. simpl fold_left.
    fold (stepAll (stepAnimation st dt) (repeat dt n)).
    rewrite (stepAnimation_turn_S st _ a dt Hs Hact Hrot Hp Ht).
    cbn [rot_from rot_to rot_elapsed rot_duration].
    rewrite leb_false.
    2:{ intros Hdone.
        pose proof (clamp_unit_below ((e + dt) / 0.35)) as Hlt.
        assert ((e + dt) / 0.35 < 1); [|lra].
        apply Rmult_lt_reg_r with 0.35; [lra|].
        unfold Rdiv. rewrite Rmult_assoc, Rinv_l by lra. lra. }
    destruct (IH (set_anim (set_s_t st (tangentAt (a + ang * dt / 0.35)))
                    (set_rotate (anim st) (mkRotate 0 ang (e + dt) 0.35)))
                 (a + ang * dt / 0.35) (e + dt))
      as (H1 & H2 & H3 & H4 & H5); try reflexivity; try assumption; try lra.
    repeat split; try assumption.
    + rewrite H3. do 2 f_equal. lra.
    + rewrite H5. f_equal. lra.
Qed.

Lemma stepAll_app (st : EngineState) (l1 l2 : list R) :
  stepAll st (l1 ++ l2) = stepAll (stepAll st l1) l2.
Proof. unfold stepAll. apply fold_left_app. Qed.

Lemma norm2_unit (v : Vec2) : vx v * vx v + vy v * vy v = 1 -> norm2 v = v.
Proof.
  intros Hv. unfold norm2, hypot2, JsMath.hypot. rewrite Hv, sqrt_1.
  rewrite ltb_true by lra. destruct v as [a b]. unfold mul2. simpl.
  apply vec2_eq; lra.
Qed.

(** The frame that completes a turn on the sphere still rotates by its
    full increment. *)
Lemma stepAnimation_turn_S_last (st : EngineState) (a e ang dt : R) :
  space st = SpaceS ->
  active (anim st) = true ->
  rotate (anim st) = Some (mkRotate 0 ang e 0.35) ->
  s_p st = northPole ->
  s_t st = tangentAt a ->
  0.35 <= e + dt ->
  let st' := stepAnimation st dt in
  space st' = SpaceS
  /\ active (anim st') = false
  /\ s_t st' = tangentAt (a + ang * dt / 0.35).
Proof.
  intros Hs Hact Hrot Hp Ht Hdone. cbv zeta.
  rewrite (stepAnimation_turn_S st _ a dt Hs Hact Hrot Hp Ht).
  cbn [rot_from rot_to rot_elapsed rot_duration].
  rewrite clamp_unit_top.
  - rewrite leb_true by lra. repeat split. exact Hs.
  - apply Rmult_le_reg_r with 0.35; [lra|].
    unfold Rdiv. rewrite Rmult_assoc, Rinv_l by lra. lra.
Qed.

Lemma heading_of_tangent (st : EngineState) (a : R) :
  space st = SpaceS ->
  s_t st = tangentAt a ->
  frogHeadingWorldDir st = mkVec2 (cos a) (sin a).
Proof.
  intros Hs Ht. unfold frogHeadingWorldDir. rewrite Hs, Ht.
  unfold tangentAt, sphereToWorld2. cbn [wx wy].
  apply norm2_unit. cbn [vx vy]. apply cos2_sin2.
Qed.

(** C2 (the spherical model).  From the initial spherical state a
    quarter turn over 0.35 s is scheduled and the animation is stepped
    with eleven frames of 0.033 s, the frame time of the main loop.
    The frame times add up to 0.363 s, the job ends, and the tangent has
    been turned by [PI/2 * 0.363/0.35]: the angle between the final and
    the initial heading is past the target [PI/2] by more than 0.05
    rad, and the first coordinate of the heading is negative where the
    target direction has 0. *)
Theorem turn_S_overshoots :
  let st0 := buildTurnAnim (createInitialState SpaceS) 90 0.35 in
  let st' := stepAll st0 (repeat 0.033 11) in
  let theta := PI / 2 * (0.363 / 0.35) in
  0.35 <= sumR (repeat 0.033 11)
  /\ frogHeadingWorldDir (createInitialState SpaceS) = mkVec2 (cos 0) (sin 0)
  /\ active (anim st') = false
  /\ s_t st' = tangentAt theta
  /\ frogHeadingWorldDir st' = mkVec2 (cos theta) (sin theta)
  /\ acos (dot2 (frogHeadingWorldDir st')
                (frogHeadingWorldDir (createInitialState SpaceS))) = theta
  /\ 0.05 < theta - PI / 2
  /\ cos theta < 0.
Proof.
  cbv zeta.
  destruct createInitialState_S as [Hp0 Ht0].
  pose proof PI2_3_2 as Hpi. pose proof PI_4 as Hpi4.
  assert (H10 : INR 10 = 10) by (simpl; lra).
  assert (Hrun : exists st10,
            stepAll (buildTurnAnim (createInitialState SpaceS) 90 0.35)
                    (repeat 0.033 11) = stepAnimation st10 0.033
            /\ space st10 = SpaceS
            /\ active (anim st10) = true
            /\ rotate (anim st10)
               = Some (mkRotate 0 (90 * PI / 180) (0 + INR 10 * 0.033) 0.35)
            /\ s_p st10 = northPole
            /\ s_t st10
               = tangentAt (0 + INR 10 * (90 * PI / 180 * 0.033 / 0.35))).
  { eexists. split.
    - change (repeat 0.033 11) with (0.033 :: repeat 0.033 10).
      rewrite (repeat_cons 10 0.033), stepAll_app. reflexivity.
    - apply stepAll_turn_S_running.
      + reflexivity.
      + reflexivity.
      + reflexivity.
      + exact Hp0.
      + exact Ht0.
      + lra.
      + rewrite H10. lra. }
  destruct Hrun as (st10 & -> & Hs & Hact & Hrot & Hp & Ht).
  destruct (stepAnimation_turn_S_last st10 _ _ _ 0.033 Hs Hact Hrot Hp Ht)
    as (Hs' & Hact' & Ht'); [rewrite H10; lra|].
  assert (Hth : 0 + INR 10 * (90 * PI / 180 * 0.033 / 0.35)
                + 90 * PI / 180 * 0.033 / 0.35
                = PI / 2 * (0.363 / 0.35)) by (rewrite H10; lra).
  rewrite Hth in Ht'.
  assert (Hdir0 : frogHeadingWorldDir (createInitialState SpaceS)
                  = mkVec2 (cos 0) (sin 0))
    by (apply heading_of_tangent; [reflexivity | exact Ht0]).
  assert (Hdir : frogHeadingWorldDir (stepAnimation st10 0.033)
                 = mkVec2 (cos (PI / 2 * (0.363 / 0.35)))
                          (sin (PI / 2 * (0.363 / 0.35))))
    by (apply heading_of_tangent; assumption).
  split; [|split; [|split; [|split; [|split; [|split; [|split]]]]]].
  - unfold sumR. cbn [repeat fold_right]. lra.
  - exact Hdir0.
  - exact Hact'.
  - exact Ht'.
  - exact Hdir.
  - rewrite Hdir, Hdir0, cos_0, sin_0. unfold dot2. cbn [vx vy].
    replace (cos (PI / 2 * (0.363 / 0.35)) * 1
             + sin (PI / 2 * (0.363 / 0.35)) * 0)
      with (cos (PI / 2 * (0.363 / 0.35))) by ring.
    apply acos_cos. lra.
  - lra.
  - apply cos_lt_0; lra.
Qed.

End SphereTurning.

(** ** Angles in the hyperbolic disk *)

Section HyperbolicAngles.

Lemma INR_30 : INR 30 = 30.
Proof. simpl. lra. Qed.

Lemma vec2_neq_coords (a b : Vec2) :
  a <> b -> vx a - vx b <> 0 \/ vy a - vy b <> 0.
Proof.
  intros Hab. destruct a as [ax ay], b as [bx by_]. simpl.
  destruct (Req_dec_T ax bx) as [Hx|Hx]; [|left; lra].
  destruct (Req_dec_T ay by_) as [Hy|Hy]; [|right; lra].
  exfalso. apply Hab. now subst.
Qed.

Lemma norm2_pos (v : Vec2) :
  0 < hypot2 v -> norm2 v = unit2 v.
Proof.
  intros Hv. unfold norm2, unit2. rewrite ltb_true by assumption.
  unfold mul2. apply vec2_eq; unfold Rdiv; ring.
Qed.

Lemma norm2_zero : norm2 (mkVec2 0 0) = mkVec2 1 0.
Proof.
  unfold norm2, hypot2. simpl.
  rewrite hypot_axis by lra. rewrite ltb_false by lra. reflexivity.
Qed.

Lemma norm2_axis_pos (a : R) : 0 < a -> norm2 (mkVec2 a 0) = mkVec2 1 0.
Proof.
  intros Ha. unfold norm2, hypot2. simpl. rewrite hypot_axis by lra.
  rewrite ltb_true by assumption. unfold mul2. simpl.
  apply vec2_eq; field; lra.
Qed.

Lemma norm2_axis_neg (a : R) : a < 0 -> norm2 (mkVec2 a 0) = mkVec2 (-1) 0.
Proof.
  intros Ha. unfold norm2, hypot2. simpl. rewrite hypot_axis_neg by lra.
  rewrite ltb_true by lra. unfold mul2. simpl.
  apply vec2_eq; field; lra.
Qed.

Lemma keepInDisk_inside (p : Vec2) : dot2 p p < 0.999 -> keepInDisk p = p.
Proof. intros Hp. unfold keepInDisk. now rewrite ltb_true. Qed.

Lemma keepInDisk_axis_far (a : R) :
  0 < a -> 0.999 <= a * a -> keepInDisk (mkVec2 a 0) = mkVec2 0.999 0.
Proof.
  intros Ha Hfar. unfold keepInDisk, dot2. simpl.
  rewrite ltb_false by lra. rewrite norm2_axis_pos by assumption.
  unfold mul2. simpl. apply vec2_eq; lra.
Qed.

(** The samples of a hyperbolic geodesic whose end points are aligned
    with the origin. *)
Lemma hyperbolicGeodesicPoints_collinear (a b : Vec2) (n i : nat) :
  Rabs (vx a * vy b - vy a * vx b) < 1e-6 ->
  (i <= n)%nat ->
  nth i (hyperbolicGeodesicPoints a b n) (mkVec2 0 0)
  = keepInDisk (add2 (mul2 a (1 - INR i / INR n)) (mul2 b (INR i / INR n))).
Proof.
  intros Hcross Hi. unfold hyperbolicGeodesicPoints, JsMath.abs.
  rewrite ltb_true by assumption. now rewrite for_upto_nth.
Qed.

(** [angleHand] in the hyperbolic model is the Euclidean-direction
    formula on the raw coordinates. *)
Lemma angleHand_H_euclidean (A B C : Vec2) :
  A <> B -> C <> B ->
  App.angleHand SpaceH A B C = euclideanDirectionAngle A B C.
Proof.
  intros HAB HCB.
  apply vec2_neq_coords in HAB. apply vec2_neq_coords in HCB.
  pose proof (hypot_pos _ _ HAB) as Hu. pose proof (hypot_pos _ _ HCB) as Hv.
  unfold App.angleHand, euclideanDirectionAngle. cbv zeta.
  cbn [vx vy]. rewrite !orElse_pos by assumption.
  unfold unit2, sub2, dot2, hypot2, App.clamp, clamp. cbn [vx vy].
  do 3 f_equal. field. lra.
Qed.

(** With the vertex at the origin, where the geodesics are diameters,
    [angleAt] gives the same angle as the Euclidean-direction formula. *)
Lemma angleAt_H_vertex_origin (A C : Vec2) :
  sqnorm A < 1 -> sqnorm C < 1 ->
  A <> mkVec2 0 0 -> C <> mkVec2 0 0 ->
  angleAt SpaceH A (mkVec2 0 0) C
  = euclideanDirectionAngle A (mkVec2 0 0) C.
Proof.
  intros HA HC HA0 HC0.
  assert (Hside : forall P, sqnorm P < 1 -> P <> mkVec2 0 0 ->
            norm2 (sub2 (nth 1 (hyperbolicGeodesicPoints (mkVec2 0 0) P 30)
                              (mkVec2 0 0))
                        (nth 0 (hyperbolicGeodesicPoints (mkVec2 0 0) P 30)
                              (mkVec2 0 0)))
            = unit2 (sub2 P (mkVec2 0 0))).
  { intros P HP HP0. unfold sqnorm in HP.
    apply vec2_neq_coords in HP0. cbn [vx vy] in HP0.
    assert (Hhp : 0 < JsMath.hypot (vx P) (vy P)).
    { apply hypot_pos. destruct HP0; [left|right]; lra. }
    pose proof (hypot_sqr (vx P) (vy P)) as Hsq.
    rewrite !hyperbolicGeodesicPoints_collinear; try lia.
    2,3: (cbn [vx vy]; replace (0 * vy P - 0 * vx P) with 0 by ring;
          rewrite Rabs_R0; lra).
    rewrite INR_30. replace (INR 1) with 1 by reflexivity.
    replace (INR 0) with 0 by reflexivity.
    rewrite !keepInDisk_inside.
    2,3: (unfold dot2, add2, mul2; cbn [vx vy]; nra).
    unfold sub2, add2, mul2. cbn [vx vy].
    assert (Hscaled : JsMath.hypot
              (0 * (1 - 1 / 30) + vx P * (1 / 30)
               - (0 * (1 - 0 / 30) + vx P * (0 / 30)))
              (0 * (1 - 1 / 30) + vy P * (1 / 30)
               - (0 * (1 - 0 / 30) + vy P * (0 / 30)))
            = JsMath.hypot (vx P) (vy P) / 30).
    { set (h := JsMath.hypot (vx P) (vy P)) in *.
      unfold JsMath.hypot.
      match goal with
      | |- sqrt ?e = _ => replace e with (h / 30 * (h / 30)) by nra
      end.
      apply sqrt_square. lra. }
    rewrite norm2_pos.
    - unfold unit2, hypot2. cbn [vx vy]. rewrite Hscaled.
      replace (vx P - 0) with (vx P) by ring.
      replace (vy P - 0) with (vy P) by ring.
      apply vec2_eq; field; lra.
    - unfold hypot2. cbn [vx vy]. rewrite Hscaled. lra. }
  unfold angleAt, euclideanDirectionAngle. cbv zeta.
  now rewrite (Hside A HA HA0), (Hside C HC HC0).
Qed.

(** C4, as amended.  For distinct points, [angleHand] in the hyperbolic
    model is arccos of the clamped dot product of the unit vectors along
    [A - B] and [C - B]; [angleAt] gives that same value when the vertex
    [B] is the origin. *)
Theorem hyperbolic_angle_amended (A B C : Vec2) :
  sqnorm A < 1 -> sqnorm C < 1 ->
  A <> B -> C <> B ->
  App.angleHand SpaceH A B C = euclideanDirectionAngle A B C
  /\ (B = mkVec2 0 0 ->
      angleAt SpaceH A B C = euclideanDirectionAngle A B C).
Proof.
  intros HA HC HAB HCB. split.
  - now apply angleHand_H_euclidean.
  - intros ->. now apply angleAt_H_vertex_origin.
Qed.

Lemma hyperbolic_angle_amended_witness :
  App.angleHand SpaceH (mkVec2 0.5 0) (mkVec2 0 0) (mkVec2 0 0.5)
  = euclideanDirectionAngle (mkVec2 0.5 0) (mkVec2 0 0) (mkVec2 0 0.5)
  /\ (mkVec2 0 0 = mkVec2 0 0 ->
      angleAt SpaceH (mkVec2 0.5 0) (mkVec2 0 0) (mkVec2 0 0.5)
      = euclideanDirectionAngle (mkVec2 0.5 0) (mkVec2 0 0) (mkVec2 0 0.5)).
Proof.
  apply hyperbolic_angle_amended.
  - unfold sqnorm. cbn [vx vy]. lra.
  - unfold sqnorm. cbn [vx vy]. lra.
  - intros Heq. apply (f_equal vx) in Heq. cbn [vx] in Heq. lra.
  - intros Heq. apply (f_equal vy) in Heq. cbn [vy] in Heq. lra.
Defined.

(** Near the boundary [angleAt] departs from the Euclidean formula even
    on a diameter: with the vertex B = (0.9997, 0), A = (0.9996, 0) and
    C = (0, 0), all inside the disk, the Euclidean formula gives 0 (both
    directions are (-1, 0)), while [angleAt] returns [PI]: the first two
    samples of the geodesic from B to A are both rescaled to (0.999, 0),
    so its direction falls back to (1, 0). *)
Lemma angleAt_H_not_euclidean :
  let A := mkVec2 0.9996 0 in
  let B := mkVec2 0.9997 0 in
  let C := mkVec2 0 0 in
  sqnorm A < 1 /\ sqnorm B < 1 /\ sqnorm C < 1
  /\ angleAt SpaceH A B C = PI
  /\ euclideanDirectionAngle A B C = 0
  /\ angleAt SpaceH A B C <> euclideanDirectionAngle A B C.
Proof.
  cbv zeta.
  assert (Hat : angleAt SpaceH (mkVec2 0.9996 0) (mkVec2 0.9997 0) (mkVec2 0 0)
                = PI).
  { unfold angleAt. cbv zeta.
    rewrite !hyperbolicGeodesicPoints_collinear; try lia.
    2-5: (cbn [vx vy];
          match goal with
          | |- Rabs ?e < _ => replace e with 0 by ring
          end; rewrite Rabs_R0; lra).
    rewrite INR_30. replace (INR 1) with 1 by reflexivity.
    replace (INR 0) with 0 by reflexivity.
    unfold add2, mul2. cbn [vx vy].
    replace (0 * (1 - 1 / 30) + 0 * (1 / 30)) with 0 by lra.
    replace (0 * (1 - 0 / 30) + 0 * (0 / 30)) with 0 by lra.
    rewrite (keepInDisk_axis_far (0.9997 * (1 - 1 / 30) + 0.9996 * (1 / 30)))
      by lra.
    rewrite (keepInDisk_axis_far (0.9997 * (1 - 0 / 30) + 0.9996 * (0 / 30)))
      by lra.
    rewrite (keepInDisk_axis_far (0.9997 * (1 - 0 / 30) + 0 * (0 / 30)))
      by lra.
    rewrite (keepInDisk_inside
               (mkVec2 (0.9997 * (1 - 1 / 30) + 0 * (1 / 30)) 0))
      by (unfold dot2; cbn [vx vy]; lra).
    unfold sub2. cbn [vx vy].
    replace (0.999 - 0.999) with 0 by lra. replace (0 - 0) with 0 by lra.
    rewrite norm2_zero. rewrite norm2_axis_neg by lra.
    unfold dot2. cbn [vx vy].
    replace (1 * -1 + 0 * 0) with (-1) by lra.
    rewrite clamp_id by lra. unfold acos.
    destruct (Rle_dec (-1) (-1)) as [_|Hn]; [reflexivity | lra]. }
  assert (Heu : euclideanDirectionAngle (mkVec2 0.9996 0) (mkVec2 0.9997 0)
                                        (mkVec2 0 0) = 0).
  { unfold euclideanDirectionAngle, sub2. cbn [vx vy].
    replace (0 - 0) with 0 by lra.
    rewrite <- !norm2_pos by (unfold hypot2; cbn [vx vy];
                              rewrite hypot_axis_neg; lra).
    rewrite !norm2_axis_neg by lra.
    unfold dot2. cbn [vx vy].
    replace (-1 * -1 + 0 * 0) with 1 by lra.
    rewrite clamp_id by lra. apply acos_1. }
  unfold sqnorm. cbn [vx vy]. repeat split; try lra; try assumption.
  rewrite Hat, Heu. pose proof PI_RGT_0. lra.
Qed.

(** A vertex away from the origin: the geodesic leaves B = (0.5, 0)
    for A = (0, 0.5) along a circle of centre (1.25, 1.25). *)

Lemma atan2_third_quadrant (x y : R) :
  x < 0 -> y < 0 -> JsMath.atan2 y x = atan (y / x) - PI.
Proof.
  intros Hx Hy. unfold JsMath.atan2.
  rewrite (ltb_false 0 x), (ltb_true x 0), (leb_false 0 y) by lra.
  reflexivity.
Qed.

Lemma alpha_range : PI / 4 < alpha < PI / 2.
Proof.
  unfold alpha. split.
  - rewrite <- atan_1. apply atan_increasing. lra.
  - apply atan_bound.
Qed.

Lemma atan_three_fifths : atan (3 / 5) = PI / 2 - alpha.
Proof.
  unfold alpha. replace (3 / 5) with (/ (5 / 3)) by field.
  apply atan_inv. lra.
Qed.

Lemma delta_range : - (1 / 15) < delta < 0.
Proof.
  unfold delta. rewrite atan_three_fifths. fold alpha.
  pose proof alpha_range. pose proof PI_4. split; lra.
Qed.

Lemma sin_delta_range : - (1 / 15) < sin delta < 0.
Proof.
  pose proof delta_range as Hd. pose proof PI2_1 as Hpi. split.
  - pose proof (sin_lt_x (- delta)) as Hs. rewrite sin_neg in Hs. lra.
  - apply sin_lt_0_var; lra.
Qed.

Lemma cos_delta_range : 0.99 < cos delta <= 1.
Proof.
  pose proof delta_range as Hd. pose proof PI2_1 as Hpi.
  pose proof sin_delta_range as Hs. pose proof (cos2_sin2 delta) as Hcs.
  pose proof (COS_bound delta) as Hc.
  assert (0 < cos delta) by (apply cos_gt_0; lra).
  split; [nra | lra].
Qed.

(** Radius times cosine and sine of the start angle. *)
Lemma start_angle :
  JsMath.hypot (-0.75) (-1.25) * cos (alpha - PI) = - 0.75
  /\ JsMath.hypot (-0.75) (-1.25) * sin (alpha - PI) = - 1.25.
Proof.
  unfold alpha. set (k := sqrt (1 + (5 / 3)²)).
  assert (Hk2 : k * k = 34 / 9).
  { unfold k. rewrite sqrt_sqrt; unfold Rsqr; lra. }
  assert (Hk : 0 < k).
  { unfold k. apply sqrt_lt_R0. unfold Rsqr. lra. }
  assert (Hr : JsMath.hypot (-0.75) (-1.25) = 3 / 4 * k).
  { unfold JsMath.hypot.
    replace (-0.75 * -0.75 + -1.25 * -1.25) with (3 / 4 * k * (3 / 4 * k))
      by lra.
    apply sqrt_square. lra. }
  rewrite Hr.
  replace (atan (5 / 3) - PI) with (- (PI - atan (5 / 3))) by ring.
  rewrite cos_neg, sin_neg.
  replace (PI - atan (5 / 3)) with (- atan (5 / 3) + PI) by ring.
  rewrite neg_cos, neg_sin, cos_neg, sin_neg.
  rewrite cos_atan, sin_atan. fold k.
  assert (Hinv : k * / k = 1) by (apply Rinv_r; lra).
  unfold Rdiv. split; nra.
Qed.

(** The samples of a hyperbolic geodesic on its circle, when the end
    points are not aligned with the origin. *)
Lemma hyperbolicGeodesicPoints_arc (a b : Vec2) (n i : nat)
                                   (cx cy r angA d : R) :
  ~ Rabs (vx a * vy b - vy a * vx b) < 1e-6 ->
  cx = ((dot2 a a + 1) / 2 * vy b - vy a * ((dot2 b b + 1) / 2))
       / (vx a * vy b - vy a * vx b) ->
  cy = (vx a * ((dot2 b b + 1) / 2) - (dot2 a a + 1) / 2 * vx b)
       / (vx a * vy b - vy a * vx b) ->
  r = JsMath.hypot (vx a - cx) (vy a - cy) ->
  angA = JsMath.atan2 (vy a - cy) (vx a - cx) ->
  - PI <= JsMath.atan2 (vy b - cy) (vx b - cx) - angA <= PI ->
  d = JsMath.atan2 (vy b - cy) (vx b - cx) - angA ->
  (i <= n)%nat ->
  nth i (hyperbolicGeodesicPoints a b n) (mkVec2 0 0)
  = keepInDisk (mkVec2 (cx + r * cos (angA + d * (INR i / INR n)))
                       (cy + r * sin (angA + d * (INR i / INR n)))).
Proof.
  intros Hcross -> -> -> -> Hrange -> Hi.
  unfold hyperbolicGeodesicPoints, JsMath.abs. cbv zeta.
  rewrite ltb_false by assumption.
  rewrite for_upto_nth by assumption.
  rewrite while_gt_sub_idle by lra.
  rewrite while_lt_add_idle by lra.
  reflexivity.
Qed.

Lemma geodesic_BA_sample (i : nat) :
  (i <= 30)%nat ->
  nth i (hyperbolicGeodesicPoints (mkVec2 0.5 0) (mkVec2 0 0.5) 30)
      (mkVec2 0 0)
  = keepInDisk
      (mkVec2 (1.25 + JsMath.hypot (-0.75) (-1.25)
                      * cos (alpha - PI + 30 * delta * (INR i / INR 30)))
              (1.25 + JsMath.hypot (-0.75) (-1.25)
                      * sin (alpha - PI + 30 * delta * (INR i / INR 30)))).
Proof.
  intros Hi.
  pose proof alpha_range as Ha. pose proof PI_RGT_0 as Hpi.
  assert (HangA : JsMath.atan2 (0 - 1.25) (0.5 - 1.25) = alpha - PI).
  { rewrite atan2_third_quadrant by lra. unfold alpha.
    do 2 f_equal. lra. }
  assert (HangB : JsMath.atan2 (0.5 - 1.25) (0 - 1.25) = atan (3 / 5) - PI).
  { rewrite atan2_third_quadrant by lra. do 2 f_equal. lra. }
  apply hyperbolicGeodesicPoints_arc; cbn [vx vy]; unfold dot2; cbn [vx vy].
  - rewrite Rabs_right by lra. lra.
  - lra.
  - lra.
  - f_equal; lra.
  - symmetry. exact HangA.
  - rewrite HangB, atan_three_fifths. lra.
  - rewrite HangB. unfold delta. fold alpha. lra.
  - exact Hi.
Qed.

Lemma geodesic_BA_first :
  nth 0 (hyperbolicGeodesicPoints (mkVec2 0.5 0) (mkVec2 0 0.5) 30)
      (mkVec2 0 0)
  = mkVec2 0.5 0.
Proof.
  rewrite geodesic_BA_sample by lia.
  replace (alpha - PI + 30 * delta * (INR 0 / INR 30)) with (alpha - PI)
    by (replace (INR 0) with 0 by reflexivity; unfold Rdiv; ring).
  destruct start_angle as [-> ->].
  replace (1.25 + - 0.75) with 0.5 by lra.
  replace (1.25 + - 1.25) with 0 by lra.
  apply keepInDisk_inside. unfold dot2. cbn [vx vy]. lra.
Qed.

Lemma geodesic_BA_second :
  nth 1 (hyperbolicGeodesicPoints (mkVec2 0.5 0) (mkVec2 0 0.5) 30)
      (mkVec2 0 0)
  = mkVec2 (1.25 - 0.75 * cos delta + 1.25 * sin delta)
           (1.25 - 1.25 * cos delta - 0.75 * sin delta).
Proof.
  rewrite geodesic_BA_sample by lia.
  replace (alpha - PI + 30 * delta * (INR 1 / INR 30))
    with (alpha - PI + delta)
    by (rewrite INR_30; replace (INR 1) with 1 by reflexivity; field).
  rewrite cos_plus, sin_plus.
  destruct start_angle as [Hc Hs].
  set (r := JsMath.hypot (-0.75) (-1.25)) in *.
  replace (r * (cos (alpha - PI) * cos delta - sin (alpha - PI) * sin delta))
    with (r * cos (alpha - PI) * cos delta - r * sin (alpha - PI) * sin delta)
    by ring.
  replace (r * (sin (alpha - PI) * cos delta + cos (alpha - PI) * sin delta))
    with (r * sin (alpha - PI) * cos delta + r * cos (alpha - PI) * sin delta)
    by ring.
  rewrite Hc, Hs.
  pose proof sin_delta_range as Hsd. pose proof cos_delta_range as Hcd.
  rewrite keepInDisk_inside.
  - apply vec2_eq; lra.
  - unfold dot2. cbn [vx vy]. nra.
Qed.

Lemma acos_clamp_inj (u w : R) :
  acos (clamp u (-1) 1) = acos (clamp w (-1) 1) ->
  clamp u (-1) 1 = clamp w (-1) 1.
Proof.
  intros Heq.
  rewrite <- (cos_acos (clamp u (-1) 1)) by apply clamp_range.
  rewrite <- (cos_acos (clamp w (-1) 1)) by apply clamp_range.
  now rewrite Heq.
Qed.

(** The first coordinate of a unit vector, squared. *)
Lemma unit2_x_sqr (v : Vec2) :
  0 < hypot2 v ->
  vx (unit2 v) * vx (unit2 v) * (vx v * vx v + vy v * vy v) = vx v * vx v.
Proof.
  intros Hv. pose proof (hypot2_sqr v) as Hsq. unfold sqnorm in Hsq.
  unfold unit2. cbn [vx]. rewrite <- Hsq. field. lra.
Qed.

Lemma unit2_range (v : Vec2) :
  0 < hypot2 v -> -1 <= vx (unit2 v) <= 1.
Proof.
  intros Hv. pose proof (unit2_x_sqr v Hv) as Hx.
  pose proof (hypot2_sqr v) as Hsq. unfold sqnorm in Hsq.
  assert (Hle : vx (unit2 v) * vx (unit2 v) <= 1).
  { apply Rmult_le_reg_r with (vx v * vx v + vy v * vy v); [nra|].
    rewrite Hx. nra. }
  split; nra.
Qed.

Lemma euclideanDirectionAngle_example :
  euclideanDirectionAngle (mkVec2 0 0.5) (mkVec2 0.5 0) (mkVec2 0 0) = PI / 4.
Proof.
  unfold euclideanDirectionAngle, sub2. cbn [vx vy].
  replace (0 - 0) with 0 by lra.
  rewrite <- (norm2_pos (mkVec2 (0 - 0.5) 0))
    by (unfold hypot2; cbn [vx vy]; rewrite hypot_axis_neg; lra).
  rewrite norm2_axis_neg by lra.
  unfold unit2, hypot2, dot2, JsMath.hypot. cbn [vx vy].
  replace ((0 - 0.5) * (0 - 0.5) + (0.5 - 0) * (0.5 - 0)) with (/ 2) by lra.
  rewrite sqrt_inv.
  assert (Hs2 : sqrt 2 * sqrt 2 = 2) by (apply sqrt_sqrt; lra).
  assert (Hpos : 0 < sqrt 2) by (apply sqrt_lt_R0; lra).
  replace ((0 - 0.5) / / sqrt 2 * -1 + (0.5 - 0) / / sqrt 2 * 0)
    with (/ sqrt 2).
  - rewrite clamp_id; [apply acos_inv_sqrt2|].
    assert (/ sqrt 2 * sqrt 2 = 1) by (apply Rinv_l; lra).
    assert (0 < / sqrt 2) by (apply Rinv_0_lt_compat; lra).
    split; nra.
  - apply Rmult_eq_reg_r with (sqrt 2); [|lra].
    rewrite Rinv_l by lra. unfold Rdiv. rewrite Rinv_inv. nra.
Qed.

(** Counterexample to C4: at the vertex B = (0.5, 0), with A = (0, 0.5)
    and C = (0, 0), the Euclidean formula gives [PI/4] and so does
    [angleHand], while [angleAt] follows the geodesic from B to A, an
    arc of the circle of centre (1.25, 1.25), and returns another
    angle. *)
Lemma angleAt_H_differs_off_origin :
  let A := mkVec2 0 0.5 in
  let B := mkVec2 0.5 0 in
  let C := mkVec2 0 0 in
  sqnorm A < 1 /\ sqnorm B < 1 /\ sqnorm C < 1
  /\ euclideanDirectionAngle A B C = PI / 4
  /\ App.angleHand SpaceH A B C = euclideanDirectionAngle A B C
  /\ angleAt SpaceH A B C <> euclideanDirectionAngle A B C.
Proof.
  cbv zeta.
  split; [unfold sqnorm; cbn [vx vy]; lra|].
  split; [unfold sqnorm; cbn [vx vy]; lra|].
  split; [unfold sqnorm; cbn [vx vy]; lra|].
  split; [apply euclideanDirectionAngle_example|].
  split.
  { apply angleHand_H_euclidean; intros Heq; apply (f_equal vx) in Heq;
      cbn [vx] in Heq; lra. }
  pose proof sin_delta_range as Hsd. pose proof cos_delta_range as Hcd.
  pose proof (cos2_sin2 delta) as Hcs.
  unfold angleAt, euclideanDirectionAngle. cbv zeta.
  rewrite geodesic_BA_first, geodesic_BA_second.
  rewrite !hyperbolicGeodesicPoints_collinear; try lia.
  2,3: (cbn [vx vy]; replace (0.5 * 0 - 0 * 0) with 0 by ring;
        rewrite Rabs_R0; lra).
  rewrite INR_30. replace (INR 1) with 1 by reflexivity.
  replace (INR 0) with 0 by reflexivity.
  rewrite !keepInDisk_inside
    by (unfold dot2, add2, mul2; cbn [vx vy]; lra).
  unfold sub2, add2, mul2. cbn [vx vy].
  (* the direction towards C is (-1, 0) on both sides *)
  replace (0.5 * (1 - 1 / 30) + 0 * (1 / 30)
           - (0.5 * (1 - 0 / 30) + 0 * (0 / 30))) with (- (1 / 60)) by lra.
  replace (0 * (1 - 1 / 30) + 0 * (1 / 30)
           - (0 * (1 - 0 / 30) + 0 * (0 / 30))) with 0 by lra.
  rewrite norm2_axis_neg by lra.
  replace (0 - 0) with 0 by lra.
  rewrite <- (norm2_pos (mkVec2 (0 - 0.5) 0))
    by (unfold hypot2; cbn [vx vy]; rewrite hypot_axis_neg; lra).
  rewrite norm2_axis_neg by lra.
  set (dx := 1.25 - 0.75 * cos delta + 1.25 * sin delta - 0.5).
  set (dy := 1.25 - 1.25 * cos delta - 0.75 * sin delta - 0).
  set (D := mkVec2 dx dy).
  set (E := mkVec2 (0 - 0.5) (0.5 - 0)).
  assert (Hdy : 0 < dy) by (unfold dy; nra).
  assert (HD : 0 < hypot2 D) by (apply hypot_pos; right; cbn [D vy]; lra).
  assert (HE : 0 < hypot2 E) by (apply hypot_pos; left; cbn [E vx]; lra).
  rewrite (norm2_pos D HD).
  intros Heq. apply acos_clamp_inj in Heq.
  pose proof (unit2_range D HD) as HrD. pose proof (unit2_range E HE) as HrE.
  pose proof (unit2_x_sqr D HD) as HxD. pose proof (unit2_x_sqr E HE) as HxE.
  unfold dot2 in Heq. cbn [vx vy] in Heq.
  set (u := vx (unit2 D)) in *. set (w := vx (unit2 E)) in *.
  rewrite !clamp_id in Heq by lra.
  assert (Hsame : u = w) by lra.
  change (vx D) with dx in HxD. change (vy D) with dy in HxD.
  change (vx E) with (0 - 0.5) in HxE. change (vy E) with (0.5 - 0) in HxE.
  assert (Hw : w * w = 1 / 2) by lra.
  rewrite Hsame, Hw in HxD.
  (* so the chord would have equal coordinates in absolute value *)
  assert (Hfac : (dx - dy) * (dx + dy) = 0) by lra.
  assert (Hminus : dx - dy < 0) by (unfold dx, dy; lra).
  assert (Hplus : dx + dy < 0) by (unfold dx, dy; nra).
  nra.
Qed.

End HyperbolicAngles.

(** ** Full lines on the sphere *)

Section GreatCircles.

Lemma v3unit_unit (w : Vec3) :
  wx w * wx w + wy w * wy w + wz w * wz w = 1 -> v3unit w = w.
Proof.
  intros Hw. unfold v3unit, v3norm, JsMath.hypot3. rewrite Hw, sqrt_1.
  rewrite orElse_pos by lra. destruct w as [a b c]. cbn [wx wy wz].
  apply vec3_eq; field.
Qed.

(** *** The lift *)

Lemma hemisphereLift_on_sphere (p : Vec2) :
  sqnorm p <= 1 ->
  let A := hemisphereLift p in
  scalarProduct A A = 1 /\ 0 <= wz A /\ project A = p.
Proof.
  intros Hp. cbv zeta. unfold hemisphereLift, scalarProduct, project.
  destruct p as [x y]. unfold sqnorm in Hp. cbn [vx vy wx wy wz] in *.
  split; [|split; [apply sqrt_pos | reflexivity]].
  rewrite sqrt_sqrt by lra. ring.
Qed.

Lemma liftToUpperHemisphere_lift (p : Vec2) :
  sqnorm p <= 1 -> liftToUpperHemisphere p = hemisphereLift p.
Proof.
  intros Hp. destruct (hemisphereLift_on_sphere p Hp) as (Hunit & _ & _).
  unfold liftToUpperHemisphere. cbv zeta.
  unfold sqnorm in Hp. unfold JsMath.max. rewrite Rmax_right by lra.
  apply v3unit_unit. exact Hunit.
Qed.

Lemma lift_origin : liftToUpperHemisphere (mkVec2 0 0) = mkVec3 0 0 1.
Proof.
  unfold liftToUpperHemisphere. cbn [vx vy].
  replace (1 - (0 * 0 + 0 * 0)) with 1 by ring.
  unfold JsMath.max. rewrite Rmax_right by lra. rewrite sqrt_1.
  apply v3unit_unit. cbn [wx wy wz]. ring.
Qed.

Lemma lift_east : liftToUpperHemisphere (mkVec2 1 0) = mkVec3 1 0 0.
Proof.
  unfold liftToUpperHemisphere. cbn [vx vy].
  replace (1 - (1 * 1 + 0 * 0)) with 0 by ring.
  unfold JsMath.max. rewrite Rmax_left by lra. rewrite sqrt_0.
  apply v3unit_unit. cbn [wx wy wz]. ring.
Qed.

Lemma hemisphereLift_origin : hemisphereLift (mkVec2 0 0) = mkVec3 0 0 1.
Proof.
  unfold hemisphereLift. cbn [vx vy].
  replace (1 - (0 * 0 + 0 * 0)) with 1 by ring. now rewrite sqrt_1.
Qed.

Lemma hemisphereLift_east : hemisphereLift (mkVec2 1 0) = mkVec3 1 0 0.
Proof.
  unfold hemisphereLift. cbn [vx vy].
  replace (1 - (1 * 1 + 0 * 0)) with 0 by ring. now rewrite sqrt_0.
Qed.

Lemma hemisphereLift_north : hemisphereLift (mkVec2 0 1) = mkVec3 0 1 0.
Proof.
  unfold hemisphereLift. cbn [vx vy].
  replace (1 - (0 * 0 + 1 * 1)) with 0 by ring. now rewrite sqrt_0.
Qed.

(** *** The circle of the specification *)

(** The algebra behind the samples: with [n] orthogonal to the unit
    vector [a] and [l] the length of [n], the vector
    [c a + s (n x a) / l] is a unit vector orthogonal to [n]. *)
Lemma frame_point_unit (a1 a2 a3 n1 n2 n3 l c s : R) :
  a1 * a1 + a2 * a2 + a3 * a3 = 1 ->
  n1 * a1 + n2 * a2 + n3 * a3 = 0 ->
  l * l = n1 * n1 + n2 * n2 + n3 * n3 ->
  l <> 0 ->
  c * c + s * s = 1 ->
  let x1 := a1 * c + (n2 * a3 - n3 * a2) / l * s in
  let x2 := a2 * c + (n3 * a1 - n1 * a3) / l * s in
  let x3 := a3 * c + (n1 * a2 - n2 * a1) / l * s in
  x1 * x1 + x2 * x2 + x3 * x3 = 1
  /\ x1 * n1 + x2 * n2 + x3 * n3 = 0.
Proof.
  intros Ha Hna Hl Hl0 Hcs. cbv zeta. unfold Rdiv.
  assert (Hk : / l * l = 1) by (apply Rinv_l; exact Hl0).
  set (k := / l) in *. clearbody k.
  split.
  - replace ((a1 * c + (n2 * a3 - n3 * a2) * k * s)
             * (a1 * c + (n2 * a3 - n3 * a2) * k * s)
             + (a2 * c + (n3 * a1 - n1 * a3) * k * s)
               * (a2 * c + (n3 * a1 - n1 * a3) * k * s)
             + (a3 * c + (n1 * a2 - n2 * a1) * k * s)
               * (a3 * c + (n1 * a2 - n2 * a1) * k * s))
      with (c * c * (a1 * a1 + a2 * a2 + a3 * a3)
            + s * s * (k * k)
              * ((n1 * n1 + n2 * n2 + n3 * n3)
                 * (a1 * a1 + a2 * a2 + a3 * a3)
                 - (n1 * a1 + n2 * a2 + n3 * a3)
                   * (n1 * a1 + n2 * a2 + n3 * a3))) by ring.
    rewrite Ha, Hna, <- Hl.
    replace (c * c * 1 + s * s * (k * k) * (l * l * 1 - 0 * 0))
      with (c * c + s * s * ((k * l) * (k * l))) by ring.
    rewrite Hk. lra.
  - replace ((a1 * c + (n2 * a3 - n3 * a2) * k * s) * n1
             + (a2 * c + (n3 * a1 - n1 * a3) * k * s) * n2
             + (a3 * c + (n1 * a2 - n2 * a1) * k * s) * n3)
      with (c * (n1 * a1 + n2 * a2 + n3 * a3)) by ring.
    rewrite Hna. ring.
Qed.

Lemma vectorProduct_orth (A B : Vec3) :
  scalarProduct (vectorProduct A B) A = 0
  /\ scalarProduct (vectorProduct A B) B = 0
  /\ scalarProduct (vectorProduct A B) (vectorProduct A B)
     = scalarProduct A A * scalarProduct B B
       - scalarProduct A B * scalarProduct A B.
Proof.
  destruct A, B. unfold scalarProduct, vectorProduct. cbn [wx wy wz].
  repeat split; ring.
Qed.

Lemma normal_length (A B : Vec3) :
  let L := sqrt (scalarProduct (vectorProduct A B) (vectorProduct A B)) in
  L * L = scalarProduct (vectorProduct A B) (vectorProduct A B).
Proof.
  cbv zeta. apply sqrt_sqrt. unfold scalarProduct. nra.
Qed.

(** Every point of the parametrisation is on the great circle. *)
Lemma greatCirclePoint_on (A B : Vec3) (t : R) :
  scalarProduct A A = 1 ->
  0 < sqrt (scalarProduct (vectorProduct A B) (vectorProduct A B)) ->
  onGreatCircle A B (greatCirclePoint A B t).
Proof.
  intros HA HL.
  pose proof (normal_length A B) as HLL. cbv zeta in HLL.
  destruct (vectorProduct_orth A B) as (HNA & _ & _).
  unfold onGreatCircle, greatCirclePoint. cbv zeta.
  set (L := sqrt _) in *. clearbody L.
  destruct (vectorProduct A B) as [n1 n2 n3].
  destruct A as [a1 a2 a3].
  unfold scalarProduct, vectorProduct in *. cbn [wx wy wz] in *.
  apply frame_point_unit; try assumption; try lra.
  pose proof (sin2_cos2 t) as Hsc. unfold Rsqr in Hsc. lra.
Qed.

(** The parametrisation starts at [A] and reaches [B] at the angle
    between the two points. *)
Lemma greatCirclePoint_start (A B : Vec3) : greatCirclePoint A B 0 = A.
Proof.
  unfold greatCirclePoint. cbv zeta. rewrite cos_0, sin_0.
  destruct A. cbn [wx wy wz]. apply vec3_eq; ring.
Qed.

Lemma greatCirclePoint_reaches (A B : Vec3) :
  scalarProduct A A = 1 ->
  scalarProduct B B = 1 ->
  0 < sqrt (scalarProduct (vectorProduct A B) (vectorProduct A B)) ->
  greatCirclePoint A B (acos (scalarProduct A B)) = B.
Proof.
  intros HA HB HL.
  destruct (vectorProduct_orth A B) as (_ & _ & HNN).
  rewrite HA, HB in HNN.
  assert (Hpos : 0 <= scalarProduct (vectorProduct A B) (vectorProduct A B))
    by (unfold scalarProduct; nra).
  set (c := scalarProduct A B) in *.
  assert (Hc : -1 <= c <= 1) by (split; nra).
  unfold greatCirclePoint. cbv zeta.
  rewrite cos_acos, sin_acos by exact Hc.
  replace (1 - c²) with
    (scalarProduct (vectorProduct A B) (vectorProduct A B))
    by (unfold Rsqr; lra).
  set (L := sqrt _) in *.
  assert (HL0 : L <> 0) by lra.
  assert (HW : vectorProduct (vectorProduct A B) A
               = mkVec3 (wx B - wx A * c) (wy B - wy A * c)
                        (wz B - wz A * c)).
  { unfold c. clear - HA. destruct A as [a1 a2 a3], B as [b1 b2 b3].
    unfold scalarProduct, vectorProduct in *. cbn [wx wy wz] in *.
    apply vec3_eq.
    - transitivity (b1 * (a1 * a1 + a2 * a2 + a3 * a3)
                    - a1 * (a1 * b1 + a2 * b2 + a3 * b3));
        [ring | rewrite HA; ring].
    - transitivity (b2 * (a1 * a1 + a2 * a2 + a3 * a3)
                    - a2 * (a1 * b1 + a2 * b2 + a3 * b3));
        [ring | rewrite HA; ring].
    - transitivity (b3 * (a1 * a1 + a2 * a2 + a3 * a3)
                    - a3 * (a1 * b1 + a2 * b2 + a3 * b3));
        [ring | rewrite HA; ring]. }
  rewrite HW. cbn [wx wy wz].
  destruct A, B. cbn [wx wy wz]. apply vec3_eq; field; exact HL0.
Qed.

(** Half a turn further is the antipode, a full turn the same point. *)
Lemma greatCirclePoint_half_turn (A B : Vec3) (t : R) :
  greatCirclePoint A B (t + PI) = opp3 (greatCirclePoint A B t).
Proof.
  unfold greatCirclePoint, opp3. cbv zeta. cbn [wx wy wz].
  rewrite neg_cos, neg_sin. apply vec3_eq; unfold Rdiv; ring.
Qed.

Lemma greatCirclePoint_full_turn (A B : Vec3) :
  greatCirclePoint A B (2 * PI) = greatCirclePoint A B 0.
Proof.
  unfold greatCirclePoint. now rewrite cos_2PI, sin_2PI, cos_0, sin_0.
Qed.

(** *** The circle of the code *)

(** The basis built by the code for the plane of two unit vectors is
    [A] and the unit vector [W] of the parametrisation, and the
    renormalisation of a sample leaves it as it is. *)
Lemma code_sample_is_greatCirclePoint (A B : Vec3) (t : R) :
  scalarProduct A A = 1 ->
  0 < sqrt (scalarProduct (vectorProduct A B) (vectorProduct A B)) ->
  let uv := planeBasis (v3unit (v3cross A B)) A in
  circlePoint (fst uv) (snd uv) t = greatCirclePoint A B t.
Proof.
  intros HA HL.
  pose proof (greatCirclePoint_on A B t HA HL) as [Hunit _].
  pose proof (greatCirclePoint_on A B (PI / 2) HA HL) as [HW _].
  pose proof (normal_length A B) as HLL. cbv zeta in HLL.
  destruct (vectorProduct_orth A B) as (HNA & _ & _).
  cbv zeta.
  assert (Hnn : v3unit (v3cross A B)
                = mkVec3 (wx (vectorProduct A B)
                          / sqrt (scalarProduct (vectorProduct A B)
                                                (vectorProduct A B)))
                         (wy (vectorProduct A B)
                          / sqrt (scalarProduct (vectorProduct A B)
                                                (vectorProduct A B)))
                         (wz (vectorProduct A B)
                          / sqrt (scalarProduct (vectorProduct A B)
                                                (vectorProduct A B)))).
  { unfold v3unit. cbv zeta.
    change (v3norm (v3cross A B))
      with (sqrt (scalarProduct (vectorProduct A B) (vectorProduct A B))).
    rewrite orElse_pos by exact HL. reflexivity. }
  rewrite Hnn. clear Hnn.
  unfold greatCirclePoint in *. cbv zeta in *.
  rewrite cos_PI2, sin_PI2 in HW.
  set (L := sqrt _) in *. clearbody L.
  assert (HL0 : L <> 0) by lra.
  destruct (vectorProduct A B) as [n1 n2 n3].
  destruct A as [a1 a2 a3].
  unfold scalarProduct, vectorProduct in *. cbn [wx wy wz] in *.
  assert (Hu : fst (planeBasis (mkVec3 (n1 / L) (n2 / L) (n3 / L))
                               (mkVec3 a1 a2 a3))
               = mkVec3 a1 a2 a3).
  { unfold planeBasis. cbv zeta. cbn [fst].
    unfold v3add, v3scale, v3dot. cbn [wx wy wz].
    replace (a1 * (n1 / L) + a2 * (n2 / L) + a3 * (n3 / L))
      with ((n1 * a1 + n2 * a2 + n3 * a3) / L) by (field; exact HL0).
    rewrite HNA.
    replace (a1 + n1 / L * (0 / L) * -1) with a1 by (field; exact HL0).
    replace (a2 + n2 / L * (0 / L) * -1) with a2 by (field; exact HL0).
    replace (a3 + n3 / L * (0 / L) * -1) with a3 by (field; exact HL0).
    apply v3unit_unit. exact HA. }
  assert (Hv : snd (planeBasis (mkVec3 (n1 / L) (n2 / L) (n3 / L))
                               (mkVec3 a1 a2 a3))
               = mkVec3 ((n2 * a3 - n3 * a2) / L) ((n3 * a1 - n1 * a3) / L)
                        ((n1 * a2 - n2 * a1) / L)).
  { unfold planeBasis in *. cbv zeta in *. cbn [fst snd] in *.
    rewrite Hu. unfold v3cross. cbn [wx wy wz].
    replace (n2 / L * a3 - n3 / L * a2) with ((n2 * a3 - n3 * a2) / L)
      by (field; exact HL0).
    replace (n3 / L * a1 - n1 / L * a3) with ((n3 * a1 - n1 * a3) / L)
      by (field; exact HL0).
    replace (n1 / L * a2 - n2 / L * a1) with ((n1 * a2 - n2 * a1) / L)
      by (field; exact HL0).
    apply v3unit_unit. cbn [wx wy wz].
    etransitivity; [|exact HW]. ring. }
  rewrite Hu, Hv. unfold circlePoint. cbn [wx wy wz].
  apply v3unit_unit. cbn [wx wy wz]. exact Hunit.
Qed.

(** The full line of the code, sample by sample. *)
Lemma greatCircleProjectedClosed_samples (p q : Vec2) (steps : nat) :
  sqnorm p <= 1 -> sqnorm q <= 1 ->
  1e-10 <= sqrt (scalarProduct
                   (vectorProduct (hemisphereLift p) (hemisphereLift q))
                   (vectorProduct (hemisphereLift p) (hemisphereLift q))) ->
  greatCircleProjectedClosed p q steps
  = for_upto steps (fun i =>
      project (greatCirclePoint (hemisphereLift p) (hemisphereLift q)
                 ((2 * PI * INR i) / INR steps))).
Proof.
  intros Hp Hq Hn. unfold greatCircleProjectedClosed. cbv zeta.
  rewrite (liftToUpperHemisphere_lift p Hp), (liftToUpperHemisphere_lift q Hq).
  set (A := hemisphereLift p) in *. set (B := hemisphereLift q) in *.
  change (v3norm (v3cross A B))
    with (sqrt (scalarProduct (vectorProduct A B) (vectorProduct A B))).
  rewrite ltb_false by lra.
  destruct (hemisphereLift_on_sphere p Hp) as (HA & _ & _). fold A in HA.
  assert (Hs : forall t,
            circlePoint (fst (planeBasis (v3unit (v3cross A B)) A))
                        (snd (planeBasis (v3unit (v3cross A B)) A)) t
            = greatCirclePoint A B t).
  { intros t. apply (code_sample_is_greatCirclePoint A B t HA). lra. }
  destruct (planeBasis (v3unit (v3cross A B)) A) as [u v].
  cbn [fst snd] in Hs. unfold for_upto. apply map_ext. intros i.
  rewrite Hs. reflexivity.
Qed.

Lemma greatCircle_antipodal (A B : Vec3) (m i : nat) :
  (0 < m)%nat ->
  greatCirclePoint A B (2 * PI * INR (i + m) / INR (2 * m))
  = opp3 (greatCirclePoint A B (2 * PI * INR i / INR (2 * m))).
Proof.
  intros Hm. rewrite <- greatCirclePoint_half_turn. f_equal.
  rewrite plus_INR, mult_INR. replace (INR 2) with 2 by reflexivity.
  assert (0 < INR m) by (apply lt_0_INR; lia).
  field. lra.
Qed.

(** C5.  For two points [p] and [q] of the closed unit disk whose lifts
    [A] and [B] have a cross product of length at least 1e-10, and at
    least one step, the full spherical line through them is the whole
    great circle through [A] and [B], unclipped: the polyline has
    [steps + 1] points; its point of index [i] is the projection of the
    point of the great circle at arc length [2 PI i / steps] from [A],
    a unit vector of the plane of normal [A x B], kept whatever the
    sign of its height; the parametrisation starts at [A] and passes
    through [B]; the polyline starts at [p] and is closed.  With an
    even number of steps each sample comes with its antipode, so that
    as soon as one sample is off the plane of the disk the samples
    include points of negative and of positive height. *)
Theorem geodesicLineThrough_S_full_circle (p q : Vec2) (steps : nat) :
  sqnorm p <= 1 ->
  sqnorm q <= 1 ->
  (0 < steps)%nat ->
  let A := hemisphereLift p in
  let B := hemisphereLift q in
  1e-10 <= sqrt (scalarProduct (vectorProduct A B) (vectorProduct A B)) ->
  let line := geodesicLineThrough SpaceS p q steps in
  let X := fun i : nat =>
             greatCirclePoint A B ((2 * PI * INR i) / INR steps) in
  List.length line = S steps
  /\ (forall i, (i <= steps)%nat ->
        nth i line origin2 = project (X i) /\ onGreatCircle A B (X i))
  /\ X 0%nat = A
  /\ greatCirclePoint A B (acos (scalarProduct A B)) = B
  /\ hd origin2 line = p
  /\ last line origin2 = p
  /\ (forall m i, steps = (2 * m)%nat -> (i <= steps)%nat ->
        wz (X i) <> 0 ->
        exists j k,
          (j <= steps)%nat /\ (k <= steps)%nat
          /\ wz (X j) < 0 /\ 0 < wz (X k)).
Proof.
  intros Hp Hq Hsteps A B Hn. cbv zeta. unfold geodesicLineThrough.
  rewrite (greatCircleProjectedClosed_samples p q steps Hp Hq Hn).
  fold A B.
  destruct (hemisphereLift_on_sphere p Hp) as (HA & _ & HpA).
  destruct (hemisphereLift_on_sphere q Hq) as (HB & _ & _).
  fold A in HA, HpA. fold B in HB.
  assert (HL : 0 < sqrt (scalarProduct (vectorProduct A B)
                                       (vectorProduct A B))) by lra.
  assert (HS : 0 < INR steps) by (apply lt_0_INR; exact Hsteps).
  assert (H0 : greatCirclePoint A B (2 * PI * INR 0 / INR steps) = A).
  { replace (2 * PI * INR 0 / INR steps) with 0
      by (replace (INR 0) with 0 by reflexivity; field; lra).
    apply greatCirclePoint_start. }
  assert (Hend : greatCirclePoint A B (2 * PI * INR steps / INR steps) = A).
  { replace (2 * PI * INR steps / INR steps) with (2 * PI) by (field; lra).
    rewrite greatCirclePoint_full_turn. apply greatCirclePoint_start. }
  split; [apply for_upto_length|].
  split.
  { intros i Hi. split.
    - rewrite for_upto_nth by assumption. reflexivity.
    - apply greatCirclePoint_on; assumption. }
  split; [exact H0|].
  split; [apply greatCirclePoint_reaches; assumption|].
  split.
  { unfold for_upto. cbn [seq map hd]. rewrite H0. exact HpA. }
  split.
  { rewrite for_upto_last. rewrite Hend. exact HpA. }
  intros m i Hm Hi Hz.
  assert (Hmpos : (0 < m)%nat) by lia.
  (* the antipode of sample [i] is sample [i + m] or [i - m] *)
  assert (Hpair : exists i', (i' <= steps)%nat
            /\ wz (greatCirclePoint A B (2 * PI * INR i' / INR steps))
               = - wz (greatCirclePoint A B (2 * PI * INR i / INR steps))).
  { destruct (le_lt_dec i m) as [Hle|Hgt].
    - exists (i + m)%nat. split; [lia|]. subst steps.
      now rewrite greatCircle_antipodal.
    - exists (i - m)%nat. split; [lia|]. subst steps.
      replace i with ((i - m) + m)%nat at 2 by lia.
      rewrite greatCircle_antipodal by assumption.
      cbn [opp3 wz]. lra. }
  destruct Hpair as (i' & Hi' & Hopp).
  destruct (Rlt_dec (wz (greatCirclePoint A B (2 * PI * INR i / INR steps))) 0)
    as [Hneg|Hpos].
  - exists i, i'. repeat split; try assumption; lra.
  - exists i', i. repeat split; try assumption; lra.
Qed.

Lemma meridian_not_degenerate :
  1e-10 <= sqrt (scalarProduct
                   (vectorProduct (hemisphereLift (mkVec2 0 0))
                                  (hemisphereLift (mkVec2 1 0)))
                   (vectorProduct (hemisphereLift (mkVec2 0 0))
                                  (hemisphereLift (mkVec2 1 0)))).
Proof.
  rewrite hemisphereLift_origin, hemisphereLift_east.
  unfold vectorProduct, scalarProduct. cbn [wx wy wz].
  replace ((0 * 0 - 1 * 0) * (0 * 0 - 1 * 0)
           + (1 * 1 - 0 * 0) * (1 * 1 - 0 * 0)
           + (0 * 0 - 0 * 1) * (0 * 0 - 0 * 1)) with 1 by ring.
  rewrite sqrt_1. lra.
Qed.

Lemma geodesicLineThrough_S_full_circle_witness :
  let line := geodesicLineThrough SpaceS (mkVec2 0 0) (mkVec2 1 0) 4 in
  List.length line = 5%nat
  /\ hd origin2 line = mkVec2 0 0
  /\ last line origin2 = mkVec2 0 0.
Proof.
  assert (Hp : sqnorm (mkVec2 0 0) <= 1) by (unfold sqnorm; cbn; lra).
  assert (Hq : sqnorm (mkVec2 1 0) <= 1) by (unfold sqnorm; cbn; lra).
  pose proof (geodesicLineThrough_S_full_circle (mkVec2 0 0) (mkVec2 1 0) 4
                Hp Hq ltac:(lia) meridian_not_degenerate) as Hfull.
  cbv zeta in Hfull. cbv zeta.
  destruct Hfull as (Hlen & _ & _ & _ & Hhd & Hlast & _).
  split; [exact Hlen | split; [exact Hhd | exact Hlast]].
Defined.

(** On the meridian through the pole and (1, 0), sampled with four
    steps, the middle sample is the south pole, below the disk, and its
    projection is part of the line. *)
Lemma meridian_south_pole_kept :
  greatCirclePoint (hemisphereLift (mkVec2 0 0)) (hemisphereLift (mkVec2 1 0))
                   (2 * PI * INR 2 / INR 4)
  = mkVec3 0 0 (-1)
  /\ nth 2 (geodesicLineThrough SpaceS (mkVec2 0 0) (mkVec2 1 0) 4) origin2
     = mkVec2 0 0.
Proof.
  assert (Hp : sqnorm (mkVec2 0 0) <= 1) by (unfold sqnorm; cbn; lra).
  assert (Hq : sqnorm (mkVec2 1 0) <= 1) by (unfold sqnorm; cbn; lra).
  assert (Hs : greatCirclePoint (hemisphereLift (mkVec2 0 0))
                 (hemisphereLift (mkVec2 1 0)) (2 * PI * INR 2 / INR 4)
               = mkVec3 0 0 (-1)).
  { replace (2 * PI * INR 2 / INR 4) with (0 + PI) by (simpl; field).
    rewrite greatCirclePoint_half_turn, greatCirclePoint_start.
    rewrite hemisphereLift_origin. unfold opp3. cbn [wx wy wz].
    apply vec3_eq; ring. }
  split; [exact Hs|].
  unfold geodesicLineThrough.
  rewrite (greatCircleProjectedClosed_samples _ _ 4 Hp Hq
             meridian_not_degenerate).
  rewrite for_upto_nth by lia. rewrite Hs. reflexivity.
Qed.

(** The great circle through the rim points (1, 0) and (0, 1) is the
    rim itself: the two points are distinct, their lifts are not
    parallel, and every point of the line is on the unit circle, so
    that the only point of the sphere above or below it has height 0.
    The line includes no projection of a point of negative height. *)
Lemma equator_line_stays_on_rim :
  let p := mkVec2 1 0 in
  let q := mkVec2 0 1 in
  p <> q
  /\ vectorProduct (hemisphereLift p) (hemisphereLift q) = mkVec3 0 0 1
  /\ forall (steps : nat) (pt : Vec2) (z : R),
       (0 < steps)%nat ->
       In pt (geodesicLineThrough SpaceS p q steps) ->
       scalarProduct (mkVec3 (vx pt) (vy pt) z) (mkVec3 (vx pt) (vy pt) z) = 1 ->
       z = 0.
Proof.
  cbv zeta.
  assert (HN : vectorProduct (hemisphereLift (mkVec2 1 0))
                             (hemisphereLift (mkVec2 0 1))
               = mkVec3 0 0 1).
  { rewrite hemisphereLift_east, hemisphereLift_north.
    unfold vectorProduct. cbn [wx wy wz]. apply vec3_eq; ring. }
  split; [intros Heq; apply (f_equal vx) in Heq; cbn in Heq; lra|].
  split; [exact HN|].
  intros steps pt z Hsteps Hin Hunit.
  assert (Hp : sqnorm (mkVec2 1 0) <= 1) by (unfold sqnorm; cbn; lra).
  assert (Hq : sqnorm (mkVec2 0 1) <= 1) by (unfold sqnorm; cbn; lra).
  assert (HL : sqrt (scalarProduct
                       (vectorProduct (hemisphereLift (mkVec2 1 0))
                                      (hemisphereLift (mkVec2 0 1)))
                       (vectorProduct (hemisphereLift (mkVec2 1 0))
                                      (hemisphereLift (mkVec2 0 1)))) = 1).
  { rewrite HN. unfold scalarProduct. cbn [wx wy wz].
    replace (0 * 0 + 0 * 0 + 1 * 1) with 1 by ring. apply sqrt_1. }
  unfold geodesicLineThrough in Hin.
  rewrite (greatCircleProjectedClosed_samples _ _ steps Hp Hq) in Hin
    by (rewrite HL; lra).
  unfold for_upto in Hin. apply in_map_iff in Hin.
  destruct Hin as (i & <- & _).
  destruct (hemisphereLift_on_sphere (mkVec2 1 0) Hp) as (HA & _ & _).
  destruct (greatCirclePoint_on (hemisphereLift (mkVec2 1 0))
              (hemisphereLift (mkVec2 0 1)) (2 * PI * INR i / INR steps) HA)
    as [HX HXN]; [rewrite HL; lra|].
  rewrite HN in HXN.
  set (X := greatCirclePoint _ _ _) in *. clearbody X.
  destruct X as [x y h]. unfold scalarProduct, project in *.
  cbn [wx wy wz vx vy] in *.
  assert (Hh : h = 0) by lra. subst h.
  assert (Hzz : z * z = 0) by lra.
  destruct (Rmult_integral _ _ Hzz); assumption.
Qed.

End GreatCircles.

(** ** Hyperbolic paths stay inside the disk *)

Section DiskInvariant.

Lemma rescaled_sqnorm (p : Vec2) :
  sqnorm (mul2 (norm2 p) 0.999) = 0.999 * 0.999.
Proof.
  pose proof (norm2_sqnorm p) as Hn. unfold sqnorm, mul2 in *.
  cbn [vx vy]. nra.
Qed.

Lemma rescaled_hypot2 (p : Vec2) : hypot2 (mul2 (norm2 p) 0.999) = 0.999.
Proof.
  unfold hypot2, JsMath.hypot. fold (sqnorm (mul2 (norm2 p) 0.999)).
  rewrite rescaled_sqnorm. apply sqrt_square. lra.
Qed.

Lemma keepInDisk_sqnorm (p : Vec2) : sqnorm (keepInDisk p) < 1.
Proof.
  unfold keepInDisk. cbv zeta.
  destruct (ltb_spec (dot2 p p) 0.999) as [Hin|Hout].
  - rewrite sqnorm_dot2. lra.
  - rewrite rescaled_sqnorm. lra.
Qed.

Lemma keepInDisk_rescales (p : Vec2) :
  1 <= sqnorm p -> hypot2 (keepInDisk p) = 0.999.
Proof.
  intros Hp. unfold keepInDisk. cbv zeta. rewrite sqnorm_dot2 in Hp.
  rewrite ltb_false by lra. apply rescaled_hypot2.
Qed.

Lemma hyperbolicGeodesicPoints_in_disk (a b : Vec2) (n : nat) (pt : Vec2) :
  In pt (hyperbolicGeodesicPoints a b n) -> sqnorm pt < 1.
Proof.
  unfold hyperbolicGeodesicPoints. cbv zeta.
  destruct (_ <? _); intros Hin; apply for_upto_In in Hin;
    destruct Hin as (i & _ & ->); apply keepInDisk_sqnorm.
Qed.

(** A point of a segment whose ends are in the disk is in the disk. *)
Lemma segment_in_disk (A B : Vec2) (t : R) :
  sqnorm A < 1 -> sqnorm B < 1 -> 0 <= t <= 1 ->
  sqnorm (add2 A (mul2 (sub2 B A) t)) < 1.
Proof.
  intros HA HB Ht. unfold sqnorm, add2, mul2, sub2 in *. cbn [vx vy].
  assert (Hconv :
    (vx A + (vx B - vx A) * t) * (vx A + (vx B - vx A) * t)
    + (vy A + (vy B - vy A) * t) * (vy A + (vy B - vy A) * t)
    = (1 - t) * (vx A * vx A + vy A * vy A)
      + t * (vx B * vx B + vy B * vy B)
      - t * (1 - t) * ((vx A - vx B) * (vx A - vx B)
                       + (vy A - vy B) * (vy A - vy B))) by ring.
  rewrite Hconv.
  assert (0 <= t * (1 - t) * ((vx A - vx B) * (vx A - vx B)
                              + (vy A - vy B) * (vy A - vy B))).
  { pose proof (Rle_0_sqr (vx A - vx B)) as Hx.
    pose proof (Rle_0_sqr (vy A - vy B)) as Hy. unfold Rsqr in Hx, Hy.
    apply Rmult_le_pos; [apply Rmult_le_pos|]; lra. }
  set (a := vx A * vx A + vy A * vy A) in *.
  set (b := vx B * vx B + vy B * vy B) in *.
  assert (Hmix : (1 - t) * a + t * b < 1).
  { destruct (Rle_dec t (1 / 2)) as [Hlow|Hhigh].
    - assert (0 <= t * (1 - b)) by (apply Rmult_le_pos; lra).
      assert (1 / 2 * (1 - a) <= (1 - t) * (1 - a))
        by (apply Rmult_le_compat_r; lra).
      lra.
    - assert (0 <= (1 - t) * (1 - a)) by (apply Rmult_le_pos; lra).
      assert (1 / 2 * (1 - b) <= t * (1 - b))
        by (apply Rmult_le_compat_r; lra).
      lra. }
  lra.
Qed.

Section WalkInDisk.

Variable path : list Vec2.
Hypothesis path_in_disk : forall pt, In pt path -> sqnorm pt < 1.

(** Walking along a path of the disk keeps the frog in the disk. *)
Lemma walkPath_in_disk (fuel : nat) :
  forall w,
    sqnorm (walk_pos w) < 1 ->
    0 <= walk_t w <= 1 ->
    sqnorm (walk_pos (walkPath fuel path w)) < 1.
Proof.
  induction fuel as [|fuel IH]; intros w Hpos Ht; [exact Hpos|].
  simpl.
  destruct (ltb_spec 0 (walk_remaining w)) as [Hrem|Hrem]; [|exact Hpos].
  destruct (Nat.ltb_spec (walk_i w) (List.length path - 1)) as [Hi|Hi];
    [|exact Hpos].
  cbn [andb].
  assert (HA : sqnorm (nth (walk_i w) path (mkVec2 0 0)) < 1)
    by (apply path_in_disk, nth_In; lia).
  assert (HB : sqnorm (nth (walk_i w + 1) path (mkVec2 0 0)) < 1)
    by (apply path_in_disk, nth_In; lia).
  set (A := nth (walk_i w) path (mkVec2 0 0)) in *.
  set (B := nth (walk_i w + 1) path (mkVec2 0 0)) in *.
  pose proof (hypot_nonneg (vx (sub2 B A)) (vy (sub2 B A))) as Hlen.
  fold (hypot2 (sub2 B A)) in Hlen.
  destruct (leb_spec (walk_remaining w) (hypot2 (sub2 B A) * (1 - walk_t w)))
    as [Hle|Hgt].
  - cbn [walk_pos]. apply segment_in_disk; try assumption.
    assert (Hseg : 0 < hypot2 (sub2 B A)) by nra.
    assert (Hfrac : walk_remaining w / hypot2 (sub2 B A) <= 1 - walk_t w).
    { apply Rmult_le_reg_r with (hypot2 (sub2 B A)); [exact Hseg|].
      unfold Rdiv. rewrite Rmult_assoc, Rinv_l by lra. lra. }
    assert (0 < walk_remaining w / hypot2 (sub2 B A)).
    { apply Rdiv_lt_0_compat; assumption. }
    lra.
  - apply IH; cbn [walk_pos walk_t]; [exact HB | lra].
Qed.

End WalkInDisk.

(** One animation step in the hyperbolic model keeps the stored position
    in the disk, provided the scheduled path lies in the disk. *)
Lemma stepAnimation_H_in_disk (st : EngineState) (dt : R) :
  space st = SpaceH ->
  sqnorm (h_pos st) < 1 ->
  (forall pt, In pt (path (anim st)) -> sqnorm pt < 1) ->
  0 <= anim_t (anim st) <= 1 ->
  sqnorm (h_pos (stepAnimation st dt)) < 1.
Proof.
  intros Hs Hpos Hpath Ht. unfold stepAnimation.
  destruct (active (anim st)); [|exact Hpos]. cbn [negb].
  destruct (rotate (anim st)) as [r|].
  - rewrite Hs. exact Hpos.
  - destruct (List.length (path (anim st)) <? 2)%nat; [exact Hpos|].
    rewrite Hs.
    assert (Hwalk : sqnorm (walk_pos
              (walkPath (List.length (path (anim st))) (path (anim st))
                 (mkWalk (anim_i (anim st)) (anim_t (anim st))
                         (speed (anim st) * dt) (frogWorldPos st)))) < 1).
    { apply walkPath_in_disk; [exact Hpath | |exact Ht].
      cbn [walk_pos]. unfold frogWorldPos. now rewrite Hs. }
    destruct (addToTrace (anim st)); [|exact Hwalk].
    cbn [set_h_pos inProgress].
    destruct (inProgress st) as [poly|]; [|exact Hwalk].
    destruct (lastOf (pts poly)); [destruct (_ <? _)|]; exact Hwalk.
Qed.

Lemma walkPath_t_range (path : list Vec2) (fuel : nat) :
  forall w, 0 <= walk_t w <= 1 -> 0 <= walk_t (walkPath fuel path w) <= 1.
Proof.
  induction fuel as [|fuel IH]; intros w Ht; [exact Ht|].
  simpl.
  destruct (ltb_spec 0 (walk_remaining w)) as [Hrem|Hrem]; [|exact Ht].
  destruct (Nat.ltb_spec (walk_i w) (List.length path - 1)) as [Hi|Hi];
    [|exact Ht].
  cbn [andb].
  set (A := nth (walk_i w) path (mkVec2 0 0)).
  set (B := nth (walk_i w + 1) path (mkVec2 0 0)).
  pose proof (hypot_nonneg (vx (sub2 B A)) (vy (sub2 B A))) as Hlen.
  fold (hypot2 (sub2 B A)) in Hlen.
  destruct (leb_spec (walk_remaining w) (hypot2 (sub2 B A) * (1 - walk_t w)))
    as [Hle|Hgt].
  - cbn [walk_t].
    assert (Hseg : 0 < hypot2 (sub2 B A)) by nra.
    assert (Hfrac : walk_remaining w / hypot2 (sub2 B A) <= 1 - walk_t w).
    { apply Rmult_le_reg_r with (hypot2 (sub2 B A)); [exact Hseg|].
      unfold Rdiv. rewrite Rmult_assoc, Rinv_l by lra. lra. }
    assert (0 < walk_remaining w / hypot2 (sub2 B A)).
    { apply Rdiv_lt_0_compat; assumption. }
    lra.
  - apply IH. cbn [walk_t]. lra.
Qed.

(** The invariant holds when a path of the disk is scheduled and is kept
    by every animation step. *)
Lemma animatePath_diskInvariant (st : EngineState) (pts : list Vec2)
                                (sp : R) (trace : bool) :
  sqnorm (h_pos st) < 1 ->
  (forall pt, In pt pts -> sqnorm pt < 1) ->
  diskInvariant (animatePath st pts sp trace).
Proof.
  intros Hpos Hpts. unfold diskInvariant, animatePath.
  cbn [set_anim h_pos anim path anim_t]. repeat split; try assumption; lra.
Qed.

Lemma stepAnimation_diskInvariant (st : EngineState) (dt : R) :
  space st = SpaceH ->
  diskInvariant st ->
  diskInvariant (stepAnimation st dt).
Proof.
  intros Hs (Hpos & Hpath & Ht).
  split; [now apply stepAnimation_H_in_disk|].
  unfold stepAnimation.
  destruct (active (anim st)); [|split; assumption]. cbn [negb].
  destruct (rotate (anim st)) as [r|].
  - rewrite Hs. cbn [set_anim anim].
    destruct (_ <=? _); cbn [idleAnim set_rotate path anim_t].
    + split; [intros pt []|lra].
    + split; assumption.
  - destruct (List.length (path (anim st)) <? 2)%nat.
    + cbn [set_anim anim set_active path anim_t]. split; assumption.
    + cbn [set_anim anim].
      destruct (_ <=? _)%nat; cbn [idleAnim set_i_t path anim_t].
      * split; [intros pt []|lra].
      * split; [assumption|]. now apply walkPath_t_range.
Qed.

(** In the model on real numbers, where [tanh] is defined for every
    distance and always below 1: every point of the paths returned by
    [hyperbolicGeodesicPoints], [buildAdvancePath] and [buildCircleTrace]
    and the position stored in the returned state are strictly inside
    the unit disk; a sample that reaches or passes the unit circle is
    rescaled to norm 0.999. *)
Lemma paths_in_disk
    (st : EngineState) (dist radius : R) (a b : Vec2) (n : nat) :
  space st = SpaceH ->
  (forall pt, In pt (hyperbolicGeodesicPoints a b n) -> sqnorm pt < 1)
  /\ (forall pt, In pt (built_path (buildAdvancePath st dist)) ->
        sqnorm pt < 1)
  /\ sqnorm (h_pos (built_next (buildAdvancePath st dist))) < 1
  /\ (forall pt, In pt (traced_path (buildCircleTrace st radius)) ->
        sqnorm pt < 1)
  /\ sqnorm (h_pos (traced_next (buildCircleTrace st radius))) < 1
  /\ (forall p, 1 <= sqnorm p -> hypot2 (keepInDisk p) = 0.999).
Proof.
  intros Hs.
  split; [intros pt; apply hyperbolicGeodesicPoints_in_disk|].
  unfold buildAdvancePath, buildCircleTrace. rewrite Hs. cbv zeta.
  cbn [built_path built_next traced_path traced_next set_h_pos h_pos].
  split; [intros pt; apply hyperbolicGeodesicPoints_in_disk|].
  split.
  { match goal with
    | |- context [?lo <=? ?r2] => destruct (leb_spec lo r2) as [Hout|Hin]
    end.
    - rewrite rescaled_sqnorm. lra.
    - rewrite sqnorm_dot2. lra. }
  split.
  { intros pt Hin. apply for_upto_In in Hin.
    destruct Hin as (i & _ & ->). apply keepInDisk_sqnorm. }
  split.
  { unfold lastPoint. rewrite for_upto_last. apply keepInDisk_sqnorm. }
  exact keepInDisk_rescales.
Qed.

End DiskInvariant.

(** ** Hyperbolic circles *)

Section HyperbolicCircles.






End HyperbolicCircles.

(** ** Parallels on the sphere *)

Section SphericalParallel.

Import App.

(** C9.  On the sphere a parallel request is rejected: once the frog
    has reached the clicked point, the timer of the operation shows the
    fixed failure message, leaves the operation mode, stops itself and
    returns before any polyline is built; the line being revealed, the
    stored lines and the engine state are untouched, so the frame loop
    stores no new line either.  Among the functions exported by the
    kernel the only parallel constructor is the hyperbolic one. *)
Theorem spherical_parallel_rejected
    (mode : LineOpMode) (base : LineObject) (w : Vec2) (stamp : string)
    (ui : Ui) (dt : R) :
  mode = OpParallel0 \/ mode = OpParallel1 ->
  active (anim (engine ui)) = false ->
  let ui' := lineOpTick SpaceS mode base w stamp ui in
  lineOpPoints SpaceS mode base w = None
  /\ measurePanelText ui' = msgImpossible
  /\ lineOpMode ui' = OpNone
  /\ timerRunning ui' = false
  /\ magicLine ui' = magicLine ui
  /\ lines ui' = lines ui
  /\ engine ui' = engine ui
  /\ (magicLine ui = None -> lines (revealTick dt ui') = lines ui)
  /\ (forall name, In name kernelExports ->
        hasSubstring "Parallel" name = true ->
        name = "hyperbolicParallelThroughPoint"%string).
Proof.
  intros Hmode Hidle. cbv zeta.
  assert (Hnone : lineOpPoints SpaceS mode base w = None)
    by (destruct Hmode; subst mode; reflexivity).
  unfold lineOpTick. rewrite Hidle, Hnone. unfold reject.
  cbn [measurePanelText lineOpMode timerRunning magicLine lines engine].
  repeat split.
  - intros Hnoreveal. unfold revealTick. cbn [magicLine].
    now rewrite Hnoreveal.
  - intros name Hin Hsub. unfold kernelExports in Hin.
    repeat (destruct Hin as [<-|Hin];
            [first [reflexivity | discriminate Hsub]|]).
    destruct Hin.
Qed.

Lemma spherical_parallel_rejected_witness :
  let base := mkLine "L1" [mkVec2 0 0; mkVec2 1 0] (mkVec2 0 0) (mkVec2 1 0)
                     SpaceS in
  let ui := mkUi "" OpParallel0 None [base] true (createInitialState SpaceS) in
  let ui' := lineOpTick SpaceS OpParallel0 base (mkVec2 0 0.5) "0" ui in
  measurePanelText ui' = msgImpossible /\ lines ui' = lines ui.
Proof.
  cbv zeta.
  destruct (spherical_parallel_rejected OpParallel0
              (mkLine "L1" [mkVec2 0 0; mkVec2 1 0] (mkVec2 0 0) (mkVec2 1 0)
                      SpaceS)
              (mkVec2 0 0.5) "0"
              (mkUi "" OpParallel0 None
                 [mkLine "L1" [mkVec2 0 0; mkVec2 1 0] (mkVec2 0 0)
                         (mkVec2 1 0) SpaceS]
                 true (createInitialState SpaceS))
              0.033 (or_introl eq_refl) eq_refl)
    as (_ & Hmsg & _ & _ & _ & Hlines & _).
  split; assumption.
Defined.

(** While the frog is still moving the timer only waits. *)
Lemma lineOpTick_waits (sp : SpaceId) (mode : LineOpMode) (base : LineObject)
    (w : Vec2) (stamp : string) (ui : Ui) :
  active (anim (engine ui)) = true ->
  lineOpTick sp mode base w stamp ui = ui.
Proof. intros Hact. unfold lineOpTick. now rewrite Hact. Qed.

(** By contrast the spherical perpendicular does build a polyline. *)
Lemma spherical_perpendicular_builds (base : LineObject) (w : Vec2) :
  lineOpPoints SpaceS OpPerpendicular base w
  = Some (sphericalPerpendicularGreatCircleThroughPoint
            (baseP base) (baseQ base) w 560).
Proof. reflexivity. Qed.

End SphericalParallel.

(** * Further properties of the kernel and of the measuring helpers *)

(** ** Exact distances *)

Section Distances.

Lemma hypot_sym (a b c d : R) :
  JsMath.hypot (a - b) (c - d) = JsMath.hypot (b - a) (d - c).
Proof. unfold JsMath.hypot. f_equal. ring. Qed.

(** The lift used by the measuring helpers never has norm 0: its
    squared norm is the larger of 1 and [|p|^2]. *)
Lemma liftSphereUpper_norm (p : Vec2) :
  App.dot3 (App.liftSphereUpper p) (App.liftSphereUpper p) = Rmax 1 (sqnorm p)
  /\ 0 < App.norm3 (App.liftSphereUpper p).
Proof.
  assert (Hdot : App.dot3 (App.liftSphereUpper p) (App.liftSphereUpper p)
                 = Rmax 1 (sqnorm p)).
  { unfold App.dot3, App.liftSphereUpper, sqnorm, JsMath.max. cbn [wx wy wz].
    rewrite sqrt_sqrt by apply Rmax_l.
    unfold Rmax.
    destruct (Rle_dec 0 _); destruct (Rle_dec 1 _); lra. }
  split; [exact Hdot|].
  unfold App.norm3, JsMath.hypot3. unfold App.dot3 in Hdot. rewrite Hdot.
  apply sqrt_lt_R0. pose proof (Rmax_l 1 (sqnorm p)). lra.
Qed.

(** The distance does not depend on the order of the two points, in
    every space. *)
Theorem distanceExact_sym (sp : SpaceId) (A B : Vec2) :
  App.distanceExact sp A B = App.distanceExact sp B A.
Proof.
  destruct sp; unfold App.distanceExact; cbv zeta.
  - unfold App.euclidLen. now rewrite hypot_sym.
  - replace ((1 - (vx B * vx B + vy B * vy B))
             * (1 - (vx A * vx A + vy A * vy A)))
      with ((1 - (vx A * vx A + vy A * vy A))
            * (1 - (vx B * vx B + vy B * vy B))) by ring.
    replace ((vx B - vx A) * (vx B - vx A) + (vy B - vy A) * (vy B - vy A))
      with ((vx A - vx B) * (vx A - vx B) + (vy A - vy B) * (vy A - vy B))
      by ring.
    reflexivity.
  - f_equal. f_equal. f_equal. unfold App.dot3.
    rewrite (Rmult_comm (JsMath.orElse (App.norm3 (App.liftSphereUpper B)) 1)).
    f_equal. ring.
Qed.

Lemma acosh_one : JsMath.acosh 1 = 0.
Proof.
  unfold JsMath.acosh. replace (1 * 1 - 1) with 0 by ring.
  rewrite sqrt_0, Rplus_0_r. apply ln_1.
Qed.

Lemma acosh_nonneg (m : R) : 1 <= m -> 0 <= JsMath.acosh m.
Proof.
  intros Hm. unfold JsMath.acosh. rewrite <- ln_1.
  pose proof (sqrt_pos (m * m - 1)) as Hs.
  destruct (Req_dec_T (m + sqrt (m * m - 1)) 1) as [->|Hne]; [lra|].
  left. apply ln_increasing; lra.
Qed.

(** The distance from a point to itself is 0 in the Euclidean and
    spherical models, and in the hyperbolic model everywhere except on
    the unit circle, where the code answers [Infinity]. *)
Theorem distanceExact_self (sp : SpaceId) (A : Vec2) :
  App.distanceExact sp A A
  = match sp with
    | SpaceH => if sqnorm A =? 1 then Infinity else Num 0
    | _ => Num 0
    end.
Proof.
  destruct sp; unfold App.distanceExact; cbv zeta.
  - unfold App.euclidLen, JsMath.hypot.
    replace ((vx A - vx A) * (vx A - vx A) + (vy A - vy A) * (vy A - vy A))
      with 0 by ring.
    now rewrite sqrt_0.
  - fold (sqnorm A). unfold JsMath.eqb.
    destruct (Req_dec_T (sqnorm A) 1) as [Heq|Hne].
    + rewrite Heq. rewrite leb_true by lra. reflexivity.
    + rewrite leb_false by nra.
      replace ((vx A - vx A) * (vx A - vx A) + (vy A - vy A) * (vy A - vy A))
        with 0 by ring.
      unfold Rdiv. rewrite Rmult_0_r, Rmult_0_l, Rplus_0_r.
      unfold JsMath.max. rewrite Rmax_left by lra. now rewrite acosh_one.
  - destruct (liftSphereUpper_norm A) as [Hdot Hpos].
    rewrite orElse_pos by assumption.
    assert (Hsq : App.norm3 (App.liftSphereUpper A)
                  * App.norm3 (App.liftSphereUpper A)
                  = App.dot3 (App.liftSphereUpper A) (App.liftSphereUpper A)).
    { unfold App.norm3, App.dot3. apply hypot3_sqr. }
    rewrite Hsq. unfold Rdiv. rewrite Rinv_r.
    + unfold App.clamp, JsMath.max, JsMath.min.
      rewrite Rmin_left, Rmax_right by lra. now rewrite acos_1.
    + rewrite <- Hsq. nra.
Qed.

(** A finite distance is never negative, and on the sphere it is at
    most [PI]. *)
Theorem distanceExact_range (sp : SpaceId) (A B : Vec2) (d : R) :
  App.distanceExact sp A B = Num d ->
  0 <= d /\ (sp = SpaceS -> d <= PI).
Proof.
  destruct sp; unfold App.distanceExact; cbv zeta.
  - intros [= <-]. split; [apply hypot_nonneg | discriminate].
  - destruct (_ <=? _); [discriminate|]. intros [= <-].
    split; [|discriminate]. apply acosh_nonneg. apply Rmax_l.
  - intros [= <-]. split; [|intros _]; apply acos_bound.
Qed.

Lemma distanceExact_range_witness :
  0 <= App.euclidLen (mkVec2 0 0) (mkVec2 3 4)
  /\ (SpaceE = SpaceS -> App.euclidLen (mkVec2 0 0) (mkVec2 3 4) <= PI).
Proof.
  apply (distanceExact_range SpaceE (mkVec2 0 0) (mkVec2 3 4)).
  reflexivity.
Defined.

(** Both angle measures return an angle of [0, PI], in every space and
    for every triple of points. *)
Theorem angles_range (sp : SpaceId) (A B C : Vec2) :
  0 <= App.angleHand sp A B C <= PI /\ 0 <= angleAt sp A B C <= PI.
Proof.
  split; destruct sp; unfold App.angleHand, angleAt; cbv zeta;
    apply acos_bound.
Qed.

End Distances.

(** ** Moebius addition *)

Section Moebius.

Lemma cauchy_schwarz2 (a b : Vec2) :
  dot2 a b * dot2 a b <= sqnorm a * sqnorm b.
Proof.
  unfold dot2, sqnorm.
  pose proof (Rle_0_sqr (vx a * vy b - vy a * vx b)) as Hsq.
  unfold Rsqr in Hsq. nra.
Qed.

Lemma mobius_denominator_pos (a b : Vec2) :
  sqnorm a * sqnorm b < 1 ->
  0 < 1 + 2 * dot2 a b + dot2 a a * dot2 b b.
Proof.
  intros Hab. rewrite <- !sqnorm_dot2.
  pose proof (cauchy_schwarz2 a b) as Hcs.
  pose proof (Rle_0_sqr (1 + dot2 a b)) as Hsq. unfold Rsqr in Hsq.
  destruct (Req_dec_T (1 + dot2 a b) 0) as [Hz|Hnz].
  - assert (dot2 a b = -1) by lra. nra.
  - assert (0 < (1 + dot2 a b) * (1 + dot2 a b)) by nra. nra.
Qed.

(** Moebius addition keeps the open unit disk: for [a] and [b] inside,
    [1 - |a + b|^2] is [(1 - |a|^2)(1 - |b|^2)] over the (positive)
    denominator of the formula. *)
Theorem mobiusAdd_in_disk (a b : Vec2) :
  sqnorm a < 1 ->
  sqnorm b < 1 ->
  1 - sqnorm (mobiusAdd a b)
  = (1 - sqnorm a) * (1 - sqnorm b)
    / (1 + 2 * dot2 a b + sqnorm a * sqnorm b)
  /\ sqnorm (mobiusAdd a b) < 1.
Proof.
  intros Ha Hb.
  assert (Ha0 : 0 <= sqnorm a) by (unfold sqnorm; nra).
  assert (Hb0 : 0 <= sqnorm b) by (unfold sqnorm; nra).
  assert (Hab : sqnorm a * sqnorm b < 1) by nra.
  pose proof (mobius_denominator_pos a b Hab) as HD.
  rewrite <- !sqnorm_dot2 in HD.
  assert (Hid : 1 - sqnorm (mobiusAdd a b)
                = (1 - sqnorm a) * (1 - sqnorm b)
                  / (1 + 2 * dot2 a b + sqnorm a * sqnorm b)).
  { unfold mobiusAdd. cbv zeta. rewrite <- !sqnorm_dot2.
    unfold sqnorm at 1. cbn [vx vy].
    unfold sqnorm, dot2 in *. field. lra. }
  split; [exact Hid|].
  assert (0 < (1 - sqnorm a) * (1 - sqnorm b)
              / (1 + 2 * dot2 a b + sqnorm a * sqnorm b)).
  { apply Rdiv_lt_0_compat; [nra | exact HD]. }
  lra.
Qed.

Lemma mobiusAdd_in_disk_witness :
  sqnorm (mobiusAdd (mkVec2 0.5 0) (mkVec2 0.5 0)) < 1.
Proof.
  apply (mobiusAdd_in_disk (mkVec2 0.5 0) (mkVec2 0.5 0));
    unfold sqnorm; cbn [vx vy]; lra.
Defined.

(** The origin is neutral on both sides, and the opposite of a point of
    the disk is its inverse on the left; this is how
    [hyperbolicDirectionAtOrigin] brings a position to the origin. *)
Theorem mobiusAdd_identities (a : Vec2) :
  sqnorm a < 1 ->
  mobiusAdd (mkVec2 0 0) a = a
  /\ mobiusAdd a (mkVec2 0 0) = a
  /\ mobiusAdd (mkVec2 (- vx a) (- vy a)) a = mkVec2 0 0.
Proof.
  intros Ha. destruct a as [x y]. unfold sqnorm in Ha. cbn [vx vy] in Ha.
  unfold mobiusAdd, dot2. cbn [vx vy].
  repeat split; apply vec2_eq; field; nra.
Qed.

Lemma mobiusAdd_identities_witness :
  mobiusAdd (mkVec2 0.5 0.25) (mkVec2 0 0) = mkVec2 0.5 0.25.
Proof.
  apply (mobiusAdd_identities (mkVec2 0.5 0.25)).
  unfold sqnorm; cbn [vx vy]; lra.
Defined.

End Moebius.

(** ** Angles: [Math.atan2] and the normalisation loops *)

Section Angles.

(** [Math.atan2] returns the polar angle of the point [(x, y)]. *)
Lemma atan2_polar (x y : R) :
  x <> 0 \/ y <> 0 ->
  JsMath.hypot x y * cos (JsMath.atan2 y x) = x
  /\ JsMath.hypot x y * sin (JsMath.atan2 y x) = y.
Proof.
  intros Hxy. unfold JsMath.atan2.
  destruct (ltb_spec 0 x) as [Hpos|Hnpos].
  - (* right half plane *)
    set (k := sqrt (1 + (y / x)²)).
    assert (Hk : 0 < k) by (apply sqrt_lt_R0; unfold Rsqr; nra).
    assert (Hkk : k * k = 1 + (y / x) * (y / x))
      by (unfold k; rewrite sqrt_sqrt; unfold Rsqr; nra).
    assert (Hh : JsMath.hypot x y = x * k).
    { unfold JsMath.hypot.
      replace (x * x + y * y) with (x * k * (x * k))
        by (replace (x * k * (x * k)) with (x * x * (k * k)) by ring;
            rewrite Hkk; field; lra).
      apply sqrt_square. nra. }
    rewrite Hh, cos_atan, sin_atan. fold k. split; field; lra.
  - destruct (ltb_spec x 0) as [Hneg|Hnneg].
    + (* left half plane *)
      set (k := sqrt (1 + (y / x)²)).
      assert (Hk : 0 < k) by (apply sqrt_lt_R0; unfold Rsqr; nra).
      assert (Hkk : k * k = 1 + (y / x) * (y / x))
        by (unfold k; rewrite sqrt_sqrt; unfold Rsqr; nra).
      assert (Hh : JsMath.hypot x y = - x * k).
      { unfold JsMath.hypot.
        replace (x * x + y * y) with (- x * k * (- x * k))
          by (replace (- x * k * (- x * k)) with (x * x * (k * k)) by ring;
              rewrite Hkk; field; lra).
        apply sqrt_square. nra. }
      rewrite Hh.
      destruct (0 <=? y).
      * rewrite neg_cos, neg_sin, cos_atan, sin_atan. fold k.
        split; field; lra.
      * replace (atan (y / x) - PI) with (- (- atan (y / x) + PI)) by ring.
        rewrite cos_neg, sin_neg, neg_cos, neg_sin, cos_neg, sin_neg.
        rewrite cos_atan, sin_atan. fold k. split; field; lra.
    + assert (Hx : x = 0) by lra. subst x.
      assert (Hy : y <> 0) by (destruct Hxy; [lra | assumption]).
      unfold JsMath.hypot. replace (0 * 0 + y * y) with (y * y) by ring.
      destruct (ltb_spec 0 y) as [Hyp|Hyn].
      * rewrite sqrt_square by lra. rewrite cos_PI2, sin_PI2. lra.
      * rewrite ltb_true by lra.
        replace (y * y) with (- y * - y) by ring.
        rewrite sqrt_square by lra.
        rewrite cos_neg, sin_neg, cos_PI2, sin_PI2. lra.
Qed.

Lemma atan2_range (x y : R) : - PI < JsMath.atan2 y x <= PI.
Proof.
  pose proof PI_RGT_0 as Hpi. unfold JsMath.atan2.
  pose proof (atan_bound (y / x)) as Hb.
  destruct (ltb_spec 0 x) as [Hpos|Hnpos]; [lra|].
  destruct (ltb_spec x 0) as [Hneg|Hnneg].
  - destruct (leb_spec 0 y) as [Hy|Hy].
    + assert (atan (y / x) <= 0).
      { rewrite <- atan_0. destruct (Req_dec_T y 0) as [->|Hy0].
        - unfold Rdiv. rewrite Rmult_0_l. lra.
        - left. apply atan_increasing.
          apply Rmult_lt_reg_r with (- x); [lra|].
          unfold Rdiv. replace (y * / x * - x) with (- y * (x * / x)) by ring.
          rewrite Rinv_r by lra. lra. }
      lra.
    + assert (0 < atan (y / x)).
      { rewrite <- atan_0. apply atan_increasing.
        apply Rmult_lt_reg_r with (- x); [lra|].
        unfold Rdiv. replace (y * / x * - x) with (- y * (x * / x)) by ring.
        rewrite Rinv_r by lra. lra. }
      lra.
  - destruct (0 <? y); [lra|]. destruct (y <? 0); lra.
Qed.

(** Each loop moves its argument by a whole number of turns. *)
Lemma while_gt_sub_turns (fuel : nat) (b : R) :
  forall d, exists k : nat, while_gt_sub fuel b d = d - 2 * INR k * PI.
Proof.
  induction fuel as [|fuel IH]; intros d; simpl.
  - exists 0%nat. simpl. ring.
  - destruct (b <? d).
    + destruct (IH (d - 2 * PI)) as [k Hk]. exists (S k).
      rewrite Hk, S_INR. ring.
    + exists 0%nat. simpl. ring.
Qed.

Lemma while_lt_add_turns (fuel : nat) (b : R) :
  forall d, exists k : nat, while_lt_add fuel b d = d + 2 * INR k * PI.
Proof.
  induction fuel as [|fuel IH]; intros d; simpl.
  - exists 0%nat. simpl. ring.
  - destruct (d <? b).
    + destruct (IH (d + 2 * PI)) as [k Hk]. exists (S k).
      rewrite Hk, S_INR. ring.
    + exists 0%nat. simpl. ring.
Qed.

Lemma while_le_add_turns (fuel : nat) (b : R) :
  forall d, exists k : nat, while_le_add fuel b d = d + 2 * INR k * PI.
Proof.
  induction fuel as [|fuel IH]; intros d; simpl.
  - exists 0%nat. simpl. ring.
  - destruct (d <=? b).
    + destruct (IH (d + 2 * PI)) as [k Hk]. exists (S k).
      rewrite Hk, S_INR. ring.
    + exists 0%nat. simpl. ring.
Qed.

Lemma cos_minus_turns (x : R) (k : nat) : cos (x - 2 * INR k * PI) = cos x.
Proof.
  rewrite <- (cos_period (x - 2 * INR k * PI) k). f_equal. ring.
Qed.

Lemma sin_minus_turns (x : R) (k : nat) : sin (x - 2 * INR k * PI) = sin x.
Proof.
  rewrite <- (sin_period (x - 2 * INR k * PI) k). f_equal. ring.
Qed.

Lemma sameDirection_refl (a : R) : sameDirection a a.
Proof. split; reflexivity. Qed.

Lemma sameDirection_trans (a b c : R) :
  sameDirection a b -> sameDirection b c -> sameDirection a c.
Proof. intros [H1 H2] [H3 H4]. split; congruence. Qed.

Lemma sameDirection_plus_turns (a : R) (k : nat) :
  sameDirection (a + 2 * INR k * PI) a.
Proof. split; [apply cos_period | apply sin_period]. Qed.

Lemma sameDirection_minus_turns (a : R) (k : nat) :
  sameDirection (a - 2 * INR k * PI) a.
Proof. split; [apply cos_minus_turns | apply sin_minus_turns]. Qed.

Lemma sameDirection_shift (a b c : R) :
  sameDirection a b -> sameDirection (c + a) (c + b).
Proof.
  intros [Hc Hs]. split.
  - now rewrite !cos_plus, Hc, Hs.
  - now rewrite !sin_plus, Hc, Hs.
Qed.

Lemma normalizeAngle_direction (a : R) : sameDirection (normalizeAngle a) a.
Proof.
  unfold normalizeAngle. cbv zeta.
  destruct (while_le_add_turns (angle_fuel a) (- PI) a) as [k1 Hk1].
  rewrite Hk1.
  destruct (while_gt_sub_turns (angle_fuel (a + 2 * INR k1 * PI)) PI
              (a + 2 * INR k1 * PI)) as [k2 Hk2].
  rewrite Hk2.
  eapply sameDirection_trans; [apply sameDirection_minus_turns|].
  apply sameDirection_plus_turns.
Qed.

(** [normalizeAngle] returns the representative of its argument in
    (-PI, PI]: the same direction, in that range, and the argument
    itself when it already lies there. *)
Theorem normalizeAngle_spec (a : R) :
  - PI < normalizeAngle a <= PI
  /\ sameDirection (normalizeAngle a) a
  /\ normalizeAngle (normalizeAngle a) = normalizeAngle a.
Proof.
  pose proof (normalizeAngle_range a) as Hr.
  split; [exact Hr|]. split; [apply normalizeAngle_direction|].
  now apply normalizeAngle_id.
Qed.

End Angles.

(** ** Circles orthogonal to the unit circle *)

Section OrthogonalCircles.

Lemma Rabs_sqr (t : R) : Rabs t * Rabs t = t * t.
Proof.
  unfold Rabs. destruct (Rcase_abs t); ring.
Qed.

(** The polar form of a point around a centre. *)
Lemma polar_around (p c : Vec2) (r : R) :
  0 < r ->
  App.dist2 p c = r * r ->
  vx p = vx c + r * cos (JsMath.atan2 (vy p - vy c) (vx p - vx c))
  /\ vy p = vy c + r * sin (JsMath.atan2 (vy p - vy c) (vx p - vx c)).
Proof.
  intros Hr Hd. unfold App.dist2 in Hd. cbv zeta in Hd.
  assert (Hh : JsMath.hypot (vx p - vx c) (vy p - vy c) = r).
  { unfold JsMath.hypot. rewrite Hd. apply sqrt_square. lra. }
  assert (Hne : vx p - vx c <> 0 \/ vy p - vy c <> 0).
  { destruct (Req_dec_T (vx p - vx c) 0) as [Hx|Hx]; [|now left].
    right. intros Hy. rewrite Hx, Hy in Hd. nra. }
  destruct (atan2_polar _ _ Hne) as [Hc Hs]. rewrite Hh in Hc, Hs.
  split; lra.
Qed.

(** What a successful [poincareCircleThroughPQ] tells: the two points
    are not aligned with the origin, and the circle is a proper circle
    through them that cuts the unit circle at a right angle. *)
Lemma poincareCircleThroughPQ_inv (p q : Vec2) (circ : Circle) :
  poincareCircleThroughPQ p q = Some circ ->
  let c := circ_c circ in
  let r := circ_r circ in
  (JsMath.abs (vx p * vy q - vy p * vx q) <? 1e-7) = false
  /\ 1e-10 < r * r
  /\ 0 < r
  /\ sqnorm c = 1 + r * r
  /\ App.dist2 p c = r * r
  /\ App.dist2 q c = r * r
  /\ p = polarPoint c r (circ_aP circ)
  /\ q = polarPoint c r (circ_aQ circ).
Proof.
  unfold poincareCircleThroughPQ, JsMath.abs, polarPoint. cbv zeta.
  set (det := vx p * vy q - vy p * vx q).
  destruct (ltb_spec (Rabs det) 1e-7) as [Hsmall|Hbig]; [discriminate|].
  destruct (ltb_spec (Rabs det) 1e-10) as [Htiny|_]; [discriminate|].
  set (cx := ((vx p * vx p + vy p * vy p + 1) / 2 * vy q
              - vy p * ((vx q * vx q + vy q * vy q + 1) / 2)) / det).
  set (cy := (vx p * ((vx q * vx q + vy q * vy q + 1) / 2)
              - (vx p * vx p + vy p * vy p + 1) / 2 * vx q) / det).
  destruct (leb_spec (cx * cx + cy * cy - 1) 1e-10) as [Hflat|Hr2];
    [discriminate|].
  intros [= <-]. cbn [circ_c circ_r circ_aP circ_aQ vx vy].
  assert (Hdet : det <> 0).
  { intros Hz. rewrite Hz, Rabs_R0 in Hbig. lra. }
  set (r := sqrt (cx * cx + cy * cy - 1)).
  assert (Hr : 0 < r) by (apply sqrt_lt_R0; lra).
  assert (Hrr : r * r = cx * cx + cy * cy - 1)
    by (unfold r; apply sqrt_sqrt; lra).
  assert (Hpc : vx p * cx + vy p * cy = (vx p * vx p + vy p * vy p + 1) / 2)
    by (unfold cx, cy, det in *; field; exact Hdet).
  assert (Hqc : vx q * cx + vy q * cy = (vx q * vx q + vy q * vy q + 1) / 2)
    by (unfold cx, cy, det in *; field; exact Hdet).
  assert (Hdp : App.dist2 p (mkVec2 cx cy) = r * r)
    by (unfold App.dist2; cbn [vx vy]; nra).
  assert (Hdq : App.dist2 q (mkVec2 cx cy) = r * r)
    by (unfold App.dist2; cbn [vx vy]; nra).
  split; [reflexivity|]. split; [lra|].
  split; [exact Hr|]. split; [unfold sqnorm; cbn [vx vy]; lra|].
  split; [exact Hdp|]. split; [exact Hdq|].
  destruct (polar_around p (mkVec2 cx cy) r Hr Hdp) as [Hpx Hpy].
  destruct (polar_around q (mkVec2 cx cy) r Hr Hdq) as [Hqx Hqy].
  cbn [vx vy] in Hpx, Hpy, Hqx, Hqy.
  split; [destruct p | destruct q]; cbn [vx vy] in *; apply vec2_eq;
    assumption.
Qed.

(** When [poincareCircleThroughPQ] returns a circle, its radius is
    positive, it is orthogonal to the unit circle ([|c|^2 = 1 + r^2]),
    it passes through [p] and [q], and the two stored angles are the
    polar angles of [p] and [q] around its centre. *)
Theorem poincareCircleThroughPQ_spec (p q : Vec2) (circ : Circle) :
  poincareCircleThroughPQ p q = Some circ ->
  let c := circ_c circ in
  let r := circ_r circ in
  0 < r
  /\ sqnorm c = 1 + r * r
  /\ App.dist2 p c = r * r
  /\ App.dist2 q c = r * r
  /\ p = mkVec2 (vx c + r * cos (circ_aP circ)) (vy c + r * sin (circ_aP circ))
  /\ q = mkVec2 (vx c + r * cos (circ_aQ circ)) (vy c + r * sin (circ_aQ circ)).
Proof.
  intros Hsome. cbv zeta.
  destruct (poincareCircleThroughPQ_inv p q circ Hsome)
    as (_ & _ & Hr & Horth & Hp & Hq & HaP & HaQ).
  repeat split; assumption.
Qed.

Lemma half_half_circle :
  poincareCircleThroughPQ (mkVec2 0.5 0) (mkVec2 0 0.5)
  = Some (mkCircle (mkVec2 1.25 1.25) (sqrt (1.25 * 1.25 + 1.25 * 1.25 - 1))
                   (JsMath.atan2 (0 - 1.25) (0.5 - 1.25))
                   (JsMath.atan2 (0.5 - 1.25) (0 - 1.25))).
Proof.
  unfold poincareCircleThroughPQ, JsMath.abs. cbv zeta. cbn [vx vy].
  replace (0.5 * 0.5 - 0 * 0) with 0.25 by lra.
  rewrite Rabs_right by lra.
  rewrite !ltb_false by lra.
  replace (((0.5 * 0.5 + 0 * 0 + 1) / 2 * 0.5
            - 0 * ((0 * 0 + 0.5 * 0.5 + 1) / 2)) / 0.25) with 1.25 by lra.
  replace ((0.5 * ((0 * 0 + 0.5 * 0.5 + 1) / 2)
            - (0.5 * 0.5 + 0 * 0 + 1) / 2 * 0) / 0.25) with 1.25 by lra.
  rewrite leb_false by lra. reflexivity.
Qed.

Lemma poincareCircleThroughPQ_spec_witness :
  sqnorm (mkVec2 1.25 1.25)
  = 1 + sqrt (1.25 * 1.25 + 1.25 * 1.25 - 1)
        * sqrt (1.25 * 1.25 + 1.25 * 1.25 - 1).
Proof.
  apply (poincareCircleThroughPQ_spec (mkVec2 0.5 0) (mkVec2 0 0.5) _
           half_half_circle).
Defined.

(** What a successful [poincareCircleFromPointDir] computes, for any
    direction [u]: the centre is on the normal to [u] at [P], at the
    distance [r |u|] from [P], and outside the closed unit disk. *)
Lemma poincareCircleFromPointDir_inv (P u c : Vec2) (r : R) :
  poincareCircleFromPointDir P u = Some (c, r) ->
  0 <= r
  /\ App.dist2 P c = r * r * sqnorm u
  /\ dot2 (sub2 c P) u = 0
  /\ sqnorm c = 1 + r * r * sqnorm u
  /\ 1 + 1e-9 < sqnorm c.
Proof.
  unfold poincareCircleFromPointDir, JsMath.abs. cbv zeta.
  cbn [vx vy].
  set (pn := vx P * - vy u + vy P * vx u).
  destruct (ltb_spec (Rabs pn) 1e-10) as [Hsmall|Hbig]; [discriminate|].
  set (t := (1 - (vx P * vx P + vy P * vy P)) / (2 * pn)).
  destruct (leb_spec ((vx P + t * - vy u) * (vx P + t * - vy u)
                      + (vy P + t * vx u) * (vy P + t * vx u)) (1 + 1e-9))
    as [Hin|Hout]; [discriminate|].
  intros [= <- <-].
  assert (Hpn : pn <> 0).
  { intros Hz. rewrite Hz, Rabs_R0 in Hbig. lra. }
  assert (Ht : 2 * t * pn = 1 - (vx P * vx P + vy P * vy P))
    by (unfold t; field; exact Hpn).
  split; [apply Rabs_pos|]. rewrite Rabs_sqr.
  unfold App.dist2, dot2, sub2, sqnorm. cbn [vx vy].
  unfold pn in Ht. repeat split; nra.
Qed.

(** When [poincareCircleFromPointDir] returns a circle for a unit
    direction [u], the circle passes through [P], its tangent at [P] is
    along [u], and it is orthogonal to the unit circle. *)
Theorem poincareCircleFromPointDir_spec (P u c : Vec2) (r : R) :
  sqnorm u = 1 ->
  poincareCircleFromPointDir P u = Some (c, r) ->
  0 <= r
  /\ App.dist2 P c = r * r
  /\ dot2 (sub2 c P) u = 0
  /\ sqnorm c = 1 + r * r.
Proof.
  intros Hu Hsome.
  destruct (poincareCircleFromPointDir_inv P u c r Hsome)
    as (Hr & Hd & Ht & Hc & _).
  rewrite Hu, Rmult_1_r in Hd, Hc. repeat split; assumption.
Qed.

Lemma poincareCircleFromPointDir_spec_witness :
  exists c r,
    poincareCircleFromPointDir (mkVec2 0.5 0) (mkVec2 0 1) = Some (c, r)
    /\ sqnorm c = 1 + r * r.
Proof.
  assert (Hcirc : poincareCircleFromPointDir (mkVec2 0.5 0) (mkVec2 0 1)
                  = Some (mkVec2 1.25 0, Rabs (- 0.75))).
  { unfold poincareCircleFromPointDir, JsMath.abs. cbv zeta. cbn [vx vy].
    replace (0.5 * - (1) + 0 * 0) with (- 0.5) by lra.
    rewrite Rabs_left by lra. rewrite ltb_false by lra.
    replace ((1 - (0.5 * 0.5 + 0 * 0)) / (2 * - 0.5)) with (- 0.75) by lra.
    replace (0.5 + - 0.75 * - (1)) with 1.25 by lra.
    replace (0 + - 0.75 * 0) with 0 by lra.
    rewrite leb_false by lra. reflexivity. }
  exists (mkVec2 1.25 0), (Rabs (- 0.75)). split; [exact Hcirc|].
  apply (poincareCircleFromPointDir_spec (mkVec2 0.5 0) (mkVec2 0 1));
    [unfold sqnorm; cbn [vx vy]; lra | exact Hcirc].
Defined.

End OrthogonalCircles.

(** ** Intersections of two circles *)

Section Intersections.

(** The two candidate points of [circleCircleIntersections], in terms
    of the unit vector [(u, v)] from the first centre to the second, the
    distance [a] along it and the half chord [h]. *)
Lemma chord_point_on_circles (u v a h d r1 r2 : R) (sgn : R) :
  u * u + v * v = 1 ->
  sgn * sgn = 1 ->
  a * a + h * h = r1 * r1 ->
  2 * d * a = r1 * r1 - r2 * r2 + d * d ->
  (a * u - sgn * v * h) * (a * u - sgn * v * h)
  + (a * v + sgn * u * h) * (a * v + sgn * u * h) = r1 * r1
  /\ (a * u - sgn * v * h - d * u) * (a * u - sgn * v * h - d * u)
     + (a * v + sgn * u * h - d * v) * (a * v + sgn * u * h - d * v)
     = r2 * r2.
Proof.
  intros Huv Hsgn Hah Had.
  assert (E1 : (a * u - sgn * v * h) * (a * u - sgn * v * h)
               + (a * v + sgn * u * h) * (a * v + sgn * u * h)
               = (a * a + sgn * sgn * (h * h)) * (u * u + v * v)) by ring.
  assert (E2 : (a * u - sgn * v * h - d * u) * (a * u - sgn * v * h - d * u)
               + (a * v + sgn * u * h - d * v) * (a * v + sgn * u * h - d * v)
               = ((a - d) * (a - d) + sgn * sgn * (h * h)) * (u * u + v * v))
    by ring.
  rewrite E1, E2, Huv, Hsgn. split; nra.
Qed.

(** The two candidate points computed by [circleCircleIntersections]
    ([sgn] is [1] for the first and [-1] for the second) lie on both
    circles as soon as the half chord is real. *)
Lemma chord_candidates (c1 c2 : Vec2) (r1 r2 sgn : R) :
  let dx := vx c2 - vx c1 in
  let dy := vy c2 - vy c1 in
  let d := JsMath.hypot dx dy in
  let a := (r1 * r1 - r2 * r2 + d * d) / (2 * d) in
  let h := sqrt (JsMath.max 0 (r1 * r1 - a * a)) in
  let pt := mkVec2 (vx c1 + a * dx / d + sgn * (- dy * (h / d)))
                   (vy c1 + a * dy / d + sgn * (dx * (h / d))) in
  0 < d ->
  0 <= r1 * r1 - a * a ->
  sgn * sgn = 1 ->
  App.dist2 pt c1 = r1 * r1 /\ App.dist2 pt c2 = r2 * r2.
Proof.
  cbv zeta.
  set (dx := vx c2 - vx c1). set (dy := vy c2 - vy c1).
  set (d := JsMath.hypot dx dy).
  set (a := (r1 * r1 - r2 * r2 + d * d) / (2 * d)).
  set (h := sqrt (JsMath.max 0 (r1 * r1 - a * a))).
  intros Hdpos Hh2 Hsgn.
  assert (Hdd : d * d = dx * dx + dy * dy) by apply hypot_sqr.
  assert (Had : 2 * d * a = r1 * r1 - r2 * r2 + d * d)
    by (unfold a; field; lra).
  assert (Hhh : a * a + h * h = r1 * r1).
  { unfold h, JsMath.max. rewrite Rmax_right by exact Hh2.
    rewrite sqrt_sqrt by exact Hh2. ring. }
  set (u := dx / d). set (v := dy / d).
  assert (Huv : u * u + v * v = 1).
  { unfold u, v. replace (dx / d * (dx / d) + dy / d * (dy / d))
      with ((dx * dx + dy * dy) / (d * d)) by (field; lra).
    rewrite <- Hdd. field. lra. }
  assert (Hdxu : dx = d * u) by (unfold u; field; lra).
  assert (Hdyv : dy = d * v) by (unfold v; field; lra).
  destruct (chord_point_on_circles u v a h d r1 r2 sgn Huv Hsgn Hhh Had)
    as [P1 P2].
  unfold App.dist2. cbn [vx vy].
  replace (vx c1 + a * dx / d + sgn * (- dy * (h / d)) - vx c1)
    with (a * u - sgn * v * h) by (unfold u, v; field; lra).
  replace (vy c1 + a * dy / d + sgn * (dx * (h / d)) - vy c1)
    with (a * v + sgn * u * h) by (unfold u, v; field; lra).
  replace (vx c1 + a * dx / d + sgn * (- dy * (h / d)) - vx c2)
    with (a * u - sgn * v * h - d * u)
    by (rewrite <- Hdxu; unfold u, v, dx; field; lra).
  replace (vy c1 + a * dy / d + sgn * (dx * (h / d)) - vy c2)
    with (a * v + sgn * u * h - d * v)
    by (rewrite <- Hdyv; unfold u, v, dy; field; lra).
  split; assumption.
Qed.

(** Every point returned by [circleCircleIntersections] for two circles
    that really meet (the distance of the centres is between
    [|r1 - r2|] and [r1 + r2]) lies on both circles. *)
Theorem circleCircleIntersections_sound (c1 c2 : Vec2) (r1 r2 : R) (pt : Vec2) :
  let d := JsMath.hypot (vx c2 - vx c1) (vy c2 - vy c1) in
  0 <= r1 ->
  Rabs (r1 - r2) <= d <= r1 + r2 ->
  In pt (circleCircleIntersections c1 r1 c2 r2) ->
  App.dist2 pt c1 = r1 * r1 /\ App.dist2 pt c2 = r2 * r2.
Proof.
  cbv zeta. intros Hr1 Hd. unfold circleCircleIntersections. cbv zeta.
  pose proof (fun sgn => chord_candidates c1 c2 r1 r2 sgn) as Hc.
  cbv zeta in Hc.
  set (dx := vx c2 - vx c1) in *. set (dy := vy c2 - vy c1) in *.
  set (d := JsMath.hypot dx dy) in *.
  destruct (ltb_spec d 1e-10) as [Hnear|Hd0]; [intros []|].
  destruct (_ <? d); [intros []|].
  destruct (d <? _); [intros []|].
  set (a := (r1 * r1 - r2 * r2 + d * d) / (2 * d)) in *.
  destruct (_ <? - 1e-9); [intros []|].
  assert (Hdpos : 0 < d) by lra.
  assert (Had : 2 * d * a = r1 * r1 - r2 * r2 + d * d)
    by (unfold a; field; lra).
  assert (Hr2 : Rabs (d - r1) <= r2).
  { unfold Rabs in *. destruct (Rcase_abs (r1 - r2));
      destruct (Rcase_abs (d - r1)); lra. }
  assert (Hr2sq : (d - r1) * (d - r1) <= r2 * r2).
  { rewrite <- (Rabs_sqr (d - r1)). pose proof (Rabs_pos (d - r1)). nra. }
  assert (Hh2 : 0 <= r1 * r1 - a * a).
  { assert (Hup : a <= r1) by nra.
    assert (Hr2pos : 0 <= r2) by (pose proof (Rabs_pos (d - r1)); lra).
    assert (Hr2up : r2 <= d + r1).
    { unfold Rabs in Hd. destruct (Rcase_abs (r1 - r2)); lra. }
    assert (Hlow : - r1 <= a) by nra.
    nra. }
  set (h := sqrt (JsMath.max 0 (r1 * r1 - a * a))) in *.
  destruct (_ <? 1e-9); intros Hin; cbn [In] in Hin.
  - destruct Hin as [<-|[]].
    destruct (Hc 1 Hdpos Hh2 ltac:(ring)) as [P1 P2].
    rewrite !Rmult_1_l in P1, P2. split; assumption.
  - destruct Hin as [<-|[<-|[]]].
    + destruct (Hc 1 Hdpos Hh2 ltac:(ring)) as [P1 P2].
      rewrite !Rmult_1_l in P1, P2. split; assumption.
    + destruct (Hc (-1) Hdpos Hh2 ltac:(ring)) as [P1 P2].
      split; [rewrite <- P1 | rewrite <- P2]; f_equal;
        apply vec2_eq; cbn [vx vy]; ring.
Qed.

Lemma tangent_circles_meet :
  circleCircleIntersections (mkVec2 0 0) 1 (mkVec2 2 0) 1 = [mkVec2 1 0].
Proof.
  unfold circleCircleIntersections. cbv zeta. cbn [vx vy].
  replace (0 - 0) with 0 by ring. replace (2 - 0) with 2 by ring.
  rewrite hypot_axis by lra.
  rewrite (ltb_false 2 1e-10) by lra.
  rewrite (ltb_false (1 + 1 + 1e-9) 2) by lra.
  replace (1 - 1) with 0 by ring. unfold JsMath.abs. rewrite Rabs_R0.
  rewrite (ltb_false 2 (0 - 1e-9)) by lra.
  replace (1 * 1 - (1 * 1 - 1 * 1 + 2 * 2) / (2 * 2)
                   * ((1 * 1 - 1 * 1 + 2 * 2) / (2 * 2))) with 0 by lra.
  rewrite (ltb_false 0 (- 1e-9)) by lra.
  unfold JsMath.max. rewrite Rmax_left by lra. rewrite sqrt_0.
  rewrite ltb_true.
  - f_equal. apply vec2_eq; lra.
  - match goal with
    | |- JsMath.hypot ?x ?y < _ =>
        replace x with 0 by lra; replace y with 0 by lra
    end.
    rewrite hypot_axis by lra. lra.
Qed.

Lemma circleCircleIntersections_sound_witness :
  App.dist2 (mkVec2 1 0) (mkVec2 0 0) = 1 * 1
  /\ App.dist2 (mkVec2 1 0) (mkVec2 2 0) = 1 * 1.
Proof.
  apply (circleCircleIntersections_sound (mkVec2 0 0) (mkVec2 2 0) 1 1).
  - lra.
  - cbn [vx vy]. replace (0 - 0) with 0 by ring.
    rewrite hypot_axis by lra. replace (1 - 1) with 0 by ring.
    rewrite Rabs_R0. lra.
  - rewrite tangent_circles_meet. left. reflexivity.
Defined.

End Intersections.

(** ** Sampled arcs *)

Section Arcs.

Lemma sign_orElse (d : R) :
  JsMath.sign (JsMath.orElse d 1) = 1 \/ JsMath.sign (JsMath.orElse d 1) = -1.
Proof.
  unfold JsMath.orElse, JsMath.eqb.
  destruct (Req_dec_T d 0) as [Hz|Hnz]; unfold JsMath.sign.
  - left. now rewrite ltb_true by lra.
  - destruct (ltb_spec 0 d) as [Hp|Hn]; [now left|].
    right. now rewrite ltb_true by lra.
Qed.

(** Whichever of the two arcs is chosen, it ends in the direction of
    [aEnd]. *)
Lemma arc_delta_direction (aStart aEnd mustContain : R) :
  let d := normalizeAngle (aEnd - aStart) in
  let dAlt := d - JsMath.sign (JsMath.orElse d 1) * 2 * PI in
  let useDelta := if arcContains mustContain aStart d then d else dAlt in
  sameDirection (aStart + useDelta) aEnd.
Proof.
  cbv zeta. set (d := normalizeAngle (aEnd - aStart)).
  assert (Hd : sameDirection d (aEnd - aStart))
    by apply normalizeAngle_direction.
  assert (Halt : sameDirection
                   (d - JsMath.sign (JsMath.orElse d 1) * 2 * PI) d).
  { destruct (sign_orElse d) as [-> | ->].
    - replace (d - 1 * 2 * PI) with (d - 2 * INR 1 * PI) by (simpl; ring).
      apply sameDirection_minus_turns.
    - replace (d - -1 * 2 * PI) with (d + 2 * INR 1 * PI) by (simpl; ring).
      apply sameDirection_plus_turns. }
  apply sameDirection_trans with (aStart + (aEnd - aStart)).
  - apply sameDirection_shift.
    destruct (arcContains mustContain aStart d); [exact Hd|].
    eapply sameDirection_trans; eassumption.
  - replace (aStart + (aEnd - aStart)) with aEnd by ring.
    apply sameDirection_refl.
Qed.

Lemma polarPoint_on_circle (c : Vec2) (r a : R) :
  App.dist2 (polarPoint c r a) c = r * r.
Proof.
  unfold App.dist2, polarPoint. cbn [vx vy].
  pose proof (cos2_sin2 a) as Hcs. nra.
Qed.

Lemma polarPoint_direction (c : Vec2) (r a b : R) :
  sameDirection a b -> polarPoint c r a = polarPoint c r b.
Proof. intros [Hc Hs]. unfold polarPoint. now rewrite Hc, Hs. Qed.

Lemma sampleArcThroughAngles_length_S
    (c : Vec2) (r aStart aEnd mustContain : R) (n : nat) :
  List.length (sampleArcThroughAngles c r aStart aEnd mustContain (S n))
  = S (S n).
Proof. unfold sampleArcThroughAngles. cbv zeta. apply for_upto_length. Qed.

Lemma sampleArcThroughAngles_ends
    (c : Vec2) (r aStart aEnd mustContain : R) (n : nat) :
  let arc := sampleArcThroughAngles c r aStart aEnd mustContain (S n) in
  nth 0 arc origin2 = polarPoint c r aStart
  /\ nth (S n) arc origin2 = polarPoint c r aEnd.
Proof.
  cbv zeta. unfold sampleArcThroughAngles. cbv zeta.
  set (useDelta := if arcContains _ _ _ then _ else _).
  assert (Hpos : 0 < INR (S n)) by (apply lt_0_INR; lia).
  split.
  - rewrite for_upto_nth by lia. fold (polarPoint c r
      (aStart + useDelta * (INR 0 / INR (S n)))).
    f_equal. replace (INR 0) with 0 by reflexivity. field. lra.
  - rewrite for_upto_nth by lia. fold (polarPoint c r
      (aStart + useDelta * (INR (S n) / INR (S n)))).
    replace (aStart + useDelta * (INR (S n) / INR (S n)))
      with (aStart + useDelta) by (field; lra).
    apply polarPoint_direction. apply arc_delta_direction.
Qed.

Lemma sampleArcThroughAngles_on_circle
    (c : Vec2) (r aStart aEnd mustContain : R) (steps : nat) (pt : Vec2) :
  In pt (sampleArcThroughAngles c r aStart aEnd mustContain steps) ->
  App.dist2 pt c = r * r.
Proof.
  unfold sampleArcThroughAngles. cbv zeta. intros Hin.
  apply for_upto_In in Hin. destruct Hin as (i & _ & ->).
  apply (polarPoint_on_circle c r).
Qed.

(** A sampled arc has [steps + 1] points, all on the circle; it starts
    at the angle [aStart] and, when there is at least one step, ends at
    the angle [aEnd], whichever of the two arcs the containment test
    selects. *)
Theorem sampleArcThroughAngles_spec
    (c : Vec2) (r aStart aEnd mustContain : R) (n : nat) :
  let arc := sampleArcThroughAngles c r aStart aEnd mustContain (S n) in
  List.length arc = S (S n)
  /\ nth 0 arc origin2 = polarPoint c r aStart
  /\ nth (S n) arc origin2 = polarPoint c r aEnd
  /\ (forall pt, In pt arc -> App.dist2 pt c = r * r).
Proof.
  cbv zeta.
  destruct (sampleArcThroughAngles_ends c r aStart aEnd mustContain n)
    as [H0 Hn].
  split; [apply sampleArcThroughAngles_length_S|].
  split; [exact H0|]. split; [exact Hn|].
  intros pt. apply sampleArcThroughAngles_on_circle.
Qed.

End Arcs.

(** ** Geodesic segments *)

Section Segments.

Lemma set_nth_length {A : Type} (k : nat) (v : A) (l : list A) :
  List.length (set_nth k v l) = List.length l.
Proof.
  revert k. induction l as [|x l IH]; intros k; [now destruct k|].
  destruct k; simpl; [reflexivity | now rewrite IH].
Qed.

Lemma set_nth_In {A : Type} (k : nat) (v w : A) (l : list A) :
  In w (set_nth k v l) -> w = v \/ In w l.
Proof.
  revert k. induction l as [|x l IH]; intros k; [destruct k; intros []|].
  destruct k; simpl.
  - intros [<-|Hin]; [now left | right; now right].
  - intros [<-|Hin]; [right; now left|].
    destruct (IH _ Hin) as [->|Hl]; [now left | right; now right].
Qed.

Lemma set_nth_last {A : Type} (v d : A) (l : list A) :
  l <> [] -> last (set_nth (List.length l - 1) v l) d = v.
Proof.
  induction l as [|x l IH]; [congruence|]. intros _.
  destruct l as [|y l]; [reflexivity|].
  replace (List.length (x :: y :: l) - 1)%nat
    with (S (List.length (y :: l) - 1)) by (simpl; lia).
  - cbn [set_nth]. rewrite <- (IH ltac:(discriminate)) at 2.
    remember (set_nth (List.length (y :: l) - 1) v (y :: l)) as t eqn:Ht.
    destruct t as [|z t]; [|reflexivity].
    apply (f_equal (@List.length A)) in Ht. rewrite set_nth_length in Ht.
    discriminate.
Qed.

Lemma set_nth_head_kept {A : Type} (k : nat) (v d : A) (l : list A) :
  (0 < k)%nat -> hd d (set_nth k v l) = hd d l.
Proof. intros Hk. destruct k; [lia|]. now destruct l. Qed.

(** The end points forced on a sampled polyline. *)
Lemma forced_ends (p q : Vec2) (l : list Vec2) :
  (2 <= List.length l)%nat ->
  let l' := set_nth (List.length l - 1) q (set_nth 0 p l) in
  List.length l' = List.length l
  /\ hd origin2 l' = p
  /\ last l' origin2 = q
  /\ (forall pt, In pt l' -> pt = p \/ pt = q \/ In pt l).
Proof.
  intros Hlen. cbv zeta. rewrite !set_nth_length.
  split; [reflexivity|]. split; [|split].
  - rewrite set_nth_head_kept by lia. destruct l; [simpl in Hlen; lia|].
    reflexivity.
  - rewrite <- (set_nth_length 0 p l). apply set_nth_last.
    destruct l; [simpl in Hlen; lia | discriminate].
  - intros pt Hin. apply set_nth_In in Hin. destruct Hin as [->|Hin];
      [now right; left|].
    apply set_nth_In in Hin. destruct Hin as [->|Hin]; [now left|].
    now right; right.
Qed.

(** A geodesic segment always joins its two end points: with at least
    one step the polyline has at least two points, starts exactly at
    [p] and ends exactly at [q], in the three spaces. *)
Theorem geodesicBetween_ends (sp : SpaceId) (p q : Vec2) (n : nat) :
  let g := geodesicBetween sp p q (S n) in
  (2 <= List.length g)%nat
  /\ hd origin2 g = p
  /\ last g origin2 = q.
Proof.
  cbv zeta. destruct sp; unfold geodesicBetween.
  - cbn. repeat split. lia.
  - unfold geodesicPoincareSegment. cbv zeta.
    destruct (_ <? _); [cbn; repeat split; lia|].
    destruct (poincareCircleThroughPQ p q) as [circ|];
      [|cbn; repeat split; lia].
    rewrite (set_nth_length 0 p).
    pose proof (sampleArcThroughAngles_length_S (circ_c circ) (circ_r circ)
                  (circ_aP circ) (circ_aQ circ) (circ_aP circ) n) as Hlen.
    destruct (forced_ends p q _ ltac:(rewrite Hlen; lia))
      as (Hl & Hh & Hlast & _).
    split; [rewrite Hl, Hlen; lia | split; [exact Hh | exact Hlast]].
  - unfold geodesicSphereProjectedSegment. cbv zeta.
    destruct (_ <? _); [cbn; repeat split; lia|].
    set (l := map _ (filter _ _)).
    destruct (Nat.leb_spec 2 (List.length
                (match l with
                 | [] => l
                 | _ :: _ => set_nth (List.length l - 1) q (set_nth 0 p l)
                 end))) as [Hlen|Hshort]; [|cbn; repeat split; lia].
    destruct l as [|x l']; [simpl in Hlen; lia|].
    set (l := x :: l') in *.
    rewrite !set_nth_length in Hlen.
    destruct (forced_ends p q l Hlen) as (Hl & Hh & Hlast & _).
    split; [rewrite Hl; exact Hlen | split; [exact Hh | exact Hlast]].
Qed.

(** The spherical segment sampler joins its two end points as well
    when it is called for a full line. *)
Lemma sphere_segment_ends (p q : Vec2) (n : nat) :
  let g := geodesicSphereProjectedSegment p q (S n) in
  hd origin2 g = p /\ last g origin2 = q.
Proof.
  cbv zeta. unfold geodesicSphereProjectedSegment. cbv zeta.
  destruct (_ <? _); [cbn; split; reflexivity|].
  set (l := map _ (filter _ _)).
  destruct (Nat.leb_spec 2 (List.length
              (match l with
               | [] => l
               | _ :: _ => set_nth (List.length l - 1) q (set_nth 0 p l)
               end))) as [Hlen|Hshort]; [|cbn; split; reflexivity].
  destruct l as [|x l']; [simpl in Hlen; lia|].
  set (l := x :: l') in *.
  rewrite !set_nth_length in Hlen.
  destruct (forced_ends p q l Hlen) as (_ & Hh & Hlast & _).
  split; [exact Hh | exact Hlast].
Qed.

(** Lifts that are not parallel can still fall below the threshold of
    the full spherical line: for the centre and the point (1e-11, 0)
    the cross product of the lifts is (0, 1e-11, 0), the segment
    sampler is called instead of the circle, and the line returned
    starts at the first point and ends at the second: it is not
    closed. *)
Remark nearly_parallel_lifts_give_segment :
  let p := mkVec2 0 0 in
  let q := mkVec2 1e-11 0 in
  p <> q
  /\ vectorProduct (hemisphereLift p) (hemisphereLift q) = mkVec3 0 1e-11 0
  /\ forall n,
       let line := geodesicLineThrough SpaceS p q (S n) in
       hd origin2 line = p /\ last line origin2 = q.
Proof.
  cbv zeta.
  split; [intros Heq; apply (f_equal vx) in Heq; cbn in Heq; lra|].
  split.
  { rewrite hemisphereLift_origin. unfold hemisphereLift, vectorProduct.
    cbn [vx vy wx wy wz]. apply vec3_eq; ring. }
  intros n. unfold geodesicLineThrough, greatCircleProjectedClosed. cbv zeta.
  rewrite lift_origin.
  rewrite (liftToUpperHemisphere_lift (mkVec2 1e-11 0))
    by (unfold sqnorm; cbn [vx vy]; lra).
  assert (Hn : v3norm (v3cross (mkVec3 0 0 1) (hemisphereLift (mkVec2 1e-11 0)))
               = 1e-11).
  { unfold v3norm, v3cross, hemisphereLift, JsMath.hypot3.
    cbn [vx vy wx wy wz].
    set (z := sqrt (1 - _)). clearbody z.
    replace ((0 * z - 1 * 0) * (0 * z - 1 * 0)
             + (1 * 1e-11 - 0 * z) * (1 * 1e-11 - 0 * z)
             + (0 * 0 - 0 * 1e-11) * (0 * 0 - 0 * 1e-11))
      with (1e-11 * 1e-11) by ring.
    apply sqrt_square. lra. }
  rewrite Hn. rewrite ltb_true by lra.
  apply sphere_segment_ends.
Qed.

End Segments.

(** ** Hyperbolic segments and full lines *)

Section HyperbolicLines.

(** Filtering keeps the two ends of a polyline when both pass the
    test. *)
Lemma filter_last_kept {A : Type} (g : A -> bool) (d : A) (l : list A) :
  l <> [] -> g (last l d) = true ->
  filter g l <> [] /\ last (filter g l) d = last l d.
Proof.
  induction l as [|x l IH]; [congruence|]. intros _ Hg.
  destruct l as [|y l].
  - cbn in *. rewrite Hg. split; [discriminate | reflexivity].
  - destruct (IH ltac:(discriminate) Hg) as [Hne Hlast].
    change (filter g (x :: y :: l))
      with (if g x then x :: filter g (y :: l) else filter g (y :: l)).
    change (last (x :: y :: l) d) with (last (y :: l) d).
    destruct (g x); [|split; assumption].
    split; [discriminate|].
    destruct (filter g (y :: l)) as [|z t]; [congruence|exact Hlast].
Qed.

Lemma filter_ends_kept {A : Type} (g : A -> bool) (d : A) (l : list A) :
  (2 <= List.length l)%nat ->
  g (hd d l) = true -> g (last l d) = true ->
  (2 <= List.length (filter g l))%nat
  /\ hd d (filter g l) = hd d l
  /\ last (filter g l) d = last l d.
Proof.
  intros Hlen Hh Hl.
  destruct l as [|x [|y l]]; [simpl in Hlen; lia | simpl in Hlen; lia|].
  change (last (x :: y :: l) d) with (last (y :: l) d) in *.
  cbn [hd] in *.
  destruct (filter_last_kept g d (y :: l) ltac:(discriminate) Hl)
    as [Hne Hlast].
  change (filter g (x :: y :: l))
    with (if g x then x :: filter g (y :: l) else filter g (y :: l)).
  rewrite Hh. destruct (filter g (y :: l)) as [|z t]; [congruence|].
  split; [simpl; lia|]. split; [reflexivity | exact Hlast].
Qed.

(** A proper circle that cuts the unit circle at a right angle meets it
    in exactly two points, and [circleCircleIntersections] returns both. *)
Lemma orthogonal_circle_ideal_points (c : Vec2) (r : R) :
  0 < r -> 1e-10 < r * r -> sqnorm c = 1 + r * r ->
  exists i0 i1,
    circleCircleIntersections c r origin2 1 = [i0; i1]
    /\ sqnorm i0 = 1 /\ sqnorm i1 = 1
    /\ App.dist2 i0 c = r * r /\ App.dist2 i1 c = r * r.
Proof.
  intros Hr Hrr Horth. unfold circleCircleIntersections. cbv zeta.
  pose proof (fun sgn => chord_candidates c origin2 r 1 sgn) as Hc.
  cbv zeta in Hc.
  set (dx := vx origin2 - vx c) in *. set (dy := vy origin2 - vy c) in *.
  set (d := JsMath.hypot dx dy) in *.
  assert (Hdd : d * d = 1 + r * r).
  { unfold d. rewrite hypot_sqr. unfold dx, dy, sqnorm in *.
    cbn [origin2 vx vy]. lra. }
  assert (Hd0 : 0 <= d) by apply hypot_nonneg.
  assert (Hd1 : 1 < d) by nra.
  assert (Hr5 : 1e-5 < r) by nra.
  rewrite (ltb_false d 1e-10) by lra.
  rewrite (ltb_false (r + 1 + 1e-9) d) by nra.
  rewrite (ltb_false d (JsMath.abs (r - 1) - 1e-9)).
  2:{ unfold JsMath.abs, Rabs. destruct (Rcase_abs (r - 1)); nra. }
  set (a := (r * r - 1 * 1 + d * d) / (2 * d)) in *.
  assert (Ha : a = r * r / d) by (unfold a; field_simplify_eq; nra).
  assert (Hh2 : r * r - a * a = (r / d) * (r / d)).
  { rewrite Ha. unfold Rdiv. set (k := / d).
    assert (Hkd : k * d = 1) by (unfold k; apply Rinv_l; lra).
    assert (Hk2 : k * k * (1 + r * r) = 1).
    { rewrite <- Hdd. replace (k * k * (d * d)) with (k * d * (k * d)) by ring.
      rewrite Hkd. ring. }
    apply Rminus_diag_uniq.
    replace (r * r - r * r * k * (r * r * k) - r * k * (r * k))
      with (r * r * (1 - k * k * (1 + r * r))) by ring.
    rewrite Hk2. ring. }
  assert (Hh2pos : 0 <= r * r - a * a).
  { rewrite Hh2. apply Rle_0_sqr. }
  rewrite (ltb_false (r * r - a * a) (- 1e-9)) by lra.
  set (h := sqrt (JsMath.max 0 (r * r - a * a))) in *.
  assert (Hrd : 0 < r / d) by (apply Rdiv_lt_0_compat; lra).
  assert (Hh : h = r / d).
  { unfold h, JsMath.max. rewrite Rmax_right by exact Hh2pos.
    rewrite Hh2. apply sqrt_square. lra. }
  assert (Hsep : JsMath.hypot
                   (vx c + a * dx / d + - dy * (h / d)
                    - (vx c + a * dx / d - - dy * (h / d)))
                   (vy c + a * dy / d + dx * (h / d)
                    - (vy c + a * dy / d - dx * (h / d))) = 2 * h).
  { unfold JsMath.hypot.
    replace (_ + _) with ((2 * h) * (2 * h))
      at 1.
    - apply sqrt_square. lra.
    - assert (Hdxy : dx * dx + dy * dy = d * d)
        by (symmetry; apply hypot_sqr).
      field_simplify_eq; [|lra]. nra. }
  cbn [vx vy]. rewrite Hsep.
  assert (Hbig : 1e-9 <= 2 * h).
  { rewrite Hh. set (k := r / d) in *.
    assert (Hkd : k * d = r) by (unfold k; field; lra).
    assert (Hdr : d <= 1 + r) by nra.
    destruct (Rle_lt_dec 1e-9 (2 * k)) as [Hok|Hlow]; [exact Hok|].
    assert (Hprod : k * d < 5e-10 * d)
      by (apply Rmult_lt_compat_r; lra).
    lra. }
  rewrite (ltb_false (2 * h) 1e-9) by lra.
  destruct (Hc 1 ltac:(lra) Hh2pos ltac:(ring)) as [P1 Q1].
  destruct (Hc (-1) ltac:(lra) Hh2pos ltac:(ring)) as [P2 Q2].
  rewrite !Rmult_1_l in P1, Q1.
  eexists _, _. split; [reflexivity|].
  assert (Hsq : forall pt, App.dist2 pt origin2 = 1 * 1 -> sqnorm pt = 1).
  { intros pt. unfold App.dist2, sqnorm. cbn [origin2 vx vy].
    rewrite !Rminus_0_r. lra. }
  split; [apply Hsq; exact Q1|].
  split; [apply Hsq; rewrite <- Q2; f_equal; apply vec2_eq; cbn [vx vy]; ring|].
  split; [exact P1|].
  rewrite <- P2. f_equal. apply vec2_eq; cbn [vx vy]; ring.
Qed.

Lemma set_nth_same {A : Type} (k : nat) (v d : A) (l : list A) :
  nth k l d = v -> set_nth k v l = l.
Proof.
  revert k. induction l as [|x l IH]; intros k Hk; [now destruct k|].
  destruct k; simpl in *; [now subst | now rewrite IH].
Qed.

(** The hyperbolic segment between two points that are not aligned with
    the origin is exactly the sampled arc of the circle through them
    that is orthogonal to the unit circle: forcing the end points
    changes nothing, and every point of the polyline lies on that
    circle. *)
Theorem geodesicBetween_H_arc (p q : Vec2) (circ : Circle) (n : nat) :
  poincareCircleThroughPQ p q = Some circ ->
  let c := circ_c circ in
  let r := circ_r circ in
  let g := geodesicBetween SpaceH p q (S n) in
  g = sampleArcThroughAngles c r (circ_aP circ) (circ_aQ circ)
                             (circ_aP circ) (S n)
  /\ sqnorm c = 1 + r * r
  /\ (forall pt, In pt g -> App.dist2 pt c = r * r).
Proof.
  intros Hsome. cbv zeta.
  destruct (poincareCircleThroughPQ_inv p q circ Hsome)
    as (Hcross & _ & _ & Horth & _ & _ & HaP & HaQ).
  assert (Heq : geodesicBetween SpaceH p q (S n)
                = sampleArcThroughAngles (circ_c circ) (circ_r circ)
                    (circ_aP circ) (circ_aQ circ) (circ_aP circ) (S n)).
  { unfold geodesicBetween, geodesicPoincareSegment. cbv zeta.
    rewrite Hcross, Hsome.
    destruct (sampleArcThroughAngles_ends (circ_c circ) (circ_r circ)
                (circ_aP circ) (circ_aQ circ) (circ_aP circ) n)
      as [H0 Hn].
    rewrite <- HaP in H0. rewrite <- HaQ in Hn.
    rewrite (set_nth_same 0 p origin2 _ H0).
    rewrite sampleArcThroughAngles_length_S.
    replace (S (S n) - 1)%nat with (S n) by lia.
    apply (set_nth_same (S n) q origin2 _ Hn). }
  split; [exact Heq|]. split; [exact Horth|].
  intros pt Hin. rewrite Heq in Hin.
  eapply sampleArcThroughAngles_on_circle; exact Hin.
Qed.

Lemma geodesicBetween_H_arc_witness :
  sqnorm (mkVec2 1.25 1.25)
  = 1 + sqrt (1.25 * 1.25 + 1.25 * 1.25 - 1)
        * sqrt (1.25 * 1.25 + 1.25 * 1.25 - 1).
Proof.
  apply (geodesicBetween_H_arc (mkVec2 0.5 0) (mkVec2 0 0.5) _ 0
           half_half_circle).
Defined.

Lemma geodesicPoincareFullLine_ideal
    (p q : Vec2) (circ : Circle) (n : nat) :
  poincareCircleThroughPQ p q = Some circ ->
  let c := circ_c circ in
  let r := circ_r circ in
  let line := geodesicPoincareFullLine p q (S n) in
  (2 <= List.length line)%nat
  /\ sqnorm (hd origin2 line) = 1
  /\ sqnorm (last line origin2) = 1
  /\ (forall pt, In pt line ->
        App.dist2 pt c = r * r /\ sqnorm pt <= 1 + 1e-6).
Proof.
  intros Hsome. cbv zeta.
  destruct (poincareCircleThroughPQ_inv p q circ Hsome)
    as (Hcross & Hrr & Hr & Horth & _).
  unfold geodesicPoincareFullLine. cbv zeta.
  rewrite Hcross, Hsome.
  destruct (orthogonal_circle_ideal_points _ _ Hr Hrr Horth)
    as (i0 & i1 & -> & Hu0 & Hu1 & Hc0 & Hc1).
  change (List.length [i0; i1] <? 2)%nat with false. cbn [nth].
  set (c := circ_c circ) in *. set (r := circ_r circ) in *.
  set (a1 := JsMath.atan2 (vy i0 - vy c) (vx i0 - vx c)).
  set (a2 := JsMath.atan2 (vy i1 - vy c) (vx i1 - vx c)).
  set (pts := sampleArcThroughAngles c r a1 a2 (circ_aP circ) (S n)).
  set (g := fun s : Vec2 => vx s * vx s + vy s * vy s <=? 1 + 1e-6).
  assert (Hlen : List.length pts = S (S n))
    by apply sampleArcThroughAngles_length_S.
  destruct (sampleArcThroughAngles_ends c r a1 a2 (circ_aP circ) n)
    as [H0 Hn].
  fold pts in H0, Hn.
  assert (Hi0 : polarPoint c r a1 = i0).
  { destruct (polar_around i0 c r Hr Hc0) as [Hx Hy].
    unfold polarPoint. fold a1 in Hx, Hy. destruct i0; cbn [vx vy] in *.
    apply vec2_eq; cbn [vx vy]; lra. }
  assert (Hi1 : polarPoint c r a2 = i1).
  { destruct (polar_around i1 c r Hr Hc1) as [Hx Hy].
    unfold polarPoint. fold a2 in Hx, Hy. destruct i1; cbn [vx vy] in *.
    apply vec2_eq; cbn [vx vy]; lra. }
  assert (Hhd : hd origin2 pts = i0).
  { rewrite <- Hi0, <- H0. destruct pts; reflexivity. }
  assert (Hlast : last pts origin2 = i1).
  { rewrite <- Hi1, <- Hn. unfold pts, sampleArcThroughAngles. cbv zeta.
    rewrite for_upto_last, for_upto_nth by lia. reflexivity. }
  assert (Hg : forall s, sqnorm s = 1 -> g s = true).
  { intros s Hs. unfold g, sqnorm in *. rewrite Hs. apply leb_true. lra. }
  destruct (filter_ends_kept g origin2 pts ltac:(lia))
    as (Hlen2 & Hhd2 & Hlast2).
  { rewrite Hhd. now apply Hg. }
  { rewrite Hlast. now apply Hg. }
  destruct (Nat.leb_spec 2 (List.length (filter g pts))) as [_|Hno]; [|lia].
  split; [exact Hlen2|].
  split; [rewrite Hhd2, Hhd; exact Hu0|].
  split; [rewrite Hlast2, Hlast; exact Hu1|].
  intros pt Hin. apply filter_In in Hin. destruct Hin as [Hin Hpass].
  split.
  - eapply sampleArcThroughAngles_on_circle; exact Hin.
  - unfold g in Hpass. unfold sqnorm.
    destruct (leb_spec (vx pt * vx pt + vy pt * vy pt) (1 + 1e-6));
      [assumption | discriminate].
Qed.

(** The full hyperbolic line through two points that are not aligned
    with the origin runs from one ideal point to the other: it has at
    least two points, its first and last points are on the unit circle,
    and every point lies on the orthogonal circle through the two given
    points and within the tolerance [1e-6] of the closed unit disk. *)
Theorem geodesicLineThrough_H_ideal_ends
    (p q : Vec2) (circ : Circle) (n : nat) :
  poincareCircleThroughPQ p q = Some circ ->
  let c := circ_c circ in
  let r := circ_r circ in
  let line := geodesicLineThrough SpaceH p q (S n) in
  (2 <= List.length line)%nat
  /\ sqnorm (hd origin2 line) = 1
  /\ sqnorm (last line origin2) = 1
  /\ (forall pt, In pt line ->
        App.dist2 pt c = r * r /\ sqnorm pt <= 1 + 1e-6).
Proof.
  intros Hsome. cbv zeta. unfold geodesicLineThrough.
  exact (geodesicPoincareFullLine_ideal p q circ n Hsome).
Qed.

Lemma geodesicLineThrough_H_ideal_ends_witness :
  (2 <= List.length
          (geodesicLineThrough SpaceH (mkVec2 0.5 0) (mkVec2 0 0.5) 1))%nat.
Proof.
  apply (geodesicLineThrough_H_ideal_ends (mkVec2 0.5 0) (mkVec2 0 0.5) _ 0
           half_half_circle).
Defined.

End HyperbolicLines.

(** ** Paths of the hyperbolic walker *)

Section HyperbolicPaths.

Lemma for_upto_hd {A : Type} (n : nat) (f : nat -> A) (d : A) :
  hd d (for_upto n f) = f 0%nat.
Proof. reflexivity. Qed.

(** The polar form also holds for a circle reduced to its centre. *)
Lemma polar_around_any (p c : Vec2) (r : R) :
  0 <= r ->
  App.dist2 p c = r * r ->
  p = polarPoint c r (JsMath.atan2 (vy p - vy c) (vx p - vx c)).
Proof.
  intros Hr Hd. destruct (Req_dec_T r 0) as [Hz|Hnz].
  - subst r. unfold App.dist2 in Hd. cbv zeta in Hd.
    unfold polarPoint. destruct p as [x y]. cbn [vx vy] in *.
    pose proof (Rle_0_sqr (x - vx c)) as Hx0.
    pose proof (Rle_0_sqr (y - vy c)) as Hy0. unfold Rsqr in Hx0, Hy0.
    assert (Hx : (x - vx c) * (x - vx c) = 0) by lra.
    assert (Hy : (y - vy c) * (y - vy c) = 0) by lra.
    apply Rmult_integral in Hx. apply Rmult_integral in Hy.
    apply vec2_eq; [destruct Hx | destruct Hy]; lra.
  - destruct (polar_around p c r ltac:(lra) Hd) as [Hx Hy].
    unfold polarPoint. destruct p as [x y]. cbn [vx vy] in *.
    apply vec2_eq; assumption.
Qed.

Lemma hyperbolicGeodesicPoints_guarded_ends (a b : Vec2) (n : nat) :
  List.length (hyperbolicGeodesicPoints a b (S n)) = S (S n)
  /\ hd origin2 (hyperbolicGeodesicPoints a b (S n)) = keepInDisk a
  /\ last (hyperbolicGeodesicPoints a b (S n)) origin2 = keepInDisk b.
Proof.
  assert (Hpos : 0 < INR (S n)) by (apply lt_0_INR; lia).
  { unfold hyperbolicGeodesicPoints, JsMath.abs. cbv zeta.
    set (det := vx a * vy b - vy a * vx b).
    destruct (ltb_spec (Rabs det) 1e-6) as [Hflat|Hbig].
    - split; [apply for_upto_length|].
      rewrite for_upto_hd, for_upto_last. split; f_equal.
      + destruct a as [ax ay], b as [bx by']. unfold add2, mul2.
        cbn [vx vy]. replace (INR 0) with 0 by reflexivity.
        apply vec2_eq; field; lra.
      + destruct a as [ax ay], b as [bx by']. unfold add2, mul2.
        cbn [vx vy]. apply vec2_eq; field; lra.
    - assert (Hdet : det <> 0).
      { intros Hz. rewrite Hz, Rabs_R0 in Hbig. lra. }
      set (cx := ((dot2 a a + 1) / 2 * vy b - vy a * ((dot2 b b + 1) / 2))
                 / det).
      set (cy := (vx a * ((dot2 b b + 1) / 2) - (dot2 a a + 1) / 2 * vx b)
                 / det).
      set (r := JsMath.hypot (vx a - cx) (vy a - cy)).
      set (angA := JsMath.atan2 (vy a - cy) (vx a - cx)).
      set (angB := JsMath.atan2 (vy b - cy) (vx b - cx)).
      set (d1 := while_gt_sub _ PI (angB - angA)).
      set (d2 := while_lt_add _ (- PI) d1).
      assert (Hac : vx a * cx + vy a * cy = (dot2 a a + 1) / 2)
        by (unfold cx, cy, det, dot2 in *; field; exact Hdet).
      assert (Hbc : vx b * cx + vy b * cy = (dot2 b b + 1) / 2)
        by (unfold cx, cy, det, dot2 in *; field; exact Hdet).
      assert (Hr0 : 0 <= r) by apply hypot_nonneg.
      assert (Hra : App.dist2 a (mkVec2 cx cy) = r * r).
      { unfold App.dist2, r. cbn [vx vy]. now rewrite hypot_sqr. }
      assert (Hrb : App.dist2 b (mkVec2 cx cy) = r * r).
      { rewrite <- Hra. unfold App.dist2, dot2 in *. cbn [vx vy]. nra. }
      assert (Hdir : sameDirection (angA + d2) angB).
      { apply sameDirection_trans with (angA + (angB - angA)).
        - apply sameDirection_shift. unfold d2.
          destruct (while_lt_add_turns (angle_fuel d1) (- PI) d1)
            as [k2 ->].
          eapply sameDirection_trans; [apply sameDirection_plus_turns|].
          unfold d1.
          destruct (while_gt_sub_turns (angle_fuel (angB - angA)) PI
                      (angB - angA)) as [k1 ->].
          apply sameDirection_minus_turns.
        - replace (angA + (angB - angA)) with angB by ring.
          apply sameDirection_refl. }
      split; [apply for_upto_length|].
      rewrite for_upto_hd, for_upto_last. split; f_equal.
      + pose proof (polar_around_any a (mkVec2 cx cy) r Hr0 Hra) as Ha.
        cbn [vx vy] in Ha. fold angA in Ha.
        etransitivity; [|symmetry; exact Ha].
        unfold polarPoint. cbn [vx vy].
        replace (INR 0) with 0 by reflexivity.
        replace (angA + d2 * (0 / INR (S n))) with angA by (field; lra).
        reflexivity.
      + pose proof (polar_around_any b (mkVec2 cx cy) r Hr0 Hrb) as Hb.
        cbn [vx vy] in Hb. fold angB in Hb.
        etransitivity; [|symmetry; exact Hb].
        replace (angA + d2 * (INR (S n) / INR (S n))) with (angA + d2)
          by (field; lra).
        apply (polarPoint_direction (mkVec2 cx cy) r _ _ Hdir). }
Qed.

(** A hyperbolic path has [n + 1] samples; with at least one step it
    starts at the guarded first end and stops at the guarded second
    end, and the guard leaves a point with [|p|^2 < 0.999] as it is. *)
Theorem hyperbolicGeodesicPoints_ends (a b : Vec2) (n : nat) :
  let g := hyperbolicGeodesicPoints a b (S n) in
  List.length g = S (S n)
  /\ hd origin2 g = keepInDisk a
  /\ last g origin2 = keepInDisk b
  /\ (sqnorm a < 0.999 -> hd origin2 g = a)
  /\ (sqnorm b < 0.999 -> last g origin2 = b).
Proof.
  cbv zeta.
  destruct (hyperbolicGeodesicPoints_guarded_ends a b n)
    as (Hlen & Hhd & Hlast).
  split; [exact Hlen|]. split; [exact Hhd|]. split; [exact Hlast|].
  split; intros Hin.
  - rewrite Hhd. apply keepInDisk_inside. now rewrite <- sqnorm_dot2.
  - rewrite Hlast. apply keepInDisk_inside. now rewrite <- sqnorm_dot2.
Qed.

End HyperbolicPaths.

(** ** The frame of the spherical walker *)

Section SphereFrame.

(** [norm3] always returns a unit vector. *)
Lemma norm3_dot3 (v : Vec3) : dot3 (norm3 v) (norm3 v) = 1.
Proof.
  unfold norm3. cbv zeta.
  destruct (ltb_spec 0 (hypot3 v)) as [Hpos|Hzero].
  - assert (Hsq : hypot3 v * hypot3 v
                  = wx v * wx v + wy v * wy v + wz v * wz v)
      by (unfold hypot3; apply hypot3_sqr).
    unfold dot3, mul3. cbn [wx wy wz].
    replace (wx v * (1 / hypot3 v) * (wx v * (1 / hypot3 v))
             + wy v * (1 / hypot3 v) * (wy v * (1 / hypot3 v))
             + wz v * (1 / hypot3 v) * (wz v * (1 / hypot3 v)))
      with ((wx v * wx v + wy v * wy v + wz v * wz v)
            / (hypot3 v * hypot3 v)) by (field; lra).
    rewrite <- Hsq. field. lra.
  - unfold dot3. cbn [wx wy wz]. ring.
Qed.

Lemma norm3_of_unit (v : Vec3) : dot3 v v = 1 -> norm3 v = v.
Proof. intros Hv. apply norm3_unit. exact Hv. Qed.

Lemma orthonormal_pole : orthonormal (mkVec3 0 0 1) (mkVec3 1 0 0).
Proof. unfold orthonormal, dot3. cbn [wx wy wz]. repeat split; ring. Qed.

(** The two vectors computed by [sphereAdvance] before normalisation. *)
Lemma advance_frame (p t : Vec3) (arc : R) :
  orthonormal p t ->
  orthonormal (add3 (mul3 p (cos arc)) (mul3 t (sin arc)))
              (add3 (mul3 t (cos arc)) (mul3 p (- sin arc))).
Proof.
  intros (Hp & Ht & Hpt). pose proof (cos2_sin2 arc) as Hcs.
  destruct p as [p1 p2 p3], t as [t1 t2 t3].
  unfold orthonormal, dot3, add3, mul3 in *. cbn [wx wy wz] in *.
  set (c := cos arc) in *. set (s := sin arc) in *.
  repeat split.
  - replace (_ + _ + _)
      with (c * c * (p1 * p1 + p2 * p2 + p3 * p3)
            + s * s * (t1 * t1 + t2 * t2 + t3 * t3)
            + 2 * c * s * (p1 * t1 + p2 * t2 + p3 * t3)) by ring.
    rewrite Hp, Ht, Hpt. lra.
  - replace (_ + _ + _)
      with (c * c * (t1 * t1 + t2 * t2 + t3 * t3)
            + s * s * (p1 * p1 + p2 * p2 + p3 * p3)
            - 2 * c * s * (p1 * t1 + p2 * t2 + p3 * t3)) by ring.
    rewrite Hp, Ht, Hpt. lra.
  - replace (_ + _ + _)
      with (c * s * ((t1 * t1 + t2 * t2 + t3 * t3)
                     - (p1 * p1 + p2 * p2 + p3 * p3))
            + (c * c - s * s) * (p1 * t1 + p2 * t2 + p3 * t3)) by ring.
    rewrite Hp, Ht, Hpt. ring.
Qed.

Lemma sphereAdvance_exact (p t : Vec3) (arc : R) :
  orthonormal p t ->
  sphereAdvance p t arc
  = (add3 (mul3 p (cos arc)) (mul3 t (sin arc)),
     add3 (mul3 t (cos arc)) (mul3 p (- sin arc))).
Proof.
  intros Hf. destruct (advance_frame p t arc Hf) as (Hp2 & Ht2 & _).
  unfold sphereAdvance. cbv zeta.
  now rewrite (norm3_of_unit _ Hp2), (norm3_of_unit _ Ht2).
Qed.

(** Advancing along a great circle is a rotation in the plane of the
    position and the heading: from an orthonormal frame the
    normalisation changes nothing, the new frame is orthonormal again,
    and the new position is at the angle [arc] from the old one. *)
Theorem sphereAdvance_frame (p t : Vec3) (arc : R) :
  orthonormal p t ->
  let p2 := fst (sphereAdvance p t arc) in
  let t2 := snd (sphereAdvance p t arc) in
  p2 = add3 (mul3 p (cos arc)) (mul3 t (sin arc))
  /\ t2 = add3 (mul3 t (cos arc)) (mul3 p (- sin arc))
  /\ orthonormal p2 t2
  /\ dot3 p p2 = cos arc.
Proof.
  intros Hf. cbv zeta. rewrite (sphereAdvance_exact p t arc Hf).
  cbn [fst snd]. split; [reflexivity|]. split; [reflexivity|].
  split; [now apply advance_frame|].
  destruct Hf as (Hp & _ & Hpt).
  destruct p as [p1 p2 p3], t as [t1 t2 t3].
  unfold dot3, add3, mul3 in *. cbn [wx wy wz] in *.
  replace (_ + _ + _)
    with (cos arc * (p1 * p1 + p2 * p2 + p3 * p3)
          + sin arc * (p1 * t1 + p2 * t2 + p3 * t3)) by ring.
  rewrite Hp, Hpt. ring.
Qed.

Lemma sphereAdvance_frame_witness :
  dot3 (mkVec3 0 0 1) (fst (sphereAdvance (mkVec3 0 0 1) (mkVec3 1 0 0) 1))
  = cos 1.
Proof.
  apply (sphereAdvance_frame (mkVec3 0 0 1) (mkVec3 1 0 0) 1).
  unfold orthonormal, dot3. cbn [wx wy wz]. repeat split; ring.
Defined.

(** Advancing by [a] and then by [b] is advancing by [a + b], and
    advancing by [0] leaves the frame where it is. *)
Theorem sphereAdvance_additive (p t : Vec3) (a b : R) :
  orthonormal p t ->
  sphereAdvance (fst (sphereAdvance p t a)) (snd (sphereAdvance p t a)) b
  = sphereAdvance p t (a + b)
  /\ sphereAdvance p t 0 = (p, t).
Proof.
  intros Hf. split.
  - rewrite (sphereAdvance_exact p t a Hf). cbn [fst snd].
    rewrite (sphereAdvance_exact _ _ b (advance_frame p t a Hf)).
    rewrite (sphereAdvance_exact p t (a + b) Hf).
    rewrite cos_plus, sin_plus.
    destruct p as [p1 p2 p3], t as [t1 t2 t3]. unfold add3, mul3.
    cbn [wx wy wz]. f_equal; apply vec3_eq; ring.
  - rewrite (sphereAdvance_exact p t 0 Hf). rewrite cos_0, sin_0.
    destruct p as [p1 p2 p3], t as [t1 t2 t3]. unfold add3, mul3.
    cbn [wx wy wz]. f_equal; apply vec3_eq; ring.
Qed.

Lemma sphereAdvance_additive_witness :
  sphereAdvance (mkVec3 0 0 1) (mkVec3 1 0 0) 0
  = (mkVec3 0 0 1, mkVec3 1 0 0).
Proof.
  apply (sphereAdvance_additive (mkVec3 0 0 1) (mkVec3 1 0 0) 0 0).
  unfold orthonormal, dot3. cbn [wx wy wz]. repeat split; ring.
Defined.

(** The vector computed by [sphereTurn] before normalisation, for a
    heading tangent to the sphere. *)
Lemma turn_frame (p t : Vec3) (g : R) :
  orthonormal p t ->
  orthonormal p (add3 (mul3 t (cos g)) (mul3 (cross3 p t) (sin g))).
Proof.
  intros (Hp & Ht & Hpt). pose proof (cos2_sin2 g) as Hcs.
  destruct p as [p1 p2 p3], t as [t1 t2 t3].
  unfold orthonormal, dot3, add3, mul3, cross3 in *. cbn [wx wy wz] in *.
  set (c := cos g) in *. set (s := sin g) in *.
  split; [exact Hp|]. split.
  - replace (_ + _ + _)
      with (c * c * (t1 * t1 + t2 * t2 + t3 * t3)
            + s * s * ((p1 * p1 + p2 * p2 + p3 * p3)
                       * (t1 * t1 + t2 * t2 + t3 * t3)
                       - (p1 * t1 + p2 * t2 + p3 * t3)
                         * (p1 * t1 + p2 * t2 + p3 * t3))) by ring.
    rewrite Hp, Ht, Hpt. lra.
  - replace (_ + _ + _)
      with (c * (p1 * t1 + p2 * t2 + p3 * t3)) by ring.
    rewrite Hpt. ring.
Qed.

Lemma sphereTurn_exact (p t : Vec3) (g : R) :
  orthonormal p t ->
  sphereTurn p t g = add3 (mul3 t (cos g)) (mul3 (cross3 p t) (sin g)).
Proof.
  intros Hf. destruct (turn_frame p t g Hf) as (_ & Hu & _).
  unfold sphereTurn. cbv zeta. destruct Hf as (_ & _ & Hpt).
  rewrite Hpt.
  replace (add3 (add3 (mul3 t (cos g)) (mul3 (cross3 p t) (sin g)))
                (mul3 p (0 * (1 - cos g))))
    with (add3 (mul3 t (cos g)) (mul3 (cross3 p t) (sin g))).
  - now apply norm3_of_unit.
  - destruct p as [p1 p2 p3], t as [t1 t2 t3]. unfold add3, mul3, cross3.
    cbn [wx wy wz]. apply vec3_eq; ring.
Qed.

(** Turning rotates the heading about the position: from an
    orthonormal frame the new heading is again a unit tangent at the
    same position, it makes the angle [g] with the old heading, and two
    turns compose by adding their angles. *)
Theorem sphereTurn_frame (p t : Vec3) (g g' : R) :
  orthonormal p t ->
  orthonormal p (sphereTurn p t g)
  /\ dot3 t (sphereTurn p t g) = cos g
  /\ sphereTurn p (sphereTurn p t g) g' = sphereTurn p t (g + g').
Proof.
  intros Hf. pose proof (turn_frame p t g Hf) as Hf2.
  rewrite (sphereTurn_exact p t g Hf) in *.
  split; [exact Hf2|]. split.
  - destruct Hf as (Hp & Ht & Hpt).
    destruct p as [p1 p2 p3], t as [t1 t2 t3].
    unfold dot3, add3, mul3, cross3 in *. cbn [wx wy wz] in *.
    replace (_ + _ + _)
      with (cos g * (t1 * t1 + t2 * t2 + t3 * t3)) by ring.
    rewrite Ht. ring.
  - rewrite (sphereTurn_exact _ _ g' Hf2).
    rewrite (sphereTurn_exact p t (g + g') Hf).
    rewrite cos_plus, sin_plus.
    destruct Hf as (Hp & Ht & Hpt).
    destruct p as [p1 p2 p3], t as [t1 t2 t3].
    unfold dot3, add3, mul3, cross3 in *. cbn [wx wy wz] in *.
    set (c := cos g). set (s := sin g). set (c' := cos g').
    set (s' := sin g').
    apply vec3_eq.
    + replace (_ + _)
        with (t1 * (c * c' - s * s') + (p2 * t3 - p3 * t2) * (s * c' + c * s')
              + s * s' * (t1 * (1 - (p1 * p1 + p2 * p2 + p3 * p3))
                          + p1 * (p1 * t1 + p2 * t2 + p3 * t3))) by ring.
      rewrite Hp, Hpt. ring.
    + replace (_ + _)
        with (t2 * (c * c' - s * s') + (p3 * t1 - p1 * t3) * (s * c' + c * s')
              + s * s' * (t2 * (1 - (p1 * p1 + p2 * p2 + p3 * p3))
                          + p2 * (p1 * t1 + p2 * t2 + p3 * t3))) by ring.
      rewrite Hp, Hpt. ring.
    + replace (_ + _)
        with (t3 * (c * c' - s * s') + (p1 * t2 - p2 * t1) * (s * c' + c * s')
              + s * s' * (t3 * (1 - (p1 * p1 + p2 * p2 + p3 * p3))
                          + p3 * (p1 * t1 + p2 * t2 + p3 * t3))) by ring.
      rewrite Hp, Hpt. ring.
Qed.

Lemma sphereTurn_frame_witness :
  dot3 (mkVec3 1 0 0) (sphereTurn (mkVec3 0 0 1) (mkVec3 1 0 0) 1) = cos 1.
Proof.
  apply (sphereTurn_frame (mkVec3 0 0 1) (mkVec3 1 0 0) 1 0).
  unfold orthonormal, dot3. cbn [wx wy wz]. repeat split; ring.
Defined.

End SphereFrame.

(** ** What a frame of the animation leaves alone *)

Section AnimationFrame.

(** A frame of the animation never changes the space, the finished
    shapes or the log, and it only touches the coordinates of the
    current space. *)
Theorem stepAnimation_frame (st : EngineState) (dt : R) :
  let st' := stepAnimation st dt in
  space st' = space st
  /\ shapes st' = shapes st
  /\ log st' = log st
  /\ (space st <> SpaceE -> e_pos st' = e_pos st /\ e_theta st' = e_theta st)
  /\ (space st <> SpaceH -> h_pos st' = h_pos st /\ h_theta st' = h_theta st)
  /\ (space st <> SpaceS -> s_p st' = s_p st /\ s_t st' = s_t st).
Proof.
  cbv zeta. unfold stepAnimation.
  destruct (active (anim st)); [|cbn [negb]; repeat split].
  cbn [negb].
  destruct (rotate (anim st)) as [r|].
  - destruct (space st) eqn:Hs; cbn; rewrite ?Hs; repeat split; congruence.
  - cbv zeta. destruct (_ <? 2)%nat; [cbn; repeat split|].
    set (w := walkPath _ _ _).
    destruct (space st) eqn:Hs.
    all: destruct (addToTrace (anim st));
      [destruct (inProgress _) as [poly|];
         [destruct (lastOf (pts poly)); [destruct (_ <? _)|]|]|].
    all: cbn; rewrite ?Hs; repeat split; congruence.
Qed.


Lemma sphereTurn_unit (p t : Vec3) (g : R) :
  dot3 (sphereTurn p t g) (sphereTurn p t g) = 1.
Proof. unfold sphereTurn. cbv zeta. apply norm3_dot3. Qed.

Lemma createInitialState_onSphere (sp : SpaceId) :
  onSphere (createInitialState sp).
Proof.
  unfold onSphere, createInitialState. cbv zeta. cbn [s_p s_t].
  split; apply norm3_dot3.
Qed.

(** The spherical position and heading stay unit vectors through every
    frame of the animation, every advance and every scheduled turn. *)
Theorem onSphere_kept (st : EngineState) (dt dist deg duration : R) :
  onSphere st ->
  onSphere (stepAnimation st dt)
  /\ onSphere (built_next (buildAdvancePath st dist))
  /\ onSphere (buildTurnAnim st deg duration).
Proof.
  intros [Hp Ht]. split; [|split].
  - unfold stepAnimation.
    destruct (active (anim st)); [|split; assumption].
    cbn [negb].
    destruct (rotate (anim st)) as [r|].
    + destruct (space st); split; cbn; try assumption.
      apply sphereTurn_unit.
    + cbv zeta. destruct (_ <? 2)%nat; [split; assumption|].
      set (w := walkPath _ _ _).
      destruct (space st).
      all: destruct (addToTrace (anim st));
        [destruct (inProgress _) as [poly|];
           [destruct (lastOf (pts poly)); [destruct (_ <? _)|]|]|].
      all: split; cbn; try assumption; apply norm3_dot3.
  - unfold buildAdvancePath, sphereAdvance. cbv zeta.
    destruct (space st); split; cbn; try assumption; apply norm3_dot3.
  - unfold buildTurnAnim. cbv zeta.
    destruct (space st); split; assumption.
Qed.

Lemma onSphere_kept_witness :
  onSphere (stepAnimation (createInitialState SpaceS) 0.033).
Proof.
  apply (onSphere_kept (createInitialState SpaceS) 0.033 0 0 0).
  unfold onSphere, createInitialState. cbv zeta. cbn [s_p s_t].
  split; apply norm3_dot3.
Defined.

End AnimationFrame.

(** ** Advancing and measuring *)

Section AdvanceDistance.

Lemma hypot_scaled (c s k : R) :
  c * c + s * s = 1 -> JsMath.hypot (c * k) (s * k) = Rabs k.
Proof.
  intros Hcs. unfold JsMath.hypot.
  replace (c * k * (c * k) + s * k * (s * k))
    with ((c * c + s * s) * (k * k)) by ring.
  rewrite Hcs, Rmult_1_l. apply sqrt_Rsqr_abs.
Qed.

(** Moebius addition is a hyperbolic translation: the quantity that
    [distanceExact] feeds to [acosh] only depends on the added vector. *)
Lemma mobius_distance_ratio (p v : Vec2) :
  sqnorm p < 1 -> sqnorm v < 1 ->
  let q := mobiusAdd p v in
  0 < (1 - sqnorm p) * (1 - sqnorm q)
  /\ 2 * App.dist2 p q / ((1 - sqnorm p) * (1 - sqnorm q))
     = 2 * sqnorm v / (1 - sqnorm v).
Proof.
  intros Hp Hv. cbv zeta.
  assert (Hp0 : 0 <= sqnorm p) by (unfold sqnorm; nra).
  assert (Hv0 : 0 <= sqnorm v) by (unfold sqnorm; nra).
  assert (Hpv : sqnorm p * sqnorm v < 1) by nra.
  pose proof (mobius_denominator_pos p v Hpv) as HD.
  rewrite <- !sqnorm_dot2 in HD.
  set (D := 1 + 2 * dot2 p v + sqnorm p * sqnorm v) in *.
  assert (Hgap : 1 - sqnorm (mobiusAdd p v)
                 = (1 - sqnorm p) * (1 - sqnorm v) / D).
  { unfold D, mobiusAdd. cbv zeta. rewrite <- !sqnorm_dot2.
    unfold sqnorm at 1. cbn [vx vy].
    unfold D, sqnorm, dot2 in *. field. lra. }
  assert (Hd2 : App.dist2 p (mobiusAdd p v)
                = (1 - sqnorm p) * (1 - sqnorm p) * sqnorm v / D).
  { unfold D, mobiusAdd, App.dist2. cbv zeta. rewrite <- !sqnorm_dot2.
    cbn [vx vy]. unfold D, sqnorm, dot2 in *. field. lra. }
  rewrite Hgap, Hd2. split.
  - apply Rmult_lt_0_compat; [lra|].
    apply Rdiv_lt_0_compat; [nra | exact HD].
  - field. repeat split; lra.
Qed.

(** [acosh] undoes the hyperbolic cosine written with [E = exp x]. *)
Lemma acosh_exp_mean (E : R) :
  0 < E -> JsMath.acosh ((E + / E) / 2) = Rabs (ln E).
Proof.
  intros HE. unfold JsMath.acosh.
  assert (HiE : 0 < / E) by now apply Rinv_0_lt_compat.
  assert (Hinv : E * / E = 1) by (apply Rinv_r; lra).
  assert (Hsq : (E + / E) / 2 * ((E + / E) / 2) - 1
                = (E - / E) / 2 * ((E - / E) / 2)) by nra.
  rewrite Hsq. fold (Rsqr ((E - / E) / 2)). rewrite sqrt_Rsqr_abs.
  destruct (Rle_lt_dec 1 E) as [Hge|Hlt].
  - assert (HiE1 : / E <= 1) by nra.
    rewrite Rabs_right by lra.
    replace ((E + / E) / 2 + (E - / E) / 2) with E by lra.
    rewrite Rabs_right; [reflexivity|].
    apply Rle_ge. rewrite <- ln_1.
    destruct (Req_dec_T E 1) as [->|Hne]; [lra|].
    left. apply ln_increasing; lra.
  - assert (HiE1 : 1 < / E) by nra.
    rewrite Rabs_left by lra.
    replace ((E + / E) / 2 + - ((E - / E) / 2)) with (/ E) by lra.
    rewrite ln_Rinv by exact HE.
    rewrite Rabs_left; [reflexivity|].
    rewrite <- ln_1. apply ln_increasing; lra.
Qed.

Lemma tanh_sqr_lt_1 (x : R) : SpaceEngine.tanh x * SpaceEngine.tanh x < 1.
Proof.
  unfold SpaceEngine.tanh. cbv zeta. pose proof (exp_pos (2 * x)) as HE.
  set (E := exp (2 * x)) in *.
  assert (Hinv : (E + 1) * / (E + 1) = 1) by (apply Rinv_r; lra).
  assert (Hi : 0 < / (E + 1)) by (apply Rinv_0_lt_compat; lra).
  unfold Rdiv. set (k := / (E + 1)) in *.
  assert (Hlo : -1 < (E - 1) * k) by nra.
  assert (Hhi : (E - 1) * k < 1) by nra.
  nra.
Qed.

Lemma cosh_of_tanh_half (x : R) :
  let t := SpaceEngine.tanh (x / 2) in
  1 + 2 * (t * t) / (1 - t * t) = (exp x + / exp x) / 2.
Proof.
  cbv zeta. pose proof (tanh_sqr_lt_1 (x / 2)) as Ht.
  unfold SpaceEngine.tanh in *. cbv zeta in *.
  replace (2 * (x / 2)) with x in * by field.
  pose proof (exp_pos x) as HE. set (E := exp x) in *.
  field. repeat split; lra.
Qed.

Lemma advance_E_distance (st : EngineState) (dist : R) :
  space st = SpaceE ->
  App.distanceExact SpaceE (frogWorldPos st)
    (frogWorldPos (built_next (buildAdvancePath st dist)))
  = Num (Rabs dist).
Proof.
  intros Hs. unfold buildAdvancePath, frogWorldPos. rewrite Hs. cbv zeta.
  cbn [built_next space set_e_pos e_pos]. rewrite Hs.
  unfold App.distanceExact, App.euclidLen, add2, mul2. cbn [vx vy].
  f_equal.
  replace (vx (e_pos st) + cos (e_theta st) * dist - vx (e_pos st))
    with (cos (e_theta st) * dist) by ring.
  replace (vy (e_pos st) + sin (e_theta st) * dist - vy (e_pos st))
    with (sin (e_theta st) * dist) by ring.
  apply hypot_scaled. apply cos2_sin2.
Qed.

Lemma advance_H_distance (st : EngineState) (dist : R) :
  space st = SpaceH ->
  sqnorm (h_pos st) < 1 ->
  sqnorm (advanceTargetH st dist) < 0.9999 ->
  App.distanceExact SpaceH (frogWorldPos st)
    (frogWorldPos (built_next (buildAdvancePath st dist)))
  = Num (Rabs dist).
Proof.
  intros Hs Hp Hfree. unfold buildAdvancePath, frogWorldPos. rewrite Hs.
  cbv zeta. fold (advanceTargetH st dist).
  rewrite <- sqnorm_dot2, (leb_false 0.9999) by lra.
  cbn [built_next space set_h_pos h_pos]. rewrite Hs.
  set (p := h_pos st) in *.
  set (d0 := hyperbolicDirectionAtOrigin p
               (mkVec2 (cos (h_theta st)) (sin (h_theta st)))).
  set (t := SpaceEngine.tanh (dist / 2)).
  assert (Hd0 : sqnorm d0 = 1) by apply norm2_sqnorm.
  assert (Ht : t * t < 1) by apply tanh_sqr_lt_1.
  assert (Hv : sqnorm (mul2 d0 t) = t * t).
  { unfold sqnorm, mul2 in *. cbn [vx vy].
    replace (vx d0 * t * (vx d0 * t) + vy d0 * t * (vy d0 * t))
      with ((vx d0 * vx d0 + vy d0 * vy d0) * (t * t)) by ring.
    rewrite Hd0. ring. }
  assert (Hq : advanceTargetH st dist = mobiusAdd p (mul2 d0 t))
    by reflexivity.
  rewrite Hq.
  destruct (mobius_distance_ratio p (mul2 d0 t) Hp ltac:(rewrite Hv; exact Ht))
    as [Hden Hratio].
  unfold App.distanceExact. cbv zeta.
  fold (sqnorm p). fold (sqnorm (mobiusAdd p (mul2 d0 t))).
  fold (App.dist2 p (mobiusAdd p (mul2 d0 t))).
  rewrite (leb_false _ 0) by lra.
  rewrite Hratio, Hv. unfold t at 1 2 3 4.
  rewrite (cosh_of_tanh_half dist).
  pose proof (exp_pos dist) as HE.
  assert (Hge : 1 <= (exp dist + / exp dist) / 2).
  { assert (Hinv : exp dist * / exp dist = 1) by (apply Rinv_r; lra).
    assert (HiE : 0 < / exp dist) by now apply Rinv_0_lt_compat.
    pose proof (Rle_0_sqr (exp dist - 1)) as Hsq. unfold Rsqr in Hsq.
    nra. }
  unfold JsMath.max. rewrite Rmax_right by exact Hge.
  rewrite acosh_exp_mean by exact HE. now rewrite ln_exp.
Qed.

Lemma lift_of_upper (p : Vec3) :
  dot3 p p = 1 -> 0 <= wz p -> App.liftSphereUpper (sphereToWorld2 p) = p.
Proof.
  intros Hp Hz. destruct p as [x y z]. unfold dot3 in Hp.
  unfold App.liftSphereUpper, sphereToWorld2. cbn [vx vy wx wy wz] in *.
  apply vec3_eq; [reflexivity | reflexivity |].
  replace (1 - (x * x + y * y)) with (z * z) by lra.
  unfold JsMath.max. rewrite Rmax_right by nra. now apply sqrt_square.
Qed.

Lemma acos_cos_abs (x : R) : Rabs x <= PI -> acos (cos x) = Rabs x.
Proof.
  intros Hx. unfold Rabs in *. destruct (Rcase_abs x) as [Hneg|Hpos].
  - rewrite <- cos_neg. apply acos_cos. lra.
  - apply acos_cos. lra.
Qed.

Lemma advance_S_distance (st : EngineState) (dist : R) :
  space st = SpaceS ->
  orthonormal (s_p st) (s_t st) ->
  0 <= wz (s_p st) ->
  0 <= wz (fst (sphereAdvance (s_p st) (s_t st) dist)) ->
  Rabs dist <= PI ->
  App.distanceExact SpaceS (frogWorldPos st)
    (frogWorldPos (built_next (buildAdvancePath st dist)))
  = Num (Rabs dist).
Proof.
  intros Hs Hf Hz Hz2 Hd. unfold buildAdvancePath, frogWorldPos. rewrite Hs.
  cbv zeta. destruct (advance_frame _ _ dist Hf) as (Hp2 & _ & _).
  rewrite (sphereAdvance_exact _ _ dist Hf) in *. cbn [fst] in Hz2.
  cbn [built_next space set_s_t set_s_p s_p]. rewrite Hs.
  set (p := s_p st) in *. set (t := s_t st) in *.
  set (p2 := add3 (mul3 p (cos dist)) (mul3 t (sin dist))) in *.
  destruct Hf as (Hp & Ht & Hpt).
  unfold App.distanceExact. cbv zeta.
  rewrite (lift_of_upper p Hp Hz), (lift_of_upper p2 Hp2 Hz2).
  assert (Hn : forall v : Vec3, dot3 v v = 1 -> App.norm3 v = 1).
  { intros v Hv. unfold App.norm3, JsMath.hypot3. unfold dot3 in Hv.
    rewrite Hv. apply sqrt_1. }
  rewrite (Hn p Hp), (Hn p2 Hp2), orElse_pos by lra.
  assert (Hcos : App.dot3 p p2 = cos dist).
  { unfold p2, App.dot3, dot3, add3, mul3 in *.
    destruct p as [p1 p2' p3], t as [t1 t2 t3]. cbn [wx wy wz] in *.
    replace (_ + _ + _)
      with (cos dist * (p1 * p1 + p2' * p2' + p3 * p3)
            + sin dist * (p1 * t1 + p2' * t2 + p3 * t3)) by ring.
    rewrite Hp, Hpt. ring. }
  rewrite Hcos. replace (cos dist / (1 * 1)) with (cos dist) by field.
  change (App.clamp (cos dist) (-1) 1) with (clamp (cos dist) (-1) 1).
  rewrite clamp_id by apply COS_bound.
  f_equal. now apply acos_cos_abs.
Qed.

(** The measuring tool agrees with the walker: after a regular advance
    the exact distance between the old and the new position is the
    length that was asked for, in the three spaces. *)
Theorem advance_distance (st : EngineState) (dist : R) :
  advanceRegular st dist ->
  App.distanceExact (space st) (frogWorldPos st)
    (frogWorldPos (built_next (buildAdvancePath st dist)))
  = Num (Rabs dist).
Proof.
  unfold advanceRegular. destruct (space st) eqn:Hs.
  - intros _. now apply advance_E_distance.
  - intros [Hp Hfree]. now apply advance_H_distance.
  - intros (Hf & Hz & Hz2 & Hd). now apply advance_S_distance.
Qed.

Lemma mobiusAdd_origin (v : Vec2) : mobiusAdd (mkVec2 0 0) v = v.
Proof.
  destruct v as [x y]. unfold mobiusAdd, dot2. cbn [vx vy].
  apply vec2_eq; field.
Qed.

Lemma tanh_half_bounds : 0 <= SpaceEngine.tanh (1 / 2) <= 1 / 2.
Proof.
  unfold SpaceEngine.tanh. cbv zeta. replace (2 * (1 / 2)) with 1 by field.
  pose proof exp_le_3 as Hup.
  assert (Hlow : 1 <= exp 1).
  { pose proof (exp_increasing 0 1 ltac:(lra)) as Hinc.
    rewrite exp_0 in Hinc. lra. }
  set (E := exp 1) in *.
  assert (Hinv : (E + 1) * / (E + 1) = 1) by (apply Rinv_r; lra).
  assert (Hi : 0 < / (E + 1)) by (apply Rinv_0_lt_compat; lra).
  assert (Heq : (E - 1) / (E + 1) = 1 - 2 * / (E + 1))
    by (field; lra).
  rewrite Heq. set (k := / (E + 1)) in *.
  assert (Hk1 : 0 <= (E - 1) * k) by (apply Rmult_le_pos; lra).
  assert (Hk2 : 0 <= (3 - E) * k) by (apply Rmult_le_pos; lra).
  lra.
Qed.

Lemma advance_distance_witness :
  App.distanceExact SpaceH (mkVec2 0 0)
    (frogWorldPos (built_next
       (buildAdvancePath (createInitialState SpaceH) 1)))
  = Num (Rabs 1).
Proof.
  apply (advance_distance (createInitialState SpaceH) 1).
  unfold advanceRegular, advanceTargetH. cbn [space createInitialState h_pos].
  split; [unfold sqnorm; cbn [vx vy]; lra|].
  rewrite mobiusAdd_origin.
  set (d0 := hyperbolicDirectionAtOrigin _ _).
  assert (Hd0 : sqnorm d0 = 1) by apply norm2_sqnorm.
  pose proof tanh_half_bounds as Ht.
  unfold sqnorm, mul2 in *. cbn [vx vy].
  set (t := SpaceEngine.tanh (1 / 2)) in *.
  replace (vx d0 * t * (vx d0 * t) + vy d0 * t * (vy d0 * t))
    with ((vx d0 * vx d0 + vy d0 * vy d0) * (t * t)) by ring.
  rewrite Hd0. nra.
Defined.

(** The path built for an advance joins the position before the advance
    to the position of the state that the advance returns. *)
Theorem buildAdvancePath_joins (st : EngineState) (dist : R) :
  advanceVisible st dist ->
  let b := buildAdvancePath st dist in
  hd origin2 (built_path b) = frogWorldPos st
  /\ last (built_path b) origin2 = frogWorldPos (built_next b).
Proof.
  unfold advanceVisible. cbv zeta. unfold frogWorldPos, buildAdvancePath.
  destruct (space st) eqn:Hs; cbv zeta.
  - intros _. cbn. rewrite Hs. split; reflexivity.
  - set (p2 := if _ <=? _ then _ else _).
    cbn [built_next built_path space set_h_pos h_pos]. rewrite Hs.
    intros [Hp Hp2].
    destruct (hyperbolicGeodesicPoints_guarded_ends (h_pos st) p2 179)
      as (_ & Hhd & Hlast).
    rewrite Hhd, Hlast.
    split; apply keepInDisk_inside; now rewrite <- sqnorm_dot2.
  - intros Hp.
    destruct (sphereAdvance (s_p st) (s_t st) dist) as [p2 t2] eqn:Hadv.
    cbn [built_next built_path space set_s_t set_s_p s_p]. rewrite Hs.
    unfold greatCirclePath. rewrite for_upto_hd, for_upto_last.
    assert (H260 : 0 < INR 260) by (apply lt_0_INR; lia).
    replace (dist * INR 260 / INR 260) with dist by (field; lra).
    rewrite Hadv. cbn [fst]. split; [|reflexivity].
    replace (dist * INR 0 / INR 260) with 0
      by (replace (INR 0) with 0 by reflexivity; field; lra).
    unfold sphereAdvance. cbv zeta. cbn [fst]. rewrite cos_0, sin_0.
    replace (add3 (mul3 (s_p st) 1) (mul3 (s_t st) 0)) with (s_p st).
    + now rewrite (norm3_of_unit _ Hp).
    + destruct (s_p st) as [x y z], (s_t st) as [u v w].
      unfold add3, mul3. cbn [wx wy wz]. apply vec3_eq; ring.
Qed.

Lemma buildAdvancePath_joins_witness :
  last (built_path (buildAdvancePath (createInitialState SpaceS) 1)) origin2
  = frogWorldPos (built_next (buildAdvancePath (createInitialState SpaceS) 1)).
Proof.
  apply (buildAdvancePath_joins (createInitialState SpaceS) 1).
  unfold advanceVisible, createInitialState. cbv zeta. cbn [space s_p].
  apply norm3_dot3.
Defined.

End AdvanceDistance.

(** ** Turns in the plane models *)

Section PlaneTurns.

(** One frame of a turn in a plane model. *)
Lemma stepAnimation_turn_plane (st : EngineState) (r : Rotate) (dt : R) :
  space st <> SpaceS ->
  active (anim st) = true ->
  rotate (anim st) = Some r ->
  let u := clamp ((rot_elapsed r + dt) / rot_duration r) 0 1 in
  let st' := stepAnimation st dt in
  space st' = space st
  /\ planeHeading st' = rot_from r + (rot_to r - rot_from r) * u
  /\ anim st'
     = (if 1 <=? u then idleAnim (speed (anim st))
        else set_rotate (anim st)
               (mkRotate (rot_from r) (rot_to r) (rot_elapsed r + dt)
                         (rot_duration r))).
Proof.
  intros Hs Hact Hrot. cbv zeta. unfold stepAnimation, planeHeading.
  rewrite Hact, Hrot. cbn [negb]. cbv zeta.
  destruct (space st) eqn:Hsp; [| |congruence]; cbn; rewrite Hsp;
    repeat split.
Qed.

Lemma progress_below (e dt dur : R) :
  0 < dur -> ~ 1 <= clamp ((e + dt) / dur) 0 1 -> e + dt < dur.
Proof.
  intros Hdur Hgo.
  destruct (Rlt_dec (e + dt) dur) as [Hlt|Hge]; [exact Hlt|].
  exfalso. apply Hgo. rewrite clamp_unit_top; [lra|].
  apply Rmult_le_reg_r with dur; [lra|].
  unfold Rdiv. rewrite Rmult_assoc, Rinv_l by lra. lra.
Qed.

Lemma stepAll_turn_plane :
  forall (dts : list R) (st : EngineState) (from to e dur : R),
    space st <> SpaceS ->
    active (anim st) = true ->
    rotate (anim st) = Some (mkRotate from to e dur) ->
    0 < dur ->
    e < dur ->
    (exists u, 0 <= u <= 1 /\ planeHeading st = from + (to - from) * u) ->
    let st' := stepAll st dts in
    (exists u, 0 <= u <= 1 /\ planeHeading st' = from + (to - from) * u)
    /\ (dur <= e + sumR dts ->
        planeHeading st' = to /\ active (anim st') = false).
Proof.
  induction dts as [|dt dts IH]; intros st from to e dur Hs Hact Hrot Hdur He Hu.
  - cbn. split; [exact Hu | intros Hsum; lra].
  - cbv zeta. unfold stepAll. cbn [fold_left].
    fold (stepAll (stepAnimation st dt) dts).
    destruct (stepAnimation_turn_plane st _ dt Hs Hact Hrot)
      as (Hsp & Hth & Han).
    cbn [rot_from rot_to rot_elapsed rot_duration] in Hth, Han.
    pose proof (clamp_unit_range ((e + dt) / dur)) as Hrange.
    set (u := clamp ((e + dt) / dur) 0 1) in *.
    destruct (leb_spec 1 u) as [Hdone|Hgo].
    + assert (Hu1 : u = 1) by lra.
      rewrite stepAll_idle by (rewrite Han; reflexivity).
      rewrite Hth, Hu1. split.
      * exists 1. split; [lra | reflexivity].
      * intros _. split; [ring | now rewrite Han].
    + pose proof (progress_below e dt dur Hdur Hgo) as He'.
      destruct (IH (stepAnimation st dt) from to (e + dt) dur) as [Hr Hend].
      * now rewrite Hsp.
      * rewrite Han. exact Hact.
      * rewrite Han. reflexivity.
      * exact Hdur.
      * exact He'.
      * exists u. split; [exact Hrange | exact Hth].
      * split; [exact Hr|]. intros Hsum. apply Hend.
        change (sumR (dt :: dts)) with (dt + sumR dts) in Hsum. lra.
Qed.

(** A turn of any angle in the Euclidean or hyperbolic model, stepped
    with any frame times: the heading always lies between the initial
    heading and the target, and as soon as the frame times add up to
    the duration the heading is exactly the target and the job is over. *)
Theorem turn_converges_plane
    (st : EngineState) (deg duration : R) (dts : list R) :
  space st <> SpaceS ->
  0 < duration ->
  let ang := deg * PI / 180 in
  let st' := stepAll (buildTurnAnim st deg duration) dts in
  (exists u, 0 <= u <= 1 /\ planeHeading st' = planeHeading st + ang * u)
  /\ (duration <= sumR dts ->
      planeHeading st' = planeHeading st + ang /\ active (anim st') = false).
Proof.
  intros Hs Hdur. cbv zeta.
  set (ang := deg * PI / 180).
  assert (Hb : space (buildTurnAnim st deg duration) = space st
               /\ planeHeading (buildTurnAnim st deg duration)
                  = planeHeading st
               /\ active (anim (buildTurnAnim st deg duration)) = true
               /\ rotate (anim (buildTurnAnim st deg duration))
                  = Some (mkRotate (planeHeading st) (planeHeading st + ang)
                                   0 duration)).
  { unfold buildTurnAnim, planeHeading. cbv zeta.
    destruct (space st) eqn:Hsp; [| |congruence]; cbn; rewrite Hsp;
      repeat split. }
  destruct Hb as (Hsp & Hth & Hact & Hrot).
  destruct (stepAll_turn_plane dts (buildTurnAnim st deg duration)
              (planeHeading st) (planeHeading st + ang) 0 duration)
    as [Hr Hend].
  - now rewrite Hsp.
  - exact Hact.
  - exact Hrot.
  - exact Hdur.
  - exact Hdur.
  - exists 0. split; [lra | rewrite Hth; ring].
  - split.
    + destruct Hr as (u & Hu & Heq). exists u. split; [exact Hu|].
      rewrite Heq. ring.
    + intros Hsum. apply Hend. lra.
Qed.

Lemma turn_converges_plane_witness :
  planeHeading (stepAll (buildTurnAnim (createInitialState SpaceH) (-45) 1)
                        [0.5; 0.5])
  = planeHeading (createInitialState SpaceH) + -45 * PI / 180
  /\ active (anim (stepAll (buildTurnAnim (createInitialState SpaceH) (-45) 1)
                           [0.5; 0.5])) = false.
Proof.
  apply (turn_converges_plane (createInitialState SpaceH) (-45) 1 [0.5; 0.5]).
  - cbn. discriminate.
  - lra.
  - cbn. lra.
Defined.

End PlaneTurns.

(** ** Walking a whole path in one frame *)

Section WholePath.

Lemma restLength_nonneg (path : list Vec2) (n i : nat) :
  0 <= restLength path i n.
Proof.
  revert i. induction n as [|n IH]; intros i; cbn [restLength]; [lra|].
  pose proof (IH (S i)) as Hrest.
  pose proof (hypot_nonneg
                (vx (sub2 (nth (i + 1) path (mkVec2 0 0))
                          (nth i path (mkVec2 0 0))))
                (vy (sub2 (nth (i + 1) path (mkVec2 0 0))
                          (nth i path (mkVec2 0 0))))) as Hseg.
  fold (hypot2 (sub2 (nth (i + 1) path (mkVec2 0 0))
                     (nth i path (mkVec2 0 0)))) in Hseg.
  fold (segLength path i) in Hseg. lra.
Qed.

(** The walk from the start of segment [i], with [n] segments left:
    it reaches the end of the path exactly when the budget exceeds the
    length of what is left. *)
Lemma walkPath_through (path : list Vec2) :
  forall (n fuel : nat) (w : Walk),
    walk_t w = 0 ->
    (walk_i w + n = List.length path - 1)%nat ->
    (n < fuel)%nat ->
    let w' := walkPath fuel path w in
    (restLength path (walk_i w) n < walk_remaining w ->
       walk_i w' = (List.length path - 1)%nat
       /\ ((0 < n)%nat ->
           walk_pos w' = nth (List.length path - 1) path (mkVec2 0 0)))
    /\ (walk_remaining w <= restLength path (walk_i w) n ->
        (0 < n)%nat -> (walk_i w' < List.length path - 1)%nat).
Proof.
  induction n as [|n IH]; intros fuel w Ht Hi Hfuel; cbv zeta.
  - destruct fuel as [|fuel]; [lia|]. cbn [walkPath].
    rewrite (proj2 (Nat.ltb_ge (walk_i w) (List.length path - 1)))
      by lia.
    rewrite andb_false_r. split; [|intros _ Hn; lia].
    intros _. split; [lia | intros Hn; lia].
  - destruct fuel as [|fuel]; [lia|]. cbn [walkPath restLength].
    pose proof (restLength_nonneg path n (S (walk_i w))) as Hrest.
    assert (Hseg : 0 <= segLength path (walk_i w)).
    { pose proof (restLength_nonneg path 1 (walk_i w)) as H1.
      cbn [restLength] in H1. lra. }
    rewrite (proj2 (Nat.ltb_lt (walk_i w) (List.length path - 1)))
      by lia.
    rewrite andb_true_r.
    destruct (ltb_spec 0 (walk_remaining w)) as [Hrem|Hrem].
    + rewrite Ht. fold (segLength path (walk_i w)).
      replace (segLength path (walk_i w) * (1 - 0))
        with (segLength path (walk_i w)) by ring.
      destruct (leb_spec (walk_remaining w) (segLength path (walk_i w)))
        as [Hle|Hgt].
      * cbn [walk_i walk_pos]. split; [intros Hlt; lra|].
        intros _ _. lia.
      * destruct (IH fuel
                    (mkWalk (walk_i w + 1) 0
                       (walk_remaining w - segLength path (walk_i w))
                       (nth (walk_i w + 1) path (mkVec2 0 0))))
          as [Hyes Hno]; [reflexivity | cbn [walk_i]; lia | lia |].
        cbn [walk_i walk_remaining] in Hyes, Hno.
        replace (walk_i w + 1)%nat with (S (walk_i w)) in Hyes, Hno by lia.
        replace (walk_i w + 1)%nat with (S (walk_i w)) by lia.
        split.
        -- intros Hlt. destruct Hyes as [Hidx Hpos]; [lra|].
           split; [exact Hidx|]. intros _.
           destruct n as [|n']; [|apply Hpos; lia].
           assert (Hstop : forall w1, walk_i w1 = S (walk_i w) ->
                             walkPath fuel path w1 = w1).
           { intros w1 Hw1. destruct fuel as [|fuel']; [reflexivity|].
             cbn [walkPath]. rewrite Hw1.
             rewrite (proj2 (Nat.ltb_ge (S (walk_i w))
                               (List.length path - 1))) by lia.
             now rewrite andb_false_r. }
           rewrite Hstop by reflexivity. cbn [walk_pos].
           replace (S (walk_i w)) with (List.length path - 1)%nat by lia.
           reflexivity.
        -- intros Hle _. destruct n as [|n'].
           ++ cbn [restLength] in Hle. lra.
           ++ apply Hno; [lra | lia].
    + split; [intros Hlt; lra|]. intros _ _. lia.
Qed.

Lemma nth_pred_last (l : list Vec2) (d : Vec2) :
  nth (List.length l - 1) l d = last l d.
Proof.
  induction l as [|x l IH]; [reflexivity|].
  destruct l as [|y l]; [reflexivity|].
  replace (List.length (x :: y :: l) - 1)%nat
    with (S (List.length (y :: l) - 1)) by (simpl; lia).
  exact IH.
Qed.

(** What a frame of a walk returns, in terms of the loop over the
    segments. *)
Lemma stepAnimation_walk (st : EngineState) (dt : R) :
  active (anim st) = true ->
  rotate (anim st) = None ->
  (2 <= List.length (path (anim st)))%nat ->
  let w := walkPath (List.length (path (anim st))) (path (anim st))
             (mkWalk (anim_i (anim st)) (anim_t (anim st))
                     (speed (anim st) * dt) (frogWorldPos st)) in
  let st' := stepAnimation st dt in
  active (anim st')
  = negb (List.length (path (anim st)) - 1 <=? walk_i w)%nat
  /\ (space st <> SpaceS -> frogWorldPos st' = walk_pos w)
  /\ shapes st' = shapes st
  /\ inProgress st'
     = (if addToTrace (anim st) then
          match inProgress st with
          | Some poly =>
              let appended :=
                Some (mkPolyline (pts poly ++ [walk_pos w])
                                 (color poly) (width poly)) in
              match lastOf (pts poly) with
              | None => appended
              | Some l =>
                  if 0.002 <? hypot2 (sub2 (walk_pos w) l)
                  then appended else Some poly
              end
          | None => None
          end
        else inProgress st).
Proof.
  intros Hact Hrot Hlen. cbv zeta. unfold stepAnimation.
  rewrite Hact, Hrot. cbn [negb].
  rewrite (proj2 (Nat.ltb_ge (List.length (path (anim st))) 2)) by lia.
  set (w := walkPath _ _ _).
  unfold frogWorldPos.
  destruct (space st) eqn:Hs.
  all: destruct (addToTrace (anim st));
    [destruct (inProgress st) as [poly|] eqn:Hin;
       [destruct (lastOf (pts poly)) eqn:Hlast;
          [destruct (0.002 <? _) eqn:Hfar|]|]|].
  all: destruct (_ <=? _)%nat; cbn; rewrite ?Hin, ?Hlast, ?Hfar; cbn;
    rewrite ?Hs, ?Hact, ?Hin; repeat split;
    try reflexivity; try (intros _; reflexivity); congruence.
Qed.

(** A freshly scheduled path of at least two points is walked to its
    end in one frame exactly when the budget [speed * dt] exceeds the
    length of the path; the job is then over and, in the plane models,
    the walker stands on the last point of the path. *)
Theorem stepAnimation_whole_path
    (st : EngineState) (path : list Vec2) (sp dt : R) (trace : bool) :
  (2 <= List.length path)%nat ->
  let st' := stepAnimation (animatePath st path sp trace) dt in
  (active (anim st') = false <-> pathLength path < sp * dt)
  /\ (pathLength path < sp * dt -> space st <> SpaceS ->
      frogWorldPos st' = lastPoint path).
Proof.
  intros Hlen. cbv zeta.
  destruct (stepAnimation_walk (animatePath st path sp trace) dt)
    as (Hact & Hpos & _); [reflexivity | reflexivity | exact Hlen |].
  cbn [animatePath anim set_anim SpaceEngine.path anim_i anim_t speed space]
    in Hact, Hpos.
  set (w0 := mkWalk 0 0 (sp * dt) _) in *.
  destruct (walkPath_through path (List.length path - 1) (List.length path) w0)
    as [Hyes Hno]; [reflexivity | cbn [w0 walk_i]; lia | lia |].
  cbn [w0 walk_i walk_remaining] in Hyes, Hno.
  fold (pathLength path) in Hyes, Hno.
  set (w := walkPath (List.length path) path w0) in *.
  rewrite Hact.
  destruct (Rlt_dec (pathLength path) (sp * dt)) as [Hlt|Hge].
  - destruct (Hyes Hlt) as [Hidx Hend].
    rewrite (proj2 (Nat.leb_le _ _)) by lia.
    split; [split; [intros _; exact Hlt | intros _; reflexivity]|].
    intros _ HnS. rewrite (Hpos HnS), Hend by lia.
    unfold lastPoint. apply nth_pred_last.
  - assert (Hidx : (walk_i w < List.length path - 1)%nat)
      by (apply Hno; [lra | lia]).
    rewrite (proj2 (Nat.leb_gt _ _)) by lia.
    split; [|intros Hlt; lra].
    split; [discriminate | intros Hlt; lra].
Qed.

Lemma stepAnimation_whole_path_witness :
  active (anim (stepAnimation
                  (animatePath (createInitialState SpaceE)
                     [mkVec2 0 0; mkVec2 3 4; mkVec2 3 0] 10 false) 1))
  = false
  <-> pathLength [mkVec2 0 0; mkVec2 3 4; mkVec2 3 0] < 10 * 1.
Proof.
  apply (stepAnimation_whole_path (createInitialState SpaceE)
           [mkVec2 0 0; mkVec2 3 4; mkVec2 3 0] 10 1 false).
  cbn. lia.
Defined.

End WholePath.

(** ** Line operations of the main component *)

Section LineOperations.

Lemma unit_direction (dx dy : R) :
  dx <> 0 \/ dy <> 0 ->
  let L := JsMath.orElse (JsMath.hypot dx dy) 1 in
  0 < L /\ L * L = dx * dx + dy * dy
  /\ dx / L * (dx / L) + dy / L * (dy / L) = 1.
Proof.
  intros Hd. cbv zeta. pose proof (hypot_pos dx dy Hd) as Hpos.
  rewrite orElse_pos by exact Hpos.
  pose proof (hypot_sqr dx dy) as Hsq.
  set (L := JsMath.hypot dx dy) in *.
  split; [exact Hpos|]. split; [exact Hsq|].
  replace (dx / L * (dx / L) + dy / L * (dy / L))
    with ((dx * dx + dy * dy) / (L * L)) by (field; lra).
  rewrite <- Hsq. field. lra.
Qed.

(** The Euclidean parallel and perpendicular: for a base line given by
    two distinct points, the operation returns a segment of length 10
    whose midpoint is the clicked point [w], orthogonal to the base for
    the perpendicular and parallel to it otherwise. *)
Theorem lineOpPoints_E (mode : App.LineOpMode) (base : App.LineObject)
                       (w : Vec2) :
  App.baseP base <> App.baseQ base ->
  let dx := vx (App.baseQ base) - vx (App.baseP base) in
  let dy := vy (App.baseQ base) - vy (App.baseP base) in
  exists A B,
    App.lineOpPoints SpaceE mode base w = Some [A; B]
    /\ vx A + vx B = 2 * vx w
    /\ vy A + vy B = 2 * vy w
    /\ App.euclidLen A B = 10
    /\ (if App.isPerpendicular mode
        then (vx B - vx A) * dx + (vy B - vy A) * dy = 0
        else (vx B - vx A) * dy - (vy B - vy A) * dx = 0).
Proof.
  intros Hpq. cbv zeta.
  set (dx := vx (App.baseQ base) - vx (App.baseP base)).
  set (dy := vy (App.baseQ base) - vy (App.baseP base)).
  assert (Hd : dx <> 0 \/ dy <> 0).
  { destruct (Req_dec_T dx 0) as [Hx|Hx]; [|now left].
    destruct (Req_dec_T dy 0) as [Hy|Hy]; [|now right].
    exfalso. apply Hpq. unfold dx, dy in *.
    destruct (App.baseP base) as [px py], (App.baseQ base) as [qx qy].
    cbn [vx vy] in *. apply vec2_eq; lra. }
  destruct (unit_direction dx dy Hd) as (HL & HLL & Hu).
  unfold App.lineOpPoints. cbv zeta. cbn [vx vy]. fold dx dy.
  set (L := JsMath.orElse (JsMath.hypot dx dy) 1) in *.
  assert (Hinv : L * / L = 1) by (apply Rinv_r; lra).
  destruct (App.isPerpendicular mode); eexists _, _;
    (split; [reflexivity|]); cbn [vx vy].
  - split; [ring|]. split; [ring|]. split.
    + unfold App.euclidLen. cbn [vx vy].
      replace (vx w + - (dy / L) * 5 - (vx w - - (dy / L) * 5))
        with (- (dy / L) * 10) by ring.
      replace (vy w + dx / L * 5 - (vy w - dx / L * 5))
        with (dx / L * 10) by ring.
      rewrite hypot_scaled; [apply Rabs_right; lra|].
      rewrite <- Hu. ring.
    + unfold Rdiv. set (k := / L) in *. ring.
  - split; [ring|]. split; [ring|]. split.
    + unfold App.euclidLen. cbn [vx vy].
      replace (vx w + dx / L * 5 - (vx w - dx / L * 5))
        with (dx / L * 10) by ring.
      replace (vy w + dy / L * 5 - (vy w - dy / L * 5))
        with (dy / L * 10) by ring.
      rewrite hypot_scaled; [apply Rabs_right; lra | exact Hu].
    + unfold Rdiv. set (k := / L) in *. ring.
Qed.

Lemma lineOpPoints_E_witness :
  exists A B,
    App.lineOpPoints SpaceE App.OpPerpendicular
      (App.mkLine "base" [] (mkVec2 0 0) (mkVec2 1 0) SpaceE) (mkVec2 0 1)
    = Some [A; B]
    /\ vx A + vx B = 2 * 0
    /\ vy A + vy B = 2 * 1
    /\ App.euclidLen A B = 10
    /\ (vx B - vx A) * (1 - 0) + (vy B - vy A) * (0 - 0) = 0.
Proof.
  apply (lineOpPoints_E App.OpPerpendicular
           (App.mkLine "base" [] (mkVec2 0 0) (mkVec2 1 0) SpaceE)
           (mkVec2 0 1)).
  cbn. intros [= H]. lra.
Defined.

Lemma revealAll_inactive (dts : list R) (ui : App.Ui) (ml : App.MagicLine) :
  App.magicLine ui = Some ml -> App.magic_active ml = false ->
  revealAll ui dts = ui.
Proof.
  intros Hml Hoff. induction dts as [|dt dts IH]; [reflexivity|].
  unfold revealAll in *. cbn [fold_left].
  replace (App.revealTick dt ui) with ui; [exact IH|].
  unfold App.revealTick. now rewrite Hml, Hoff.
Qed.

Lemma reveal_frames :
  forall (dts : list R) (ui : App.Ui) (ml : App.MagicLine)
         (line : App.LineObject),
    App.magicLine ui = Some ml ->
    App.magic_active ml = true ->
    App.finalLine ml = Some line ->
    0 <= App.magic_t ml < 1 ->
    Forall (Rle 0) dts ->
    let ui' := revealAll ui dts in
    (App.lines ui' = App.lines ui
     \/ App.lines ui' = App.lines ui ++ [line])
    /\ (0.45 * (1 - App.magic_t ml) <= sumR dts ->
        App.lines ui' = App.lines ui ++ [line]
        /\ exists ml', App.magicLine ui' = Some ml'
                       /\ App.magic_active ml' = false).
Proof.
  induction dts as [|dt dts IH]; intros ui ml line Hml Hon Hfin Ht Hdts.
  - cbn. split; [now left | intros Hsum; lra].
  - cbv zeta. unfold revealAll. cbn [fold_left].
    fold (revealAll (App.revealTick dt ui) dts).
    inversion Hdts as [|? ? Hdt Hrest]; subst.
    set (x := App.magic_t ml + dt / 0.45).
    assert (Hstep : App.revealTick dt ui
      = if 1 <=? App.clamp x 0 1
        then App.mkUi (App.measurePanelText ui) (App.lineOpMode ui)
               (Some (App.mkMagic false (App.magic_pts ml) (App.clamp x 0 1)
                                  (App.finalLine ml)))
               (App.lines ui ++ [line])
               (App.timerRunning ui) (App.engine ui)
        else App.mkUi (App.measurePanelText ui) (App.lineOpMode ui)
               (Some (App.mkMagic true (App.magic_pts ml) (App.clamp x 0 1)
                                  (App.finalLine ml)))
               (App.lines ui) (App.timerRunning ui) (App.engine ui)).
    { unfold App.revealTick. rewrite Hml, Hon. cbv zeta. fold x.
      now rewrite Hfin. }
    rewrite Hstep. clear Hstep.
    assert (Hx : 0 <= x).
    { unfold x. assert (0 <= dt / 0.45) by (apply Rmult_le_pos; lra). lra. }
    destruct (leb_spec 1 (App.clamp x 0 1)) as [Hdone|Hgo].
    + erewrite revealAll_inactive; [|reflexivity|reflexivity].
      cbn [App.lines App.magicLine].
      split; [now right|]. intros _. split; [reflexivity|].
      eexists. split; reflexivity.
    + assert (Hx1 : x < 1).
      { destruct (Rlt_dec x 1) as [Hlt|Hge]; [exact Hlt|].
        exfalso. apply Hgo. change (App.clamp x 0 1) with (clamp x 0 1).
        rewrite clamp_unit_top; lra. }
      assert (Hcl : App.clamp x 0 1 = x).
      { change (App.clamp x 0 1) with (clamp x 0 1).
        apply clamp_id. lra. }
      rewrite Hcl.
      destruct (IH (App.mkUi (App.measurePanelText ui) (App.lineOpMode ui)
                      (Some (App.mkMagic true (App.magic_pts ml) x
                                         (App.finalLine ml)))
                      (App.lines ui) (App.timerRunning ui) (App.engine ui))
                   (App.mkMagic true (App.magic_pts ml) x (App.finalLine ml))
                   line)
        as [Hlines Hend];
        [reflexivity | reflexivity | exact Hfin | cbn; lra | exact Hrest |].
      cbn [App.lines App.magic_t] in Hlines, Hend.
      split; [exact Hlines|]. intros Hsum. apply Hend.
      change (sumR (dt :: dts)) with (dt + sumR dts) in Hsum.
      unfold x. lra.
Qed.

(** The line built by a line operation is stored exactly once: while it
    is revealed the list of lines does not change, and as soon as the
    frame times add up to what is left of the 0.45 s of the reveal the
    line has been appended and the reveal is switched off, so that
    later frames change nothing. *)
Theorem reveal_stores_once
    (ui : App.Ui) (ml : App.MagicLine) (line : App.LineObject)
    (dts more : list R) :
  App.magicLine ui = Some ml ->
  App.magic_active ml = true ->
  App.finalLine ml = Some line ->
  0 <= App.magic_t ml < 1 ->
  Forall (Rle 0) dts ->
  let ui' := revealAll ui dts in
  (App.lines ui' = App.lines ui \/ App.lines ui' = App.lines ui ++ [line])
  /\ (0.45 * (1 - App.magic_t ml) <= sumR dts ->
      App.lines ui' = App.lines ui ++ [line]
      /\ revealAll ui' more = ui').
Proof.
  intros Hml Hon Hfin Ht Hdts. cbv zeta.
  destruct (reveal_frames dts ui ml line Hml Hon Hfin Ht Hdts)
    as [Hlines Hend].
  split; [exact Hlines|]. intros Hsum.
  destruct (Hend Hsum) as (Hstored & ml' & Hml' & Hoff).
  split; [exact Hstored|]. now apply revealAll_inactive with ml'.
Qed.

Lemma reveal_stores_once_witness :
  let line := App.mkLine "Op_1" [] (mkVec2 0 0) (mkVec2 1 0) SpaceE in
  let ui := App.mkUi "" App.OpNone
              (Some (App.mkMagic true [] 0 (Some line))) [] false
              (createInitialState SpaceE) in
  App.lines (revealAll ui [0.3; 0.3]) = [line]
  /\ revealAll (revealAll ui [0.3; 0.3]) [0.033] = revealAll ui [0.3; 0.3].
Proof.
  cbv zeta.
  apply (reveal_stores_once
           (App.mkUi "" App.OpNone
              (Some (App.mkMagic true [] 0
                 (Some (App.mkLine "Op_1" [] (mkVec2 0 0) (mkVec2 1 0)
                                   SpaceE))))
              [] false (createInitialState SpaceE))
           (App.mkMagic true [] 0
              (Some (App.mkLine "Op_1" [] (mkVec2 0 0) (mkVec2 1 0) SpaceE)))
           (App.mkLine "Op_1" [] (mkVec2 0 0) (mkVec2 1 0) SpaceE)
           [0.3; 0.3] [0.033]).
  - reflexivity.
  - reflexivity.
  - reflexivity.
  - cbn. lra.
  - repeat constructor; lra.
  - cbn. lra.
Defined.

End LineOperations.

(** ** Circles traced on the sphere *)

Section SphereCircles.

Lemma dot3_comb_r (x a b : Vec3) (k l : R) :
  dot3 x (add3 (mul3 a k) (mul3 b l)) = k * dot3 x a + l * dot3 x b.
Proof.
  destruct x, a, b. unfold dot3, add3, mul3. cbn [wx wy wz]. ring.
Qed.

Lemma dot3_comb_sqr (a b : Vec3) (k l : R) :
  dot3 (add3 (mul3 a k) (mul3 b l)) (add3 (mul3 a k) (mul3 b l))
  = k * k * dot3 a a + 2 * (k * l) * dot3 a b + l * l * dot3 b b.
Proof.
  destruct a, b. unfold dot3, add3, mul3. cbn [wx wy wz]. ring.
Qed.

Lemma cross3_orth (a b : Vec3) :
  dot3 a (cross3 a b) = 0 /\ dot3 b (cross3 a b) = 0
  /\ dot3 (cross3 a b) (cross3 a b)
     = dot3 a a * dot3 b b - dot3 a b * dot3 a b.
Proof.
  destruct a, b. unfold dot3, cross3. cbn [wx wy wz].
  repeat split; ring.
Qed.

Lemma hypot3_dot3 (w : Vec3) : hypot3 w * hypot3 w = dot3 w w.
Proof. unfold hypot3, dot3. apply hypot3_sqr. Qed.

Lemma norm3_orth (c w : Vec3) :
  dot3 c w = 0 -> dot3 c (norm3 w) = 0 \/ hypot3 w <= 0.
Proof.
  intros Hcw. unfold norm3. cbv zeta.
  destruct (ltb_spec 0 (hypot3 w)) as [Hpos|Hzero]; [left | right; lra].
  destruct c, w. unfold dot3, mul3 in *. cbn [wx wy wz] in *.
  match goal with
  | |- ?a * (?x * ?k) + ?b * (?y * ?k) + ?c * (?z * ?k) = 0 =>
      replace (a * (x * k) + b * (y * k) + c * (z * k))
        with ((a * x + b * y + c * z) * k) by ring
  end.
  rewrite Hcw. ring.
Qed.

(** The first axis chosen by [sphereCirclePoints] is never the null
    vector when the centre is a unit vector. *)
Lemma circle_axis_nonzero (c : Vec3) :
  dot3 c c = 1 ->
  let u := cross3 c (mkVec3 0 0 1) in
  let u := if hypot3 u <? 1e-6 then cross3 c (mkVec3 0 1 0) else u in
  0 < hypot3 u /\ dot3 c u = 0.
Proof.
  intros Hc. cbv zeta.
  destruct (ltb_spec (hypot3 (cross3 c (mkVec3 0 0 1))) 1e-6) as [Hsmall|Hbig].
  - split; [|apply cross3_orth].
    pose proof (hypot3_dot3 (cross3 c (mkVec3 0 0 1))) as H0.
    assert (Hn0 : 0 <= hypot3 (cross3 c (mkVec3 0 0 1)))
      by (unfold hypot3, JsMath.hypot3; apply sqrt_pos).
    unfold hypot3, JsMath.hypot3. apply sqrt_lt_R0.
    destruct c as [x y z]. unfold dot3, cross3 in *. cbn [wx wy wz] in *.
    assert (x * x + y * y < 1e-12) by nra.
    nra.
  - split; [lra | apply cross3_orth].
Qed.

(** A circle traced on the sphere is a true spherical circle: for a unit
    centre there are [n + 1] samples, and each of them is the
    projection of a point of the unit sphere at the angular distance
    [radiusArc] from the centre. *)
Theorem sphereCirclePoints_spec
    (c : Vec3) (radiusArc : R) (n : nat) (pt : Vec2) :
  dot3 c c = 1 ->
  List.length (sphereCirclePoints c radiusArc n) = S n
  /\ (In pt (sphereCirclePoints c radiusArc n) ->
      exists P, pt = sphereToWorld2 P
                /\ dot3 P P = 1
                /\ dot3 c P = cos radiusArc).
Proof.
  intros Hc. unfold sphereCirclePoints. cbv zeta.
  split; [apply for_upto_length|].
  destruct (circle_axis_nonzero c Hc) as [Hu1 Hcu1].
  set (u1 := if _ <? 1e-6 then _ else _) in *.
  set (u := norm3 u1).
  assert (Huu : dot3 u u = 1) by apply norm3_dot3.
  assert (Hcu : dot3 c u = 0).
  { destruct (norm3_orth c u1 Hcu1) as [H|H]; [exact H | lra]. }
  destruct (cross3_orth c u) as (Hcv & Huv & Hvv).
  rewrite Hc, Huu, Hcu in Hvv.
  assert (Hv1 : dot3 (cross3 c u) (cross3 c u) = 1) by lra.
  rewrite (norm3_of_unit _ Hv1).
  set (v := cross3 c u) in *.
  intros Hin. apply for_upto_In in Hin. destruct Hin as (i & _ & ->).
  set (a := 2 * PI * INR i / INR n).
  set (dir := add3 (mul3 u (cos a)) (mul3 v (sin a))).
  assert (Hdd : dot3 dir dir = 1).
  { unfold dir. rewrite dot3_comb_sqr, Huu, Huv, Hv1.
    pose proof (cos2_sin2 a). lra. }
  assert (Hcd : dot3 c dir = 0).
  { unfold dir. rewrite dot3_comb_r, Hcu, Hcv. ring. }
  set (P := add3 (mul3 c (cos radiusArc)) (mul3 dir (sin radiusArc))).
  assert (HPP : dot3 P P = 1).
  { unfold P. rewrite dot3_comb_sqr, Hc, Hcd, Hdd.
    pose proof (cos2_sin2 radiusArc). lra. }
  exists P. rewrite (norm3_of_unit _ HPP).
  split; [reflexivity|]. split; [exact HPP|].
  unfold P. rewrite dot3_comb_r, Hc, Hcd. ring.
Qed.

Lemma sphereCirclePoints_spec_witness :
  List.length (sphereCirclePoints (mkVec3 0 0 1) 1 320) = 321%nat.
Proof.
  apply (sphereCirclePoints_spec (mkVec3 0 0 1) 1 320 (mkVec2 0 0)).
  unfold dot3. cbn [wx wy wz]. ring.
Defined.

End SphereCircles.

(** ** View mapping and picking *)

Section Picking.

(** The viewport built for a canvas of positive size maps the world to
    the screen and back without loss, and the square [-R, R] x [-R, R]
    of the world lands inside the canvas. *)
Theorem makeViewport_spec (w h Rv : R) (p q : Vec2) :
  0 < w -> 0 < h -> 0 < Rv ->
  let vp := App.makeViewport w h Rv in
  App.screenToWorld vp (App.worldToScreen vp p) = p
  /\ App.worldToScreen vp (App.screenToWorld vp q) = q
  /\ (- Rv <= vx p <= Rv -> - Rv <= vy p <= Rv ->
      0 <= vx (App.worldToScreen vp p) <= w
      /\ 0 <= vy (App.worldToScreen vp p) <= h).
Proof.
  intros Hw Hh HR. cbv zeta.
  unfold App.makeViewport, App.screenToWorld, App.worldToScreen. cbv zeta.
  cbn [App.vp_cx App.vp_cy App.vp_scale vx vy].
  set (m := JsMath.min w h).
  assert (Hm : 0 < m /\ m <= w /\ m <= h).
  { unfold m, JsMath.min, Rmin. destruct (Rle_dec w h); lra. }
  set (s := m / (2 * Rv)).
  assert (Hs : 0 < s).
  { unfold s. apply Rdiv_lt_0_compat; lra. }
  assert (HsR : s * Rv = m / 2) by (unfold s; field; lra).
  split; [|split].
  - destruct p as [x y]. cbn [vx vy]. apply vec2_eq; field; lra.
  - destruct q as [x y]. cbn [vx vy]. apply vec2_eq; field; lra.
  - intros Hx Hy.
    assert (Hxs : - (m / 2) <= vx p * s <= m / 2).
    { rewrite <- HsR. split; nra. }
    assert (Hys : - (m / 2) <= vy p * s <= m / 2).
    { rewrite <- HsR. split; nra. }
    lra.
Qed.

Lemma makeViewport_spec_witness :
  App.screenToWorld (App.makeViewport 800 600 1.25)
    (App.worldToScreen (App.makeViewport 800 600 1.25) (mkVec2 0.5 0.25))
  = mkVec2 0.5 0.25.
Proof.
  apply (makeViewport_spec 800 600 1.25 (mkVec2 0.5 0.25) (mkVec2 0 0)); lra.
Defined.

Lemma hypot_le (a b c d : R) :
  a * a + b * b <= c * c + d * d -> JsMath.hypot a b <= JsMath.hypot c d.
Proof. intros Hle. unfold JsMath.hypot. now apply sqrt_le_1_alt. Qed.

(** [distPointToSegment] is the distance from [p] to the nearest point
    of the segment: it is the distance to the point of parameter [t]
    for some [t] in [0, 1], and no point of the segment is nearer. *)
Theorem distPointToSegment_min (p a b : Vec2) (s : R) :
  0 <= s <= 1 ->
  let at_ := fun k => mkVec2 (vx a + k * (vx b - vx a))
                             (vy a + k * (vy b - vy a)) in
  App.distPointToSegment p a b <= App.euclidLen (at_ s) p
  /\ exists t, 0 <= t <= 1
               /\ App.distPointToSegment p a b = App.euclidLen (at_ t) p.
Proof.
  intros Hs. cbv zeta. unfold App.distPointToSegment, App.euclidLen.
  cbv zeta. cbn [vx vy].
  set (abx := vx b - vx a). set (aby := vy b - vy a).
  set (apx := vx p - vx a). set (apy := vy p - vy a).
  set (ab2 := abx * abx + aby * aby).
  unfold JsMath.eqb. destruct (Req_dec_T ab2 0) as [Hz|Hnz].
  - assert (Hx : abx = 0) by (unfold ab2 in Hz; nra).
    assert (Hy : aby = 0) by (unfold ab2 in Hz; nra).
    rewrite Hx, Hy. split.
    + apply hypot_le. apply Req_le. unfold apx, apy. ring.
    + exists 0. split; [lra|]. unfold JsMath.hypot, apx, apy. f_equal. ring.
  - assert (Hpos : 0 < ab2) by (unfold ab2 in *; nra).
    set (t0 := (apx * abx + apy * aby) / ab2).
    assert (Ht0 : t0 * ab2 = apx * abx + apy * aby)
      by (unfold t0; field; lra).
    pose proof (clamp_unit_range t0) as Hrange.
    change (App.clamp t0 0 1) with (clamp t0 0 1).
    set (t := clamp t0 0 1) in *.
    assert (Hcases : t = t0 \/ (t = 0 /\ t0 <= 0) \/ (t = 1 /\ 1 <= t0)).
    { unfold t, clamp, JsMath.max, JsMath.min, Rmax, Rmin.
      destruct (Rle_dec 1 t0); destruct (Rle_dec 0 _); lra. }
    split.
    + apply hypot_le.
      assert (Hdiff :
        (vx p - (vx a + s * abx)) * (vx p - (vx a + s * abx))
        + (vy p - (vy a + s * aby)) * (vy p - (vy a + s * aby))
        - ((vx p - (vx a + t * abx)) * (vx p - (vx a + t * abx))
           + (vy p - (vy a + t * aby)) * (vy p - (vy a + t * aby)))
        = ab2 * ((s - t) * (s + t - 2 * t0))).
      { replace (ab2 * ((s - t) * (s + t - 2 * t0)))
          with (ab2 * ((s - t) * (s + t)) - 2 * (s - t) * (t0 * ab2)) by ring.
        rewrite Ht0. unfold ab2, apx, apy. ring. }
      assert (Hsign : 0 <= (s - t) * (s + t - 2 * t0)).
      { destruct Hcases as [Heq | [[Heq Hlow] | [Heq Hhigh]]].
        - rewrite <- Heq. replace (s + t - 2 * t) with (s - t) by ring.
          apply Rle_0_sqr.
        - rewrite Heq. nra.
        - rewrite Heq. nra. }
      assert (0 <= ab2 * ((s - t) * (s + t - 2 * t0)))
        by (apply Rmult_le_pos; lra).
      lra.
    + exists t. split; [exact Hrange | reflexivity].
Qed.

Lemma distPointToSegment_min_witness :
  App.distPointToSegment (mkVec2 0 1) (mkVec2 (-1) 0) (mkVec2 1 0)
  <= App.euclidLen
       (mkVec2 (-1 + 1 * (1 - -1)) (0 + 1 * (0 - 0))) (mkVec2 0 1).
Proof.
  apply (distPointToSegment_min (mkVec2 0 1) (mkVec2 (-1) 0) (mkVec2 1 0) 1).
  lra.
Defined.

End Picking.

(** ** Hyperbolic perpendiculars *)

Section Perpendiculars.

Lemma nth_0_hd {A : Type} (l : list A) (d : A) : nth 0 l d = hd d l.
Proof. now destruct l. Qed.

Lemma polarPoint_of (pt c : Vec2) (r : R) :
  0 < r -> App.dist2 pt c = r * r ->
  polarPoint c r (JsMath.atan2 (vy pt - vy c) (vx pt - vx c)) = pt.
Proof.
  intros Hr Hd. symmetry. apply polar_around_any; [lra | exact Hd].
Qed.

Lemma geodesicPoincareFullLine_two_points (p q : Vec2) (n : nat) :
  (2 <= List.length (geodesicPoincareFullLine p q (S n)))%nat.
Proof.
  unfold geodesicPoincareFullLine. cbv zeta.
  destruct (_ <? 1e-7); [cbn; lia|].
  destruct (poincareCircleThroughPQ p q) as [circ|]; [|cbn; lia].
  destruct (_ <? 2)%nat; [cbn; lia|].
  match goal with
  | |- context [(2 <=? List.length ?l)%nat] =>
      destruct (Nat.leb_spec 2 (List.length l)) as [Hin|Hout]
  end.
  - exact Hin.
  - rewrite sampleArcThroughAngles_length_S. lia.
Qed.

Lemma arcThroughBoundary_on_circle
    (c : Vec2) (r : R) (P : Vec2) (steps : nat) (pt : Vec2) :
  In pt (arcThroughBoundary c r P steps) -> App.dist2 pt c = r * r.
Proof.
  unfold arcThroughBoundary. cbv zeta.
  destruct (_ <? 2)%nat; [intros []|].
  apply sampleArcThroughAngles_on_circle.
Qed.

(** The arc cut by the unit circle on a proper circle orthogonal to it:
    it runs from one ideal point to the other. *)
Lemma arcThroughBoundary_ideal (c : Vec2) (r : R) (P : Vec2) (n : nat) :
  0 < r -> 1e-10 < r * r -> sqnorm c = 1 + r * r ->
  let arc := arcThroughBoundary c r P (S n) in
  List.length arc = S (S n)
  /\ sqnorm (hd origin2 arc) = 1
  /\ sqnorm (last arc origin2) = 1.
Proof.
  intros Hr Hrr Horth. cbv zeta. unfold arcThroughBoundary. cbv zeta.
  destruct (orthogonal_circle_ideal_points c r Hr Hrr Horth)
    as (i0 & i1 & -> & Hu0 & Hu1 & Hc0 & Hc1).
  change (List.length [i0; i1] <? 2)%nat with false. cbn [nth].
  set (a1 := JsMath.atan2 (vy i0 - vy c) (vx i0 - vx c)).
  set (a2 := JsMath.atan2 (vy i1 - vy c) (vx i1 - vx c)).
  set (aP := JsMath.atan2 (vy P - vy c) (vx P - vx c)).
  destruct (sampleArcThroughAngles_ends c r a1 a2 aP n) as [H0 Hn].
  split; [apply sampleArcThroughAngles_length_S|]. split.
  - rewrite <- nth_0_hd, H0. unfold a1.
    now rewrite (polarPoint_of i0 c r Hr Hc0).
  - rewrite <- nth_pred_last, sampleArcThroughAngles_length_S.
    replace (S (S n) - 1)%nat with (S n) by lia.
    rewrite Hn. unfold a2. now rewrite (polarPoint_of i1 c r Hr Hc1).
Qed.

(** The perpendicular to a base line that is not a diameter is either
    empty or a full hyperbolic line through the clicked point: an arc
    of a circle orthogonal to the unit circle that passes through the
    clicked point, sampled from one ideal point to the other. *)
Theorem hyperbolicPerpendicular_geodesic
    (baseP baseQ P : Vec2) (circ : Circle) (n : nat) :
  poincareCircleThroughPQ baseP baseQ = Some circ ->
  let perp := hyperbolicPerpendicularThroughPoint baseP baseQ P (S n) in
  perp = []
  \/ exists c r,
       0 < r /\ sqnorm c = 1 + r * r
       /\ App.dist2 P c = r * r
       /\ List.length perp = S (S n)
       /\ sqnorm (hd origin2 perp) = 1
       /\ sqnorm (last perp origin2) = 1
       /\ forall pt, In pt perp -> App.dist2 pt c = r * r.
Proof.
  intros Hsome. cbv zeta. unfold hyperbolicPerpendicularThroughPoint.
  rewrite Hsome. unfold hyperbolicPerpUsingOrthogonality. cbv zeta.
  set (bestTheta := fst (fold_left _ (seq 0 6) _)).
  destruct (poincareCircleFromPointDir P
              (mkVec2 (cos bestTheta) (sin bestTheta)))
    as [[c r]|] eqn:Hcirc; [|now left].
  right. exists c, r.
  destruct (poincareCircleFromPointDir_inv _ _ _ _ Hcirc)
    as (Hr0 & Hd & _ & Hc & Hout).
  assert (Hu : sqnorm (mkVec2 (cos bestTheta) (sin bestTheta)) = 1)
    by (unfold sqnorm; cbn [vx vy]; apply cos2_sin2).
  rewrite Hu, Rmult_1_r in Hd, Hc.
  assert (Hrr : 1e-10 < r * r) by lra.
  assert (Hr : 0 < r) by nra.
  destruct (arcThroughBoundary_ideal c r P n Hr Hrr Hc)
    as (Hlen & Hhd & Hlast).
  repeat split; try assumption.
  intros pt. apply arcThroughBoundary_on_circle.
Qed.

Lemma hyperbolicPerpendicular_geodesic_witness :
  let perp := hyperbolicPerpendicularThroughPoint
                (mkVec2 0.5 0) (mkVec2 0 0.5) (mkVec2 0.3 0.4) 560 in
  perp = []
  \/ exists c r,
       0 < r /\ sqnorm c = 1 + r * r
       /\ App.dist2 (mkVec2 0.3 0.4) c = r * r
       /\ List.length perp = 561%nat
       /\ sqnorm (hd origin2 perp) = 1
       /\ sqnorm (last perp origin2) = 1
       /\ forall pt, In pt perp -> App.dist2 pt c = r * r.
Proof.
  apply (hyperbolicPerpendicular_geodesic (mkVec2 0.5 0) (mkVec2 0 0.5)
           (mkVec2 0.3 0.4) _ 559 half_half_circle).
Defined.

(** When the base line is a diameter (no orthogonal circle goes through
    its two points), the perpendicular that is built only depends on the
    clicked point [P]: two different diameters give the same polyline,
    and nothing is built through the origin.  The direction handed to
    [poincareCircleFromPointDir] is not a unit vector, so for [P]
    inside the disk the polyline, when it is not empty, lies on a
    circle that has [P] strictly inside it. *)
Theorem hyperbolicPerpendicular_diameter
    (p q p' q' P : Vec2) (steps : nat) :
  poincareCircleThroughPQ p q = None ->
  poincareCircleThroughPQ p' q' = None ->
  sqnorm P < 1 ->
  let perp := hyperbolicPerpendicularThroughPoint p q P steps in
  perp = hyperbolicPerpendicularThroughPoint p' q' P steps
  /\ hyperbolicPerpendicularThroughPoint p q origin2 steps = []
  /\ (perp = []
      \/ exists c r,
           0 < r
           /\ (forall pt, In pt perp -> App.dist2 pt c = r * r)
           /\ App.dist2 P c = r * r * sqnorm P
           /\ App.dist2 P c < r * r).
Proof.
  intros Hpq Hpq' HP. cbv zeta.
  assert (Hnum : forall a b X,
    hyperbolicPerpNumeric a b X steps
    = match poincareCircleFromPointDir X (mkVec2 (- vy X) (vx X)) with
      | None => []
      | Some (c, r) => arcThroughBoundary c r X steps
      end).
  { intros a b X. unfold hyperbolicPerpNumeric. cbv zeta.
    pose proof (geodesicPoincareFullLine_two_points a b 519) as Hlen.
    now rewrite (proj2 (Nat.ltb_ge _ 2) Hlen). }
  unfold hyperbolicPerpendicularThroughPoint. rewrite Hpq, Hpq'.
  rewrite !Hnum. split; [reflexivity|]. split.
  - unfold poincareCircleFromPointDir, origin2. cbv zeta. cbn [vx vy].
    rewrite ltb_true; [reflexivity|].
    unfold JsMath.abs.
    replace (0 * - 0 + 0 * - 0) with 0 by ring. rewrite Rabs_R0. lra.
  - destruct (poincareCircleFromPointDir P (mkVec2 (- vy P) (vx P)))
      as [[c r]|] eqn:Hcirc; [|now left].
    right. exists c, r.
    destruct (poincareCircleFromPointDir_inv _ _ _ _ Hcirc)
      as (Hr0 & Hd & _ & Hc & Hout).
    assert (Hu : sqnorm (mkVec2 (- vy P) (vx P)) = sqnorm P)
      by (unfold sqnorm; cbn [vx vy]; ring).
    rewrite Hu in Hd, Hc.
    assert (HP0 : 0 <= sqnorm P) by (unfold sqnorm; nra).
    assert (Hrr : 0 < r * r) by nra.
    assert (Hr : 0 < r) by nra.
    split; [exact Hr|]. split; [|split; [exact Hd | nra]].
    intros pt. apply arcThroughBoundary_on_circle.
Qed.

Lemma diameter_has_no_circle (a b : R) :
  poincareCircleThroughPQ (mkVec2 a 0) (mkVec2 b 0) = None
  /\ poincareCircleThroughPQ (mkVec2 0 a) (mkVec2 0 b) = None.
Proof.
  unfold poincareCircleThroughPQ, JsMath.abs. cbv zeta. cbn [vx vy].
  replace (a * 0 - 0 * b) with 0 by ring.
  replace (0 * b - a * 0) with 0 by ring.
  rewrite Rabs_R0, ltb_true by lra. split; reflexivity.
Qed.

Lemma hyperbolicPerpendicular_diameter_witness :
  hyperbolicPerpendicularThroughPoint (mkVec2 (-0.5) 0) (mkVec2 0.5 0)
                                      (mkVec2 0.3 0.4) 560
  = hyperbolicPerpendicularThroughPoint (mkVec2 0 (-0.5)) (mkVec2 0 0.5)
                                        (mkVec2 0.3 0.4) 560.
Proof.
  apply (hyperbolicPerpendicular_diameter
           (mkVec2 (-0.5) 0) (mkVec2 0.5 0) (mkVec2 0 (-0.5)) (mkVec2 0 0.5)
           (mkVec2 0.3 0.4) 560).
  - apply (diameter_has_no_circle (-0.5) 0.5).
  - apply (diameter_has_no_circle (-0.5) 0.5).
  - unfold sqnorm. cbn [vx vy]. lra.
Defined.

End Perpendiculars.

(** ** Hyperbolic parallels *)

Section LimitingParallels.

(** The parallel to a base line that is not a diameter, through a
    clicked point, towards one end of the base: the chosen end [E] of
    the base is an ideal point, and the polyline is one of three
    things.  It may be empty.  When the clicked point is aligned with
    [E] and the origin (determinant below [1e-10]) it is the pair
    [-u, u] with [u] the clicked point divided by its norm: the two ends
    of the diameter through the clicked point, or the origin twice when
    the clicked point is the origin.  Otherwise it is an arc that starts
    at [E], ends on the unit circle and lies on a circle orthogonal to
    the unit circle that passes through the clicked point. *)
Theorem hyperbolicParallel_spec
    (baseP baseQ through : Vec2) (whichEnd0 : bool) (circ : Circle)
    (n : nat) :
  poincareCircleThroughPQ baseP baseQ = Some circ ->
  let base := geodesicLineThrough SpaceH baseP baseQ 520 in
  let E := if whichEnd0 then hd origin2 base else last base origin2 in
  let par := hyperbolicParallelThroughPoint baseP baseQ through whichEnd0
               (S n) in
  sqnorm E = 1
  /\ (par = []
      \/ (Rabs (vx E * vy through - vy E * vx through) < 1e-10
          /\ exists u,
               par = [mkVec2 (- vx u) (- vy u); u]
               /\ (through = origin2 -> u = origin2)
               /\ (through <> origin2 ->
                     sqnorm u = 1 /\ through = mul2 u (hypot2 through)))
      \/ exists c r,
           0 < r /\ sqnorm c = 1 + r * r
           /\ App.dist2 through c = r * r
           /\ hd origin2 par = E
           /\ sqnorm (last par origin2) = 1
           /\ forall pt, In pt par -> App.dist2 pt c = r * r).
Proof.
  intros Hsome. cbv zeta. unfold geodesicLineThrough.
  destruct (geodesicPoincareFullLine_ideal baseP baseQ circ 519 Hsome)
    as (Hlen & Hhd & Hlast & _).
  set (base := geodesicPoincareFullLine baseP baseQ 520) in *.
  set (E := if whichEnd0 then hd origin2 base else last base origin2).
  assert (HE : sqnorm E = 1) by (unfold E; destruct whichEnd0; assumption).
  split; [exact HE|].
  unfold hyperbolicParallelThroughPoint. cbv zeta. fold base.
  rewrite (proj2 (Nat.ltb_ge _ 2) Hlen).
  rewrite nth_0_hd, nth_pred_last. fold E.
  set (px := vx through). set (py := vy through).
  set (det := vx E * py - vy E * px).
  unfold JsMath.abs.
  destruct (ltb_spec (Rabs det) 1e-10) as [Hflat|Hbig].
  { right; left. split; [exact Hflat|].
    exists (mkVec2 (px / JsMath.orElse (JsMath.hypot px py) 1)
                   (py / JsMath.orElse (JsMath.hypot px py) 1)).
    split; [cbn [vx vy]; f_equal; apply vec2_eq; unfold Rdiv; ring|].
    split.
    - intros Hzero. unfold px, py. rewrite Hzero. unfold origin2.
      cbn [vx vy]. apply vec2_eq; unfold Rdiv; ring.
    - intros Hne.
      assert (Hd : px <> 0 \/ py <> 0).
      { destruct (Req_dec_T px 0) as [Hx|Hx]; [|now left].
        destruct (Req_dec_T py 0) as [Hy|Hy]; [|now right].
        exfalso. apply Hne. unfold px, py, origin2 in *.
        destruct through as [x y]. cbn [vx vy] in *. now subst. }
      destruct (unit_direction px py Hd) as (HL & _ & Hu).
      pose proof (hypot_pos px py Hd) as Hpos.
      rewrite orElse_pos by exact Hpos.
      rewrite orElse_pos in Hu by exact Hpos.
      split; [unfold sqnorm; cbn [vx vy]; exact Hu|].
      unfold mul2, hypot2. cbn [vx vy]. fold px py.
      unfold px, py in *. destruct through as [x y]. cbn [vx vy] in *.
      apply vec2_eq; field; lra. }
  assert (Hdet : det <> 0).
  { intros Hz. rewrite Hz, Rabs_R0 in Hbig. lra. }
  set (cx := (1 * py - vy E * ((px * px + py * py + 1) / 2)) / det).
  set (cy := (vx E * ((px * px + py * py + 1) / 2) - 1 * px) / det).
  destruct (leb_spec (cx * cx + cy * cy - 1) 1e-10) as [Hsmall|Hr2];
    [now left|].
  right; right.
  set (r := sqrt (cx * cx + cy * cy - 1)).
  set (c := mkVec2 cx cy).
  assert (Hr : 0 < r) by (apply sqrt_lt_R0; lra).
  assert (Hrr : r * r = cx * cx + cy * cy - 1)
    by (unfold r; apply sqrt_sqrt; lra).
  assert (Horth : sqnorm c = 1 + r * r)
    by (unfold sqnorm, c; cbn [vx vy]; lra).
  assert (HEc : vx E * cx + vy E * cy = 1)
    by (unfold cx, cy, det in *; field; exact Hdet).
  assert (HPc : px * cx + py * cy = (px * px + py * py + 1) / 2)
    by (unfold cx, cy, det in *; field; exact Hdet).
  assert (HdE : App.dist2 E c = r * r).
  { unfold App.dist2, c, sqnorm in *. cbn [vx vy]. nra. }
  assert (HdP : App.dist2 through c = r * r).
  { unfold App.dist2, c. cbn [vx vy]. fold px py. nra. }
  destruct (orthogonal_circle_ideal_points c r Hr ltac:(lra) Horth)
    as (i0 & i1 & -> & Hu0 & Hu1 & Hc0 & Hc1).
  change (List.length [i0; i1] <? 2)%nat with false. cbn [nth].
  set (other := if _ <? _ then i0 else i1).
  assert (Hother : sqnorm other = 1 /\ App.dist2 other c = r * r).
  { unfold other. destruct (_ <? _); split; assumption. }
  destruct Hother as [Huo Hco].
  set (aE := JsMath.atan2 (vy E - cy) (vx E - cx)).
  set (aO := JsMath.atan2 (vy other - cy) (vx other - cx)).
  set (aP := JsMath.atan2 (py - cy) (px - cx)).
  exists c, r.
  split; [exact Hr|]. split; [exact Horth|]. split; [exact HdP|].
  destruct (sampleArcThroughAngles_ends c r aE aO aP n) as [H0 Hn].
  split; [|split].
  - rewrite <- nth_0_hd, H0. apply (polarPoint_of E c r Hr HdE).
  - rewrite <- nth_pred_last, sampleArcThroughAngles_length_S.
    replace (S (S n) - 1)%nat with (S n) by lia.
    rewrite Hn.
    change aO with (JsMath.atan2 (vy other - vy c) (vx other - vx c)).
    rewrite (polarPoint_of other c r Hr Hco). exact Huo.
  - intros pt. apply sampleArcThroughAngles_on_circle.
Qed.

Lemma hyperbolicParallel_spec_witness :
  sqnorm (hd origin2
            (geodesicLineThrough SpaceH (mkVec2 0.5 0) (mkVec2 0 0.5) 520))
  = 1.
Proof.
  apply (hyperbolicParallel_spec (mkVec2 0.5 0) (mkVec2 0 0.5)
           (mkVec2 0.3 0.4) true _ 559 half_half_circle).
Defined.

End LimitingParallels.

(** ** Tracing sessions *)

Section TracingSessions.

(** The frame that follows the scheduling of a path. *)
Lemma fresh_walk_frame
    (st : EngineState) (path : list Vec2) (sp dt : R) (trace : bool) :
  (2 <= List.length path)%nat ->
  let w := walkPath (List.length path) path
             (mkWalk 0 0 (sp * dt) (frogWorldPos st)) in
  let st' := stepAnimation (animatePath st path sp trace) dt in
  active (anim st') = negb (List.length path - 1 <=? walk_i w)%nat
  /\ shapes st' = shapes st
  /\ inProgress st'
     = (if trace then
          match inProgress st with
          | Some poly =>
              let appended :=
                Some (mkPolyline (pts poly ++ [walk_pos w])
                                 (color poly) (width poly)) in
              match lastOf (pts poly) with
              | None => appended
              | Some l =>
                  if 0.002 <? hypot2 (sub2 (walk_pos w) l)
                  then appended else Some poly
              end
          | None => None
          end
        else inProgress st).
Proof.
  intros Hlen.
  destruct (stepAnimation_walk (animatePath st path sp trace) dt)
    as (Hact & _ & Hshapes & Hin); [reflexivity | reflexivity | exact Hlen |].
  cbv zeta. split; [exact Hact|]. split; [exact Hshapes | exact Hin].
Qed.

(** A tracing session around a walk that is completed in one frame:
    the job is over and no trace is left in progress;
    the finished shapes gain exactly one polyline, from the starting
    position to the end of the path, in the chosen colour and width,
    unless the walker ended within 0.002 of its starting point, in
    which case the one-point trace is dropped.  A session without any
    frame leaves the shapes as they were. *)
Theorem tracing_session
    (st : EngineState) (path : list Vec2) (sp dt wd : R) (c : string) :
  (2 <= List.length path)%nat ->
  pathLength path < sp * dt ->
  let walked := stepAnimation
                  (animatePath (startTracing st c wd) path sp true) dt in
  let st' := finishTracing walked in
  active (anim st') = false
  /\ inProgress st' = None
  /\ shapes st'
     = (if 0.002 <? hypot2 (sub2 (lastPoint path) (frogWorldPos st))
        then shapes st
             ++ [ShapePolyline
                   (mkPolyline [frogWorldPos st; lastPoint path] c wd)]
        else shapes st)
  /\ shapes (finishTracing (startTracing st c wd)) = shapes st.
Proof.
  intros Hlen Hbudget. cbv zeta.
  destruct (fresh_walk_frame (startTracing st c wd) path sp dt true Hlen)
    as (Hact & Hshapes & Hin).
  change (frogWorldPos (startTracing st c wd)) with (frogWorldPos st)
    in Hact, Hin.
  set (w0 := mkWalk 0 0 (sp * dt) (frogWorldPos st)) in *.
  destruct (walkPath_through path (List.length path - 1) (List.length path) w0)
    as [Hyes _]; [reflexivity | unfold w0; cbn [walk_i]; lia | lia |].
  unfold w0 at 1 2 in Hyes. cbn [walk_i walk_remaining] in Hyes.
  fold (pathLength path) in Hyes.
  destruct (Hyes Hbudget) as [Hidx Hend].
  set (w := walkPath (List.length path) path w0) in *.
  rewrite nth_pred_last in Hend. fold (lastPoint path) in Hend.
  rewrite Hend in Hin by lia.
  rewrite (proj2 (Nat.leb_le _ _)) in Hact by lia.
  cbn [startTracing set_inProgress inProgress shapes pts color width lastOf
       List.length Nat.sub nth_error app] in Hin, Hshapes.
  set (walked := stepAnimation _ dt) in *. clearbody walked.
  assert (Hanim : forall s, active (anim (finishTracing s)) = active (anim s)).
  { intros s. unfold finishTracing. destruct (inProgress s) as [poly|];
      [destruct (_ <? 2)%nat|]; reflexivity. }
  split; [rewrite Hanim; exact Hact|].
  unfold finishTracing at 1 2. rewrite Hin.
  destruct (0.002 <? hypot2 (sub2 (lastPoint path) (frogWorldPos st)));
    cbn; rewrite ?Hshapes; repeat split.
Qed.

Lemma tracing_session_witness :
  active (anim (finishTracing
                  (stepAnimation
                     (animatePath (startTracing (createInitialState SpaceE)
                                                "#16a34a" 2)
                                  [mkVec2 0 0; mkVec2 1 0] 10 true) 1)))
  = false.
Proof.
  apply (tracing_session (createInitialState SpaceE)
           [mkVec2 0 0; mkVec2 1 0] 10 1 2 "#16a34a").
  - cbn. lia.
  - unfold pathLength. cbn [List.length Nat.sub restLength].
    unfold segLength. cbn [nth Nat.add]. rewrite hypot2_unit_x. lra.
Defined.

End TracingSessions.

(** ** Spherical perpendiculars *)

Section SphericalPerpendiculars.

Lemma v3norm_sqr (w : Vec3) : v3norm w * v3norm w = dot3 w w.
Proof. unfold v3norm, dot3. apply hypot3_sqr. Qed.

Lemma v3unit_scaled (w : Vec3) :
  0 < v3norm w ->
  v3unit w = mul3 w (/ v3norm w) /\ dot3 (v3unit w) (v3unit w) = 1.
Proof.
  intros Hpos. pose proof (v3norm_sqr w) as Hsq.
  assert (Heq : v3unit w = mul3 w (/ v3norm w)).
  { unfold v3unit. cbv zeta. rewrite orElse_pos by exact Hpos.
    unfold mul3. reflexivity. }
  split; [exact Heq|]. rewrite Heq.
  set (L := v3norm w) in *.
  assert (Hinv : L * / L = 1) by (apply Rinv_r; lra).
  destruct w as [x y z]. unfold dot3, mul3 in *. cbn [wx wy wz] in *.
  replace (x * / L * (x * / L) + y * / L * (y * / L) + z * / L * (z * / L))
    with ((x * x + y * y + z * z) * (/ L * / L)) by ring.
  rewrite <- Hsq.
  replace (L * L * (/ L * / L)) with (L * / L * (L * / L)) by ring.
  rewrite Hinv. ring.
Qed.

(** The lift of a point of the closed unit disk lies above it, on the
    upper half of the unit sphere. *)
Lemma liftToUpperHemisphere_inside (p : Vec2) :
  sqnorm p <= 1 ->
  let P := liftToUpperHemisphere p in
  wx P = vx p /\ wy P = vy p /\ 0 <= wz P /\ dot3 P P = 1.
Proof.
  intros Hp. cbv zeta. unfold liftToUpperHemisphere. cbv zeta.
  unfold sqnorm in Hp.
  set (z := sqrt (JsMath.max 0 (1 - (vx p * vx p + vy p * vy p)))).
  assert (Hz : 0 <= z) by apply sqrt_pos.
  assert (Hzz : z * z = 1 - (vx p * vx p + vy p * vy p)).
  { unfold z, JsMath.max. rewrite Rmax_right by lra.
    apply sqrt_sqrt. lra. }
  rewrite v3unit_unit by (cbn [wx wy wz]; lra).
  unfold dot3. cbn [wx wy wz]. repeat split; [exact Hz | lra].
Qed.

(** The great circle of unit normal [nn] sampled from the lift of
    [through], when that lift is in the plane of the circle. *)
Lemma greatCircleFromNormalAndPoint_spec
    (nn : Vec3) (through : Vec2) (n : nat) :
  sqnorm through <= 1 ->
  dot3 nn nn = 1 ->
  dot3 (liftToUpperHemisphere through) nn = 0 ->
  let circle := greatCircleFromNormalAndPoint nn through (S n) in
  hd origin2 circle = through
  /\ forall pt, In pt circle ->
       exists X, pt = mkVec2 (wx X) (wy X)
                 /\ dot3 X X = 1 /\ dot3 X nn = 0 /\ - 1e-10 <= wz X.
Proof.
  intros Hin Hnn HPn. cbv zeta.
  destruct (liftToUpperHemisphere_inside through Hin) as (Hx & Hy & Hz & HPP).
  unfold greatCircleFromNormalAndPoint, planeBasis. cbv zeta.
  set (P := liftToUpperHemisphere through) in *.
  change (v3dot P nn) with (dot3 P nn). rewrite HPn.
  assert (Hu : v3unit (v3add P (v3scale (v3scale nn 0) (-1))) = P).
  { replace (v3add P (v3scale (v3scale nn 0) (-1))) with P.
    - apply v3unit_unit. exact HPP.
    - destruct P as [a b c], nn as [d e f]. unfold v3add, v3scale.
      cbn [wx wy wz]. apply vec3_eq; ring. }
  rewrite Hu.
  change (v3cross nn P) with (cross3 nn P).
  destruct (cross3_orth nn P) as (Hnv & HPv & Hvv).
  assert (HnP : dot3 nn P = 0).
  { rewrite <- HPn. unfold dot3. ring. }
  rewrite Hnn, HPP, HnP in Hvv.
  assert (Hv1 : dot3 (cross3 nn P) (cross3 nn P) = 1) by lra.
  rewrite (v3unit_unit (cross3 nn P)) by exact Hv1.
  set (v := cross3 nn P) in *.
  assert (Hpoint : forall t,
    circlePoint P v t = add3 (mul3 P (cos t)) (mul3 v (sin t))
    /\ dot3 (circlePoint P v t) (circlePoint P v t) = 1
    /\ dot3 (circlePoint P v t) nn = 0).
  { intros t. unfold circlePoint.
    change (mkVec3 (wx P * cos t + wx v * sin t)
                   (wy P * cos t + wy v * sin t)
                   (wz P * cos t + wz v * sin t))
      with (add3 (mul3 P (cos t)) (mul3 v (sin t))).
    assert (Hone : dot3 (add3 (mul3 P (cos t)) (mul3 v (sin t)))
                        (add3 (mul3 P (cos t)) (mul3 v (sin t))) = 1).
    { rewrite dot3_comb_sqr, HPP, HPv, Hv1. pose proof (cos2_sin2 t). lra. }
    rewrite (v3unit_unit _ Hone). split; [reflexivity|].
    split; [exact Hone|].
    replace (dot3 (add3 (mul3 P (cos t)) (mul3 v (sin t))) nn)
      with (dot3 nn (add3 (mul3 P (cos t)) (mul3 v (sin t))))
      by (unfold dot3; ring).
    rewrite dot3_comb_r, HnP, Hnv. ring. }
  assert (Hpos : 0 < INR (S n)) by (apply lt_0_INR; lia).
  split.
  - unfold for_upto. cbn [seq map].
    replace (2 * PI * INR 0 / INR (S n)) with 0
      by (replace (INR 0) with 0 by reflexivity; field; lra).
    destruct (Hpoint 0) as (H0 & _ & _).
    rewrite H0, cos_0, sin_0.
    replace (add3 (mul3 P 1) (mul3 v 0)) with P.
    + cbn [filter]. rewrite leb_true by lra. cbn [map hd].
      destruct through as [x y]. cbn [vx vy] in *. now rewrite Hx, Hy.
    + destruct P as [a b c], v as [d e f]. unfold add3, mul3.
      cbn [wx wy wz]. apply vec3_eq; ring.
  - intros pt Hpt. apply in_map_iff in Hpt. destruct Hpt as (X & <- & HX).
    apply filter_In in HX. destruct HX as [HX Hkeep].
    apply for_upto_In in HX. destruct HX as (i & _ & ->).
    set (t := 2 * PI * INR i / INR (S n)) in *.
    destruct (Hpoint t) as (_ & H1 & H2).
    exists (circlePoint P v t). split; [reflexivity|].
    split; [exact H1|]. split; [exact H2|].
    destruct (leb_spec (- 1e-10) (wz (circlePoint P v t)));
      [assumption | discriminate].
Qed.

(** The spherical perpendicular through a point of the disk, when that
    point is not a pole of the base great circle: the polyline starts at
    the clicked point, and each of its points is the projection of a
    point of the unit sphere, above the plane [z = -1e-10], on the great
    circle whose plane contains the lifted point and the normal of the
    base, and which therefore cuts the base circle at a right angle. *)
Theorem sphericalPerpendicular_spec
    (baseP baseQ through : Vec2) (n : nat) :
  let P := liftToUpperHemisphere through in
  let nBase := v3unit (v3cross (liftToUpperHemisphere baseP)
                               (liftToUpperHemisphere baseQ)) in
  let nPerp := v3cross P nBase in
  let perp := sphericalPerpendicularGreatCircleThroughPoint
                baseP baseQ through (S n) in
  sqnorm through <= 1 ->
  1e-10 <= v3norm nPerp ->
  v3dot P nPerp = 0
  /\ v3dot nBase nPerp = 0
  /\ hd origin2 perp = through
  /\ forall pt, In pt perp ->
       exists X, pt = mkVec2 (wx X) (wy X)
                 /\ v3dot X X = 1 /\ v3dot X nPerp = 0 /\ - 1e-10 <= wz X.
Proof.
  cbv zeta. intros Hin Hbig.
  unfold sphericalPerpendicularGreatCircleThroughPoint. cbv zeta.
  set (P := liftToUpperHemisphere through) in *.
  set (nBase := v3unit _) in *.
  set (nPerp := v3cross P nBase) in *.
  rewrite ltb_false by lra.
  destruct (cross3_orth P nBase) as (HP & HB & _).
  change (cross3 P nBase) with nPerp in HP, HB.
  split; [exact HP|]. split; [exact HB|].
  destruct (v3unit_scaled nPerp ltac:(lra)) as [Hnn Hunit].
  assert (HPn : dot3 P (v3unit nPerp) = 0).
  { rewrite Hnn. destruct P as [a b c], nPerp as [d e f].
    unfold dot3, mul3 in *. cbn [wx wy wz] in *.
    replace (a * (d * / v3norm {| wx := d; wy := e; wz := f |})
             + b * (e * / v3norm {| wx := d; wy := e; wz := f |})
             + c * (f * / v3norm {| wx := d; wy := e; wz := f |}))
      with ((a * d + b * e + c * f)
            * / v3norm {| wx := d; wy := e; wz := f |}) by ring.
    rewrite HP. ring. }
  destruct (greatCircleFromNormalAndPoint_spec (v3unit nPerp) through n
              Hin Hunit HPn) as [Hhd Hpts].
  split; [exact Hhd|].
  intros pt Hpt. destruct (Hpts pt Hpt) as (X & Hproj & HXX & HXn & Hz).
  exists X. split; [exact Hproj|]. split; [exact HXX|]. split; [|exact Hz].
  change (v3dot X nPerp) with (dot3 X nPerp).
  rewrite Hnn in HXn.
  assert (Hscale : dot3 X (mul3 nPerp (/ v3norm nPerp))
                   = dot3 X nPerp * / v3norm nPerp).
  { destruct X, nPerp. unfold dot3, mul3. cbn [wx wy wz]. ring. }
  rewrite Hscale in HXn.
  assert (Hinv : 0 < / v3norm nPerp) by (apply Rinv_0_lt_compat; lra).
  nra.
Qed.

Lemma equator_perpendicular_normal :
  v3cross (liftToUpperHemisphere (mkVec2 0 0))
          (v3unit (v3cross (liftToUpperHemisphere (mkVec2 0 0))
                           (liftToUpperHemisphere (mkVec2 1 0))))
  = mkVec3 (-1) 0 0.
Proof.
  rewrite lift_origin, lift_east.
  assert (Hc : v3cross (mkVec3 0 0 1) (mkVec3 1 0 0) = mkVec3 0 1 0)
    by (unfold v3cross; cbn [wx wy wz]; apply vec3_eq; ring).
  rewrite Hc, v3unit_unit by (cbn [wx wy wz]; ring).
  unfold v3cross. cbn [wx wy wz]. apply vec3_eq; ring.
Qed.

Lemma sphericalPerpendicular_spec_witness :
  hd origin2 (sphericalPerpendicularGreatCircleThroughPoint
                (mkVec2 0 0) (mkVec2 1 0) (mkVec2 0 0) 560)
  = mkVec2 0 0.
Proof.
  apply (sphericalPerpendicular_spec (mkVec2 0 0) (mkVec2 1 0) (mkVec2 0 0)
           559).
  - unfold sqnorm. cbn [vx vy]. lra.
  - rewrite equator_perpendicular_normal. unfold v3norm, JsMath.hypot3.
    cbn [wx wy wz].
    replace (-1 * -1 + 0 * 0 + 0 * 0) with 1 by ring. rewrite sqrt_1. lra.
Defined.

End SphericalPerpendiculars.

(** ** The position stored by a hyperbolic advance *)

Section StoredPosition.

(** *** [NaN] absorbs *)

Lemma mul_nan_r (a : Doubles.Double) : Doubles.mul a Doubles.NaN = Doubles.NaN.
Proof. destruct a; reflexivity. Qed.

Lemma mul2_nan (a : Doubles.DVec2) :
  Doubles.mul2 a Doubles.NaN = Doubles.mkDVec2 Doubles.NaN Doubles.NaN.
Proof. unfold Doubles.mul2. now rewrite !mul_nan_r. Qed.

Lemma mobiusAdd_nan (p : Doubles.DVec2) :
  Doubles.mobiusAdd p (Doubles.mkDVec2 Doubles.NaN Doubles.NaN)
  = Doubles.mkDVec2 Doubles.NaN Doubles.NaN.
Proof. destruct p as [[x| | |] [y| | |]]; reflexivity. Qed.

(** For such a distance [Math.exp] returns [Infinity] or [NaN], and the
    quotient of [tanh] is [NaN]. *)
Lemma tanh_unusable (dist : Doubles.Double) :
  unusableDistance dist ->
  Doubles.tanh (Doubles.div dist (Doubles.Fin 2)) = Doubles.NaN.
Proof.
  intros [-> | [-> | (d & -> & Hd)]].
  - reflexivity.
  - unfold Doubles.tanh, Doubles.div. rewrite leb_true by lra.
    cbn [Doubles.signed Doubles.mul].
    rewrite eqb_false by lra. rewrite ltb_true by lra. reflexivity.
  - unfold Doubles.tanh, Doubles.div. rewrite eqb_false by lra.
    cbn [Doubles.mul Doubles.exp].
    rewrite ltb_true by (unfold Doubles.expMax; lra). reflexivity.
Qed.

Lemma buildAdvancePath_h_pos_unusable
    (p : Doubles.DVec2) (theta dist : Doubles.Double) :
  unusableDistance dist ->
  Doubles.buildAdvancePath_h_pos p theta dist
  = Doubles.mkDVec2 Doubles.NaN Doubles.NaN.
Proof.
  intros Hd. unfold Doubles.buildAdvancePath_h_pos. cbv zeta.
  rewrite (tanh_unusable dist Hd).
  set (d0 := Doubles.hyperbolicDirectionAtOrigin _ _). clearbody d0.
  rewrite mul2_nan, mobiusAdd_nan. reflexivity.
Qed.

(** *** Finite values are computed as in the model on real numbers *)

Lemma add2_finite (a b : Vec2) :
  Doubles.add2 (finite2 a) (finite2 b) = finite2 (add2 a b).
Proof. reflexivity. Qed.

Lemma sub2_finite (a b : Vec2) :
  Doubles.sub2 (finite2 a) (finite2 b) = finite2 (sub2 a b).
Proof. reflexivity. Qed.

Lemma mul2_finite (a : Vec2) (k : R) :
  Doubles.mul2 (finite2 a) (Doubles.Fin k) = finite2 (mul2 a k).
Proof. reflexivity. Qed.

Lemma dot2_finite (a b : Vec2) :
  Doubles.dot2 (finite2 a) (finite2 b) = Doubles.Fin (dot2 a b).
Proof. reflexivity. Qed.

Lemma div_finite (a b : R) :
  b <> 0 ->
  Doubles.div (Doubles.Fin a) (Doubles.Fin b) = Doubles.Fin (a / b).
Proof. intros Hb. unfold Doubles.div. now rewrite eqb_false. Qed.

Lemma norm2_finite (a : Vec2) :
  Doubles.norm2 (finite2 a) = finite2 (norm2 a).
Proof.
  unfold Doubles.norm2, norm2. cbv zeta.
  change (Doubles.hypot2 (finite2 a)) with (Doubles.Fin (hypot2 a)).
  change (Doubles.gtb (Doubles.Fin (hypot2 a)) (Doubles.Fin 0))
    with (0 <? hypot2 a).
  destruct (ltb_spec 0 (hypot2 a)) as [Hpos|Hzero]; [|reflexivity].
  rewrite div_finite by lra. reflexivity.
Qed.

Lemma mobiusAdd_finite (a b : Vec2) :
  sqnorm a * sqnorm b < 1 ->
  Doubles.mobiusAdd (finite2 a) (finite2 b) = finite2 (mobiusAdd a b).
Proof.
  intros Hab. pose proof (mobius_denominator_pos a b Hab) as HD.
  unfold Doubles.mobiusAdd, mobiusAdd. cbv zeta.
  rewrite !dot2_finite.
  cbn [Doubles.mul Doubles.add Doubles.sub Doubles.neg
       Doubles.dx Doubles.dy finite2].
  rewrite !div_finite by lra. reflexivity.
Qed.

Lemma tanh_finite (x : R) :
  2 * x <= 709 -> Doubles.tanh (Doubles.Fin x) = Doubles.Fin (tanh x).
Proof.
  intros Hx. unfold Doubles.tanh, tanh. cbv zeta.
  cbn [Doubles.mul Doubles.exp].
  rewrite ltb_false by (unfold Doubles.expMax; lra).
  cbn [Doubles.sub Doubles.neg Doubles.add].
  pose proof (exp_pos (2 * x)) as HE.
  rewrite div_finite by lra. reflexivity.
Qed.

Lemma guarded_sqnorm (q : Vec2) :
  sqnorm (if 0.9999 <=? dot2 q q then mul2 (norm2 q) 0.999 else q) < 1.
Proof.
  destruct (leb_spec 0.9999 (dot2 q q)) as [Hout|Hin].
  - rewrite rescaled_sqnorm. lra.
  - rewrite sqnorm_dot2. lra.
Qed.

Lemma sqnorm_opp (p : Vec2) : sqnorm (mkVec2 (- vx p) (- vy p)) = sqnorm p.
Proof. unfold sqnorm. cbn [vx vy]. ring. Qed.

Lemma sqnorm_nonneg (p : Vec2) : 0 <= sqnorm p.
Proof. unfold sqnorm. nra. Qed.

Lemma hyperbolicDirectionAtOrigin_finite (p dir : Vec2) :
  sqnorm p < 1 ->
  Doubles.hyperbolicDirectionAtOrigin (finite2 p) (finite2 dir)
  = finite2 (hyperbolicDirectionAtOrigin p dir).
Proof.
  intros Hp. pose proof (sqnorm_nonneg p) as Hp0.
  unfold Doubles.hyperbolicDirectionAtOrigin, hyperbolicDirectionAtOrigin.
  cbv zeta.
  rewrite norm2_finite, mul2_finite, add2_finite, dot2_finite.
  change (Doubles.geb
            (Doubles.Fin (dot2 (add2 p (mul2 (norm2 dir) 1e-4))
                               (add2 p (mul2 (norm2 dir) 1e-4))))
            (Doubles.Fin 0.9999))
    with (0.9999 <=? dot2 (add2 p (mul2 (norm2 dir) 1e-4))
                          (add2 p (mul2 (norm2 dir) 1e-4))).
  rewrite norm2_finite, mul2_finite.
  pose proof (guarded_sqnorm (add2 p (mul2 (norm2 dir) 1e-4))) as Hq.
  pose proof (sqnorm_nonneg
                (if 0.9999 <=? dot2 (add2 p (mul2 (norm2 dir) 1e-4))
                                    (add2 p (mul2 (norm2 dir) 1e-4))
                 then mul2 (norm2 (add2 p (mul2 (norm2 dir) 1e-4))) 0.999
                 else add2 p (mul2 (norm2 dir) 1e-4))) as Hq0.
  replace (if 0.9999 <=? dot2 (add2 p (mul2 (norm2 dir) 1e-4))
                              (add2 p (mul2 (norm2 dir) 1e-4))
           then finite2 (mul2 (norm2 (add2 p (mul2 (norm2 dir) 1e-4))) 0.999)
           else finite2 (add2 p (mul2 (norm2 dir) 1e-4)))
    with (finite2 (if 0.9999 <=? dot2 (add2 p (mul2 (norm2 dir) 1e-4))
                                      (add2 p (mul2 (norm2 dir) 1e-4))
                   then mul2 (norm2 (add2 p (mul2 (norm2 dir) 1e-4))) 0.999
                   else add2 p (mul2 (norm2 dir) 1e-4)))
    by (destruct (_ <=? _); reflexivity).
  set (q := if _ <=? _ then _ else _) in *. clearbody q.
  change (Doubles.mkDVec2 (Doubles.neg (Doubles.dx (finite2 p)))
                          (Doubles.neg (Doubles.dy (finite2 p))))
    with (finite2 (mkVec2 (- vx p) (- vy p))).
  pose proof (sqnorm_opp p) as Ho.
  rewrite !mobiusAdd_finite by (rewrite Ho; nra).
  rewrite sub2_finite, norm2_finite. reflexivity.
Qed.

Lemma hyperbolicDirectionAtOrigin_unit (p dir : Vec2) :
  sqnorm (hyperbolicDirectionAtOrigin p dir) = 1.
Proof. unfold hyperbolicDirectionAtOrigin. cbv zeta. apply norm2_sqnorm. Qed.

(** Below the overflow of the exponential the stored position is the
    one of the model on real numbers. *)
Lemma buildAdvancePath_h_pos_finite (st : EngineState) (d : R) :
  space st = SpaceH ->
  sqnorm (h_pos st) < 1 ->
  d <= 709 ->
  Doubles.buildAdvancePath_h_pos (finite2 (h_pos st))
                                 (Doubles.Fin (h_theta st)) (Doubles.Fin d)
  = finite2 (h_pos (built_next (buildAdvancePath st d))).
Proof.
  intros Hs Hp Hd. pose proof (sqnorm_nonneg (h_pos st)) as Hp0.
  unfold buildAdvancePath. rewrite Hs. cbv zeta.
  cbn [built_next h_pos set_h_pos].
  unfold Doubles.buildAdvancePath_h_pos. cbv zeta.
  change (Doubles.mkDVec2 (Doubles.cos (Doubles.Fin (h_theta st)))
                          (Doubles.sin (Doubles.Fin (h_theta st))))
    with (finite2 (mkVec2 (cos (h_theta st)) (sin (h_theta st)))).
  rewrite (hyperbolicDirectionAtOrigin_finite _ _ Hp).
  rewrite div_finite by lra. rewrite tanh_finite by lra.
  rewrite mul2_finite.
  pose proof (hyperbolicDirectionAtOrigin_unit (h_pos st)
                (mkVec2 (cos (h_theta st)) (sin (h_theta st)))) as Hd0.
  pose proof (tanh_sqr_lt_1 (d / 2)) as Ht.
  set (d0 := hyperbolicDirectionAtOrigin _ _) in *. clearbody d0.
  set (t := tanh (d / 2)) in *. clearbody t.
  assert (Hstep : sqnorm (mul2 d0 t) < 1).
  { unfold sqnorm, mul2 in *. cbn [vx vy].
    replace (vx d0 * t * (vx d0 * t) + vy d0 * t * (vy d0 * t))
      with ((vx d0 * vx d0 + vy d0 * vy d0) * (t * t)) by ring.
    rewrite Hd0. lra. }
  pose proof (sqnorm_nonneg (mul2 d0 t)) as Hstep0.
  rewrite mobiusAdd_finite by nra.
  rewrite dot2_finite.
  change (Doubles.geb
            (Doubles.Fin (dot2 (mobiusAdd (h_pos st) (mul2 d0 t))
                               (mobiusAdd (h_pos st) (mul2 d0 t))))
            (Doubles.Fin 0.9999))
    with (0.9999 <=? dot2 (mobiusAdd (h_pos st) (mul2 d0 t))
                          (mobiusAdd (h_pos st) (mul2 d0 t))).
  rewrite norm2_finite, mul2_finite.
  destruct (_ <=? _); reflexivity.
Qed.

(** C6 (the points of the hyperbolic paths and the position stored by
    an advance).  For a state of the hyperbolic model whose position is
    strictly inside the unit disk:

    - for a distance [d <= 709] the position stored by [buildAdvancePath]
      is computed without exceptional value and is the one of the model
      on real numbers; it is strictly inside the disk, it is the target
      of the advance when the squared norm of the target is below
      0.9999, and the target rescaled to norm 0.999 otherwise; every
      point of the path is inside the disk;
    - for a radius [radius <= 709] every point of [buildCircleTrace]
      and the position it stores are inside the disk;
    - every point of [hyperbolicGeodesicPoints] is inside the disk, and
      the guard of the samples rescales to norm 0.999;
    - for a distance that is [NaN], infinite or at least 710, [tanh]
      returns [NaN], the test [r2 >= 0.9999] is false, and the position
      stored by [buildAdvancePath] is [(NaN, NaN)]: it is not inside
      the disk. *)
Theorem advance_H_stored_position
    (st : EngineState) (a b : Vec2) (n : nat) :
  space st = SpaceH ->
  sqnorm (h_pos st) < 1 ->
  let stored :=
    Doubles.buildAdvancePath_h_pos (finite2 (h_pos st))
                                   (Doubles.Fin (h_theta st)) in
  (forall d, d <= 709 ->
     let built := buildAdvancePath st d in
     let raw := advanceTargetH st d in
     stored (Doubles.Fin d) = finite2 (h_pos (built_next built))
     /\ sqnorm (h_pos (built_next built)) < 1
     /\ (sqnorm raw < 0.9999 -> h_pos (built_next built) = raw)
     /\ (0.9999 <= sqnorm raw ->
           h_pos (built_next built) = mul2 (norm2 raw) 0.999
           /\ hypot2 (h_pos (built_next built)) = 0.999)
     /\ (forall pt, In pt (built_path built) -> sqnorm pt < 1))
  /\ (forall radius, radius <= 709 ->
        (forall pt, In pt (traced_path (buildCircleTrace st radius)) ->
           sqnorm pt < 1)
        /\ sqnorm (h_pos (traced_next (buildCircleTrace st radius))) < 1)
  /\ (forall pt, In pt (hyperbolicGeodesicPoints a b n) -> sqnorm pt < 1)
  /\ (forall p, 1 <= sqnorm p -> hypot2 (keepInDisk p) = 0.999)
  /\ (forall dist, unusableDistance dist ->
        stored dist = Doubles.mkDVec2 Doubles.NaN Doubles.NaN
        /\ Doubles.ltb (Doubles.dot2 (stored dist) (stored dist))
                       (Doubles.Fin 1) = false).
Proof.
  intros Hs Hp. cbv zeta.
  split.
  { intros d Hd.
    split; [apply buildAdvancePath_h_pos_finite; assumption|].
    destruct (paths_in_disk st d 0 a b n Hs) as (_ & Hpath & Hnext & _).
    split; [exact Hnext|].
    unfold buildAdvancePath, advanceTargetH. rewrite Hs. cbv zeta.
    cbn [built_next built_path h_pos set_h_pos].
    rewrite <- sqnorm_dot2.
    split; [intros Hraw; now rewrite leb_false by lra|].
    split.
    - intros Hraw. rewrite leb_true by lra.
      split; [reflexivity | apply rescaled_hypot2].
    - intros pt. apply hyperbolicGeodesicPoints_in_disk. }
  split.
  { intros radius _.
    destruct (paths_in_disk st 0 radius a b n Hs)
      as (_ & _ & _ & Hpath & Hnext & _).
    split; assumption. }
  split; [intros pt; apply hyperbolicGeodesicPoints_in_disk|].
  split; [exact keepInDisk_rescales|].
  intros dist Hdist.
  rewrite (buildAdvancePath_h_pos_unusable _ _ dist Hdist).
  split; reflexivity.
Qed.

Lemma advance_H_stored_position_witness :
  Doubles.buildAdvancePath_h_pos
    (finite2 (h_pos (createInitialState SpaceH)))
    (Doubles.Fin (h_theta (createInitialState SpaceH))) (Doubles.Fin 710)
  = Doubles.mkDVec2 Doubles.NaN Doubles.NaN.
Proof.
  assert (Hp : sqnorm (h_pos (createInitialState SpaceH)) < 1)
    by (unfold sqnorm; cbn; lra).
  destruct (advance_H_stored_position (createInitialState SpaceH)
              (mkVec2 0 0) (mkVec2 0.5 0) 140 eq_refl Hp)
    as (_ & _ & _ & _ & Hnan).
  apply Hnan. right. right. exists 710. split; [reflexivity | lra].
Defined.

End StoredPosition.
